(* ===== verification/_CoqProject ===== *)
-Q . S2P
Prelude.v
Hash.v
Reduce.v
Table.v
Chain.v
Quicksort.v
Lookup.v
Cmwc.v
Generator.v
Exhaustive.v
Names.v
Mt.v
Wikihash.v
Files.v
Plugins.v
