(* ===== verification/Prelude.v ===== *)
(** * Snowflake: a verification development of the rainbow-table engine

    The program (repository GeorgeArgyros/Snowflake) recovers the 32-bit
    seed of a PHP random number generator from an observed digest.  It
    precomputes rainbow tables: chains that start at a random seed and
    alternate a hash function H (a plug-in) with a reduction of the
    digest back to a seed, keeping only each chain's start and end.  A
    table is a file of 8-byte (start, end) records, sorted by end; a
    lookup walks the target digest forward from every possible chain
    position, binary-searches the resulting endpoint and regenerates the
    matching chains to confirm a seed.  An exhaustive search over all
    2^32 seeds is the fallback.

    Sources (read under src/): the engine is src/unnamed/part_000
    (snowflake.c: reduction, registry, generation, sorting, lookup,
    exhaustive search, command line); src/snowflake/rand.c holds the
    multiply-with-carry generator of start points (lines 1-77) followed
    by the wikihash plug-in (lines 78-225: a MediaWiki token as MD5 of
    two Mersenne Twister outputs); src/unnamed/part_001 is a standalone
    Mersenne Twister test program (lines 1-156) and the Makefile.

    ** How the parts interact, and where they are modelled

    - Prelude.v (this file): 32-bit words ([wrap32], [u32], [int_of_u32]
      for the C conversions), bytes ([byte_val], [schar_val] for a
      signed [char], [le32] for a little-endian word), [memeq] for
      [memcmp(...) == 0], the error monad [outcome] ([Ret], [MemFault]
      for a read past mapped memory, [OutOfFuel] for an iteration bound
      that was too small), sums [zsum], the hint databases [snow] and
      [snow_rw] and the tactics [u32_solve], [u32_bits], [zlia] and
      [split_pairs].
    - Hash.v: the plug-in interface.  [HashFunction] is the class every
      other component is written against (a digest function and its
      length, [hash] and [hash_len]); [WfHash] is the plug-in contract.
      [resolveHashFunc] models the search over ./hashlib<i>.so, the
      loader being the environment [libs].
    - Reduce.v: [reduce], word-fold then byte-add then round XOR.
    - Table.v: the [chain] record, its on-disk bytes ([table_bytes], as
      [fwrite] writes them), the file read back as records
      ([table_of_bytes]) and the memory a mapping exposes ([mm_read]:
      the records, zeros to the end of the page, then a fault).
    - Chain.v: [walk] and [generateChain] (the start point comes from a
      [RandSource], the interface between the chain generator and the
      generator of rand.c), [regenerateChain].
    - Quicksort.v: [swap], the partition loop and [quickSortTable].
    - Lookup.v: [searchTable] (binary search and backward scan), the
      run enumeration, the column loop and [searchHashInMemory].
    - Cmwc.v: the static state of rand.c ([Q], [c], [seeded], the static
      index [i] of [rand_cmwc]) as a record; [srand_cmwc],
      [custom_seed] (the wall clock is an environment value of the
      state), [rand_cmwc] with its arithmetic core [cmwc_step], and
      [rand_cmwc_r] as the [RandSource]
      instance, atomic because it holds the generator mutex.
    - Generator.v: [chainGenerationWorker] and [createRainbowTable].  A
      configuration holds the shared generator state, the shared file,
      the writer mutex (its holder, if any) and each worker's quota,
      bucket index, filled buffer and status; [pool_step] is one atomic
      action of one worker (generate a chain, lock the mutex when it is
      free, [fwrite] a bucket and unlock, a short [fwrite] that unlocks
      and makes the worker return -1, the return), so the file order is
      the schedule's.  [createRainbowTable] relates its inputs to its return
      value and file, [fopen] and [malloc] failures being environment
      outcomes; [exec_step] and [run_schedule] give executable schedules.
    - Exhaustive.v: [seedRecoveryWorker] and [searchHashOnline].  The
      shared [found] and [seed] are written without synchronisation, so
      a worker is a program counter split at each access to them
      ([AtCond], [WriteFound], [WriteSeed], [CheckFound], [Exited]) and
      [search_step] interleaves the workers; [make_options] is the loop
      that hands out the ranges; [searchHashOnline] relates its inputs
      to its return value and final [seed], resolving the hash with
      [resolveHashFunc].
    - Names.v: [generateTableName] and [parseTablename] on C strings
      (lists of [ascii]): [snprintf] of ["%s.%u.%u.%u.rt"] into 512
      bytes, POSIX [basename], [strchr], and glibc's [sscanf] for this
      format, up to the outputs it assigns ([None] for an output left
      unassigned).
    - Mt.v: the Mersenne Twister test program (part_001).  [MTState] is
      the C struct with [next] as an index into [state]; [mtInitialize],
      the three pointer loops of [mtReload] ([reload_first],
      [reload_second], [reload_last]), [mt_srand], [mt_rand] with its
      tempering, [php_mt_rand], [php_mt_rand_range] and [main] as the
      list of values it prints.  [reload_ref] is the textbook reload.
    - Wikihash.v: the wikihash plug-in of rand.c: [php_mt_initialize]
      (only [N - 200] words), the [twist] macro, [temper], [hexConvert]
      with its two [do]-[while] loops, [mediawikiHash] and
      [hashFuncArray].  MD5 is a parameter of the section [Plugin].
    - Files.v: the operations on table files and the command line.  The
      file system is a [gmap] from path to bytes and the outcome of
      [open], [fstat] and [mmap] is a [syscalls] record;
      [sortRainbowTable], [generateRainbowTable] (a relation, since
      [createRainbowTable] is one), [searchRainbowTable] (the locals
      [parseTablename] leaves unassigned are an [uninit] parameter),
      [bytesFromHash] with glibc's [%x], [atoi], and [main] as a relation
      from the arguments and files to the exit code, the lines printed
      ([msg]) and the files; also [readable] and the [main] of the
      standalone wikihash build.
    - Plugins.v: the dynamic loading behind [resolveHashFunc]: the file
      names [snprintf] builds ([libname], [HASHLIB]), and [dlopen] then
      [dlsym(handle, HASHARRAY)] over a [loader] that maps file names
      to the symbols each library exports ([dlsym_array]); the wikihash
      library as an instance of the plug-in contract [WfHash].

    ** What the theorems show

    - Lookup: a seed the lookup returns always hashes to the target
      (soundness); a digest lying on a valid chain of the sorted table
      is found whenever the binary search locates the chain's endpoint,
      in particular whenever that endpoint is shared by two records; the
      lookup terminates.  The binary search is characterised exactly: it
      returns one index before the first match, and misses an endpoint
      only if a single record holds it.  It does miss such endpoints:
      the start point of the chain with the largest endpoint of a small
      generated table is not found, against property 3 of the spec.
      The run enumeration reads the record after the last one: on a
      sorted table of valid chains that fills its pages, a target whose
      column endpoint is shared by false positives at the end of the
      table makes the lookup fault (the compiled C code segfaults).
    - Chains: regeneration returns the first chain position whose
      digest matches the target, and fails exactly when none does.
    - Sorter: for [end < 2^31], [quickSortTable] permutes its range
      into endpoint order (the spec's invariant
      [table[i].end <= table[i+1].end]), leaves the rest in place, and
      recurses at most [end - beg] levels deep (a lemma: the fuel is
      never what stops it); for [end >= 2^31] the [int r = end] is
      negative and the range is left unsorted.
    - Reduction: refinement of the spec's formula (restated from the
      spec alone: the XOR of the little-endian words plus the unsigned
      trailing bytes) when the trailing bytes are below 0x80; for every
      digest the code's value is that formula minus 256 per trailing
      byte of 0x80 or more (signed [char]); the spec's example;
      also the 32-bit range, injectivity in the round and independence
      from the buffer past [hashLen] (lemmas).
    - Table store and registry: 8 bytes per record, write/read
      roundtrip; resolution in discovery order, failure exactly on an
      unknown name.
    - Generator pool: under every schedule and whatever [fwrite] does,
      every record written is a valid chain and there are at most
      [chainNum] of them, exactly [chainNum] when the call returns 1
      (an invariant over the reachable configurations, by rule
      induction); some schedule always succeeds; the mutex is held
      exactly by the worker between its lock and its [fwrite], so no
      reachable configuration is stuck; every schedule is finite (a measure of the
      steps left decreases); the quotas and buckets add up and never
      overflow the 8192-entry buffer.
    - Start-point generator: every reachable state of rand.c keeps a
      full array of 32-bit words and a carry of at most 18782 once
      seeded; every output is a 32-bit word.  Its arithmetic
      ([cmwc_step]) is Marsaglia's multiply-with-carry with base
      [2^32 - 1] ([cmwc_ref]) except when the halves of [a * q + c] add
      up to the base: then it keeps the digit [2^32 - 1] and returns
      [0xffffffff], which the reference never returns (equivalence with
      that exception; the clock value 2043436662 reaches it).
    - Exhaustive searcher: the ranges cover [0, 0xffffffff] but adjacent
      ones share their boundary seed (against property 7 of the spec);
      when the target has a 32-bit preimage some schedule returns with
      [found] set and [seed] a preimage, and every joined run returns
      such a seed; when it has none, the search never returns, because
      the last worker's test [i <= 0xffffffff] never fails; an unknown
      hash name returns 0, the value for "not found".
    - Name codec: a generated name parses back to its hash name,
      [chainNum] and [chainLen], also after a directory; the spec's
      scenario; ["bad.rt"] is accepted with the numbers unassigned and a
      hash name with a space is cut (against section 4.J of the spec).
    - Mersenne Twister: the pointer loops of [mtReload] compute the
      textbook reload (equivalence); every state reached by [mt_srand]
      and [mt_rand] keeps [next + left = N], so reads stay in the state
      and values are 32-bit (invariant by rule induction);
      [php_mt_rand_range] stays in [min, max]; [main] prints what the
      compiled C program prints, for no argument and for 12345 (an
      example checked by evaluation).
    - wikihash: [mediawikiHash] hashes the hexadecimal texts of the
      fifth and sixth [php_mt_rand] values after [mt_srand(seed)], for
      every seed (the shortened initialisation and the single twists
      are exact); [hexConvert] writes both numbers without leading
      zeros, at most 16 characters, and each reads back.
    - Files and command line: a table [generateRainbowTable] reports as
      generated holds [chainNum] valid chains under its generated name,
      sorted when the mapping succeeded, and no other file changes; a
      failed [mmap] is reported as success with the table unsorted (a
      defect); a seed [searchRainbowTable] returns hashes to the target
      under the function its name gives; [bytesFromHash] decodes what
      [readable] prints; [main] exits with 0 exactly on valid arguments
      and prints nothing in generate mode; a seed [main] prints (search
      or crack) hashes to the decoded target under the named function.
    - Plug-ins: the wikihash library loaded as [./hashlib0.so] resolves
      to [mediawikiHash] with length 16 and meets [WfHash].

    ** Bounds and iteration counts

    Loops that are not structural carry an iteration bound, and a
    theorem shows the bound is never what stops them: the partition
    loop runs [r - l] times and the quicksort recursion is at most
    [end - beg] deep; the binary search gets 33 iterations, enough for
    any table of at most 2^31 records (its range halves each time); the
    backward scan and the run enumeration are bounded by the records
    they can read.  The concurrent components have no bound: their
    step relations are shown well founded (the generator pool) or their
    divergence is stated as a theorem (the exhaustive searcher).  Theorems about the lookup assume tables of 1 to 2^31
    records and chain lengths of at most 2^31, the ranges in which the
    C conversions between [int], [unsigned int] and [long] are exact.

    The Mersenne Twister state has [N = 624] words as unary [nat]
    indices; proofs never compute on the full state except the
    [main] scenario, which evaluates with [vm_compute].
    [php_mt_rand_range] uses [double] arithmetic; for [uint32_t]
    operands its one inexact step is the product, modelled as the
    [double] nearest to the exact integer product ([round_double]:
    round to nearest, ties to even, 53 significant bits), so the model
    agrees with the compiled C on every input, including the ranges
    above [2^22] where the rounding adds one.

    ** Not modelled

    MD5 (a library the plug-in only calls) is a parameter; printing is
    I/O and is modelled as the list of lines or values printed; the
    Makefile is build configuration; [dlclose] changes nothing the
    model observes (a loaded library's exports are fixed).  [pthread_create] and the
    unchecked [malloc]s of the two thread pools are assumed to succeed.
    [fwrite] is modelled as reaching the file directly: stdio buffering
    is abstracted away and the flush of [fclose] at the end of
    [createRainbowTable] (whose result the code ignores) is assumed to
    succeed.  In [quickSortTable] the [int l = beg+1] is taken to be
    non-negative: [sortRainbowTable] calls it with [beg = 0], a call
    with [end >= 2^31] returns at once (a negative [int r], modelled),
    and a call that partitions has [end < 2^31], so all recursive calls
    have [beg + 1 < 2^31].
    A table file whose size is not a multiple of 8 is read as its whole
    records ([mapped_records] counts the mapping from them), and
    [sortRainbowTable] with a [chainNum] beyond the records of its file
    ([None]) is outside the model; [generateRainbowTable] never calls
    it so.  In the command line, each generated table starts from a
    generator state left open (the theorems hold for every state), and
    undefined behaviour (a read past [argv[3]], an overflow of
    [hashFuncName]) has no outcome. *)

From stdpp Require Import base list option sets sorting.
From Stdlib Require Import ZArith Lia.
From Stdlib.Strings Require Byte.

(** ** Machine words

    The C code works on [unsigned int] (32 bits), [int], [long] and
    [char].  A 32-bit unsigned value is a [Z] in [0, 2^32); arithmetic
    that can wrap is written with [wrap32]. *)

Declare Scope snow_scope.
Delimit Scope snow_scope with snow.
Open Scope Z_scope.

Definition two32 : Z := 2 ^ 32.

(** Conversion of an integer to [unsigned int]: reduction modulo 2^32. *)
Definition wrap32 (z : Z) : Z := z mod two32.

(** Conversion of an [unsigned int] to [int] (two's complement on the
    target). *)
Definition int_of_u32 (z : Z) : Z := if z <? 2 ^ 31 then z else z - 2 ^ 32.

(** The range of [unsigned int], as a decidable predicate. *)
Definition u32 (z : Z) : Prop := 0 <= z < two32.
#[export] Instance u32_dec z : Decision (u32 z).
Proof. unfold u32. apply _. Defined.

Notation "a ^^ b" := (Z.lxor a b) (at level 40, left associativity) : snow_scope.
Open Scope snow_scope.

(** ** Bytes

    [char] buffers are lists of [Byte.byte].  [byte_val] reads a byte as
    an [unsigned char]; [schar_val] as a (signed) [char], the
    interpretation of plain [char] on the x86-64 System V ABI that the
    program is built for. *)

Abbreviation byte := Byte.byte.

#[export] Instance byte_eq_dec : EqDecision byte := Byte.byte_eq_dec.
#[export] Instance byte_inhabited : Inhabited byte := populate Byte.x00.

Definition byte_val (b : byte) : Z := Z.of_N (Byte.to_N b).

Definition schar_val (b : byte) : Z :=
  if byte_val b <? 128 then byte_val b else byte_val b - 256.

(** The byte whose [unsigned char] value is [z mod 256]. *)
Definition byte_of_Z (z : Z) : byte :=
  match Byte.of_N (Z.to_N (z mod 256)) with Some b => b | None => Byte.x00 end.

(** A 32-bit word stored little-endian, as the x86-64 target stores an
    [unsigned int], and its four bytes. *)
Definition le32 (b0 b1 b2 b3 : byte) : Z :=
  byte_val b0 + 256 * byte_val b1 + 65536 * byte_val b2 + 16777216 * byte_val b3.

Definition le32_bytes (z : Z) : list byte :=
  [byte_of_Z z; byte_of_Z (z / 256); byte_of_Z (z / 65536); byte_of_Z (z / 16777216)].

(** [memcmp(a, b, n) == 0]: the first [n] bytes agree. *)
Definition memeq (n : nat) (a b : list byte) : bool :=
  bool_decide (take n a = take n b).

(** ** A small error monad

    Reading outside the memory the program has mapped is a fault; a loop
    modelled with an iteration bound reports [OutOfFuel] when the bound
    is exceeded (the theorems show the bounds are never exceeded). *)

Inductive outcome (A : Type) : Type :=
  | Ret (a : A)
  | MemFault
  | OutOfFuel.
Arguments Ret {A} a.
Arguments MemFault {A}.
Arguments OutOfFuel {A}.

#[export] Instance outcome_ret : MRet outcome := @Ret.
#[export] Instance outcome_bind : MBind outcome := λ A B f m,
  match m with
  | Ret a => f a
  | MemFault => MemFault
  | OutOfFuel => OutOfFuel
  end.

(** ** Generic lemmas *)

Lemma wrap32_range z : u32 (wrap32 z).
Proof. unfold u32, wrap32, two32. apply Z.mod_pos_bound. lia. Qed.

Lemma wrap32_id z : u32 z -> wrap32 z = z.
Proof. unfold u32, wrap32. apply Z.mod_small. Qed.

Lemma int_of_u32_wrap z : u32 z -> wrap32 (int_of_u32 z) = z.
Proof.
  unfold u32, int_of_u32, wrap32, two32. intros Hz.
  destruct (Z.ltb_spec z (2 ^ 31)).
  - by apply Z.mod_small.
  - rewrite <- (Z.mod_add _ 1) by lia. rewrite Z.mod_small; lia.
Qed.

Lemma u32_pow2 z : u32 z <-> 0 <= z < 2 ^ 32.
Proof. reflexivity. Qed.

Lemma lxor_u32 a b : u32 a -> u32 b -> u32 (a ^^ b).
Proof.
  unfold u32, two32. intros [Ha0 Ha1] [Hb0 Hb1].
  assert (0 <= a ^^ b) by (apply Z.lxor_nonneg; lia).
  split; [done |].
  destruct (Z.eq_dec (a ^^ b) 0) as [-> | Hne]; [lia |].
  assert (0 < a ^^ b) by lia.
  apply Z.log2_lt_pow2; [done |].
  pose proof (Z.log2_lxor a b Ha0 Hb0).
  assert (Z.log2 a < 32).
  { destruct (Z.eq_dec a 0) as [-> | ?]; [simpl; lia | apply Z.log2_lt_pow2; lia]. }
  assert (Z.log2 b < 32).
  { destruct (Z.eq_dec b 0) as [-> | ?]; [simpl; lia | apply Z.log2_lt_pow2; lia]. }
  lia.
Qed.

Lemma lxor_cancel_l a b c : a ^^ b = a ^^ c -> b = c.
Proof.
  intros H. rewrite <- (Z.lxor_0_l b), <- (Z.lxor_0_l c), <- (Z.lxor_nilpotent a).
  by rewrite !Z.lxor_assoc, H.
Qed.

Lemma byte_val_range b : 0 <= byte_val b < 256.
Proof. unfold byte_val. pose proof (Byte.to_N_bounded b). lia. Qed.

(** [byte_of_Z] and [byte_val] are inverse on [0, 256). *)
Lemma byte_val_of_Z z : byte_val (byte_of_Z z) = z mod 256.
Proof.
  unfold byte_val, byte_of_Z.
  assert (0 <= z mod 256 < 256) by (apply Z.mod_pos_bound; lia).
  destruct (Byte.of_N (Z.to_N (z mod 256))) as [b|] eqn:E.
  - apply Byte.to_of_N in E. rewrite E. lia.
  - exfalso. pose proof (Byte.to_of_N_option_map (Z.to_N (z mod 256))) as Hm.
    rewrite E in Hm. simpl in Hm.
    destruct (N.leb_spec (Z.to_N (z mod 256)) 255); [discriminate | lia].
Qed.

Lemma byte_of_val b : byte_of_Z (byte_val b) = b.
Proof.
  unfold byte_of_Z, byte_val. pose proof (Byte.to_N_bounded b).
  rewrite Z.mod_small by lia. rewrite N2Z.id. by rewrite Byte.of_to_N.
Qed.

Lemma memeq_spec n a b : memeq n a b = true <-> take n a = take n b.
Proof. unfold memeq. apply bool_decide_eq_true. Qed.

Lemma memeq_comm n a b : memeq n a b = memeq n b a.
Proof. unfold memeq. apply bool_decide_ext. split; intros H; by rewrite H. Qed.

Lemma memeq_refl n a : memeq n a a = true.
Proof. by apply memeq_spec. Qed.

(** Loops written as [fold_left] over [seq]: extensionality and
    invariants. *)
Lemma fold_left_last {A B} (f : A -> B -> A) l x a : fold_left f (l ++ [x]) a = f (fold_left f l a) x.
Proof. by rewrite fold_left_app. Qed.

Lemma fold_left_ext_in {A B} (f g : A -> B -> A) (l : list B) (a : A) :
  (∀ x b, b ∈ l -> f x b = g x b) -> fold_left f l a = fold_left g l a.
Proof.
  revert a. induction l as [|b l IH]; intros a Hfg; simpl; [done |].
  rewrite Hfg by set_solver. apply IH. intros x b' Hb'. apply Hfg. set_solver.
Qed.

Lemma fold_left_invariant {A B} (P : A -> Prop) (f : A -> B -> A) (l : list B) (a : A) :
  P a -> (∀ x b, b ∈ l -> P x -> P (f x b)) -> P (fold_left f l a).
Proof.
  revert a. induction l as [|b l IH]; intros a Ha Hf; simpl; [done |].
  apply IH; [apply Hf; [set_solver | done] |].
  intros x b' Hb'. apply Hf. set_solver.
Qed.

(** Sums of integers over a list. *)
Definition zsum {A} (f : A -> Z) (l : list A) : Z := foldr (λ x acc, f x + acc) 0 l.

Lemma zsum_app {A} (f : A -> Z) l1 l2 : zsum f (l1 ++ l2) = zsum f l1 + zsum f l2.
Proof. induction l1; simpl; [done | unfold zsum in *; simpl; lia]. Qed.

Lemma zsum_seq_shift (f : nat -> Z) j m : zsum f (seq (S j) m) = zsum (λ i, f (S i)) (seq j m).
Proof. by rewrite <- seq_shift; unfold zsum; rewrite foldr_fmap. Qed.

Lemma zsum_ext {A} (f g : A -> Z) (l : list A) :
  (∀ x, x ∈ l -> f x = g x) -> zsum f l = zsum g l.
Proof.
  induction l as [|x l IH]; intros Hfg; [done |]. unfold zsum in *; simpl.
  rewrite Hfg, IH; [done | set_solver.. ].
Qed.

(** [zsum] respects pointwise equality of the summand, so that
    [setoid_rewrite] can rewrite under the binder of a sum. *)
#[export] Instance zsum_proper {A} : Proper (pointwise_relation A eq ==> eq ==> eq) (@zsum A).
Proof. intros f g Hfg l ? <-. apply zsum_ext. intros x _. apply Hfg. Qed.

(** A loop [acc = (acc + f i) mod 2^32] adds the sum of the [f i]. *)
Lemma fold_wrap_add (f : nat -> Z) (l : list nat) (a : Z) :
  u32 a -> fold_left (λ acc i, wrap32 (acc + f i)) l a = wrap32 (a + zsum f l).
Proof.
  revert a. induction l as [|i l IH]; intros a Ha; simpl.
  - rewrite Z.add_0_r. by rewrite wrap32_id.
  - rewrite IH by apply wrap32_range. unfold wrap32, zsum. simpl.
    rewrite Zplus_mod_idemp_l. f_equal. lia.
Qed.

(** Summing [g] from the top index down, as a C loop over [n - 1 - i]
    does, gives the sum over the last [m] indices. *)
Lemma zsum_rev_seq (g : nat -> Z) (n m : nat) :
  (m <= n)%nat ->
  zsum (λ i, g (n - 1 - i)%nat) (seq 0 m) = zsum (λ j, g (n - m + j)%nat) (seq 0 m).
Proof.
  revert n. induction m as [|m IH]; intros n Hm; [done |].
  rewrite <- cons_seq at 1. rewrite seq_S, zsum_app.
  change (zsum ?f (0%nat :: ?l)) with (f 0%nat + zsum f l).
  rewrite zsum_seq_shift.
  rewrite (zsum_ext _ (λ i, g (n - 1 - 1 - i)%nat)) by (intros; simpl; f_equal; lia).
  rewrite (IH (n - 1)%nat) by lia.
  rewrite (zsum_ext (λ j, g (n - 1 - m + j)%nat) (λ j, g (n - S m + j)%nat))
    by (intros; f_equal; lia).
  cbn [zsum foldr]. replace (n - 1 - 0)%nat with (n - S m + (0 + m))%nat by lia. lia.
Qed.

Lemma memeq_sym n a b : memeq n a b = memeq n b a.
Proof. unfold memeq. apply bool_decide_ext. split; auto. Qed.

Create HintDb snow discriminated.
Create Rewrite HintDb snow_rw.
#[export] Hint Resolve wrap32_range lxor_u32 byte_val_range memeq_refl : snow.
#[export] Hint Rewrite wrap32_id byte_val_of_Z using (auto with snow) : snow_rw.

(** [u32_solve] closes range goals on words: it unfolds [u32] and feeds
    [lia] the ranges of the [wrap32] and [byte_val] terms in sight. *)
Ltac u32_facts :=
  repeat match goal with
  | |- context [wrap32 ?z] =>
      lazymatch goal with
      | _ : u32 (wrap32 z) |- _ => fail
      | _ => pose proof (wrap32_range z)
      end
  | |- context [byte_val ?b] =>
      lazymatch goal with
      | _ : 0 <= byte_val b < 256 |- _ => fail
      | _ => pose proof (byte_val_range b)
      end
  end.
Ltac u32_solve := u32_facts; unfold u32, two32 in *; lia.

(** [lia] after turning the divisions and remainders by constants in
    sight into their Euclidean equations. *)
Ltac zlia := Z.div_mod_to_equations; lia.

(** Split an equation between tuples into equations of the components. *)
Ltac split_pairs := repeat match goal with |- (_, _) = (_, _) => f_equal end.

Lemma le32_range b0 b1 b2 b3 : u32 (le32 b0 b1 b2 b3).
Proof.
  unfold le32. pose proof (byte_val_range b0). pose proof (byte_val_range b1).
  pose proof (byte_val_range b2). pose proof (byte_val_range b3). u32_solve.
Qed.

Lemma le32_of_bytes z :
  u32 z -> match le32_bytes z with [b0; b1; b2; b3] => le32 b0 b1 b2 b3 | _ => 0 end = z.
Proof.
  unfold le32_bytes, le32, u32, two32. rewrite !byte_val_of_Z. intros Hz.
  replace 65536 with (256 * 256) by lia. replace 16777216 with (256 * 256 * 256) by lia.
  rewrite <- !Z.div_div by lia.
  pose proof (Z.div_mod z 256). pose proof (Z.div_mod (z / 256) 256).
  pose proof (Z.div_mod (z / 256 / 256) 256).
  pose proof (Z.mod_pos_bound z 256). pose proof (Z.mod_pos_bound (z / 256) 256).
  pose proof (Z.mod_pos_bound (z / 256 / 256) 256).
  pose proof (Z.mod_pos_bound (z / 256 / 256 / 256) 256).
  assert (z / 256 / 256 / 256 < 256) by (rewrite !Z.div_div by lia; apply Z.div_lt_upper_bound; lia).
  assert (0 <= z / 256 / 256 / 256) by (apply Z.div_pos; [apply Z.div_pos; [apply Z.div_pos|]|]; lia).
  rewrite (Z.mod_small (z / 256 / 256 / 256)) by lia. lia.
Qed.


(** Sums over lists, as the bookkeeping of counts uses them. *)
Lemma sum_list_with_insert {A} (f : A -> nat) (l : list A) k x y :
  l !! k = Some x -> (sum_list_with f (<[k := y]> l) + f x = sum_list_with f l + f y)%nat.
Proof.
  revert k. induction l as [|a l IH]; intros [|k] Hk; simplify_eq/=; [lia |].
  specialize (IH k Hk). lia.
Qed.

Lemma sum_list_with_seq_last (f : nat -> nat) m :
  sum_list_with f (seq 0 (S m)) = (sum_list_with f (seq 0 m) + f m)%nat.
Proof. rewrite seq_S, sum_list_with_app. cbn [sum_list_with]. rewrite Nat.add_0_l. lia. Qed.

Lemma sum_list_with_seq_const (f : nat -> nat) a m :
  (∀ i, i < m -> f i = a)%nat -> sum_list_with f (seq 0 m) = (m * a)%nat.
Proof.
  induction m as [|m IH]; intros Hf; [done |].
  rewrite sum_list_with_seq_last, IH, Hf; [lia | lia | intros i Hi; apply Hf; lia].
Qed.

Lemma sum_list_with_map {A B} (f : B -> nat) (g : A -> B) l :
  sum_list_with f (map g l) = sum_list_with (λ x, f (g x)) l.
Proof. induction l as [|a l IH]; simpl; lia. Qed.

Lemma lookup_total_map_seq `{!Inhabited A} (f : nat -> A) j n i :
  (i < n)%nat -> map f (seq j n) !!! i = f (j + i)%nat.
Proof.
  revert j i. induction n as [|n IH]; intros j [|i] Hi; simpl; try lia; [f_equal; lia |].
  rewrite IH by lia. f_equal. lia.
Qed.

Lemma sum_list_with_le {A} (f g : A -> nat) l :
  Forall (λ x, f x <= g x)%nat l -> (sum_list_with f l <= sum_list_with g l)%nat.
Proof. induction 1; simpl; lia. Qed.

Lemma sum_list_with_eq {A} (f g : A -> nat) l :
  Forall (λ x, f x = g x) l -> sum_list_with f l = sum_list_with g l.
Proof. induction 1; simpl; lia. Qed.

Lemma wrap32_add_wrap a b : wrap32 (wrap32 a + b) = wrap32 (a + b).
Proof. unfold wrap32. apply Zplus_mod_idemp_l. Qed.

(** Bit operations on 32-bit words stay 32-bit words. *)
Lemma wrap32_land_ones z : wrap32 z = Z.land z (Z.ones 32).
Proof. rewrite Z.land_ones by lia. reflexivity. Qed.

Lemma u32_wrap_iff z : u32 z <-> wrap32 z = z.
Proof.
  split; [apply wrap32_id |]. intros <-. apply wrap32_range.
Qed.

Lemma land_u32_r a b : u32 b -> u32 (Z.land a b).
Proof.
  rewrite !u32_wrap_iff, !wrap32_land_ones. intros Hb.
  by rewrite <- Z.land_assoc, Hb.
Qed.

Lemma lor_u32 a b : u32 a -> u32 b -> u32 (Z.lor a b).
Proof.
  rewrite !u32_wrap_iff, !wrap32_land_ones. intros Ha Hb.
  by rewrite Z.land_lor_distr_l, Ha, Hb.
Qed.

Lemma shiftr_u32 a n : u32 a -> 0 <= n -> u32 (Z.shiftr a n).
Proof.
  intros Ha Hn. rewrite Z.shiftr_div_pow2 by done.
  pose proof (Z.pow_pos_nonneg 2 n ltac:(lia) Hn). unfold u32, two32 in *.
  split; [apply Z.div_pos; lia |]. apply Z.le_lt_trans with a; [| lia].
  apply Z.div_le_upper_bound; nia.
Qed.

#[export] Hint Resolve land_u32_r lor_u32 shiftr_u32 : snow.

(** Lists of 32-bit words. *)
Lemma Forall_u32_insert (q : list Z) i v : Forall u32 q -> u32 v -> Forall u32 (<[i := v]> q).
Proof. intros Hq Hv. by apply Forall_insert. Qed.

Lemma Forall_u32_lookup (q : list Z) i : Forall u32 q -> u32 (q !!! i).
Proof.
  intros Hq. rewrite Forall_lookup in Hq. rewrite list_lookup_total_alt.
  destruct (q !! i) as [v|] eqn:Hv; simpl; [by apply (Hq i) | u32_solve].
Qed.

#[export] Hint Resolve Forall_u32_insert : snow.

(** Closes [u32] goals built from the bit operations of a C expression. *)
Ltac u32_bits :=
  repeat first [ apply lxor_u32 | apply lor_u32 | apply land_u32_r
               | apply shiftr_u32; [| lia] | apply wrap32_range | assumption | u32_solve ].
