(* ===== verification/Hash.v ===== *)
(** * Hash plug-ins and the registry that resolves them

    Models [resolveHashFunc] of the main source file (lines 126-164): the
    engine looks for [./hashlib<i>.so] for [i] in [0, MAX_HASHLIBS), and
    in each library that loads and exports [hashFuncArray] walks the
    entries up to the terminator, returning the first entry whose name
    matches.  The dynamic loader is the environment [libs]: [libs i] is
    [None] when [dlopen] or [dlsym] fails for library [i] (both make the
    loop [continue]) and [Some hf] with the entries before the terminator
    otherwise.

    The class [HashFunction] is the interface the engine's components
    (reduction, chains, lookup, exhaustive search) are written against:
    a digest function and its length.  [WfHash] states the plug-in
    contract of the spec (section 6): the function writes exactly
    [hash_len] bytes and [hash_len <= MAX_HASH_SIZE]. *)

From stdpp Require Import base list option sets strings.
From S2P Require Import Prelude.

(** [hashFuncPtr]: a function from a seed and a scratch buffer to the
    digest it writes there; the digest of a 32-bit seed. *)
Definition hashFuncPtr := Z -> list byte.

(** [hashFuncEntry]: one named hash function of a plug-in. *)
Record hashFuncEntry := mkEntry {
  hashName : string;
  hashFunc : hashFuncPtr;
  hashLen : nat
}.

Definition MAX_HASHLIBS : nat := 10.
Definition MAX_HASH_SIZE : nat := 64.

Class HashFunction := {
  hash : hashFuncPtr;
  hash_len : nat
}.

Class WfHash `{HashFunction} : Prop := {
  hash_length s : length (hash s) = hash_len :> nat;
  hash_len_max : (hash_len <= MAX_HASH_SIZE)%nat
}.

(** The instance given by a registry entry. *)
Definition entry_hash (e : hashFuncEntry) : HashFunction :=
  {| hash := hashFunc e; hash_len := hashLen e |}.

Section Registry.

(** [libs i]: the entries exported by [./hashlib<i>.so], if it loads. *)
Variable libs : nat -> option (list hashFuncEntry).

(** The inner [while (hf->hashName != NULL)] loop. *)
Fixpoint scan_entries (hf : list hashFuncEntry) (name : string)
    : option hashFuncEntry :=
  match hf with
  | [] => None
  | e :: hf' => if decide (hashName e = name) then Some e else scan_entries hf' name
  end.

(** The outer [for (i = 0; i < MAX_HASHLIBS; i ++)] loop from library
    [i], with [k] libraries left to try. *)
Fixpoint scan_libs (i k : nat) (name : string) : option (hashFuncPtr * nat) :=
  match k with
  | O => None
  | S k' =>
      match libs i with
      | None => scan_libs (S i) k' name
      | Some hf =>
          match scan_entries hf name with
          | Some e => Some (hashFunc e, hashLen e)
          | None => scan_libs (S i) k' name
          end
      end
  end.

Definition resolveHashFunc (name : string) : option (hashFuncPtr * nat) :=
  scan_libs 0 MAX_HASHLIBS name.

(** The abstract registry: every entry of every loaded library, in
    discovery order. *)
Definition registry_entries : list hashFuncEntry :=
  concat (map (λ i, default [] (libs i)) (seq 0 MAX_HASHLIBS)).

Definition entry_result (e : hashFuncEntry) : hashFuncPtr * nat :=
  (hashFunc e, hashLen e).

Lemma scan_entries_head hf name :
  scan_entries hf name = head (filter (λ e, hashName e = name) hf).
Proof.
  induction hf as [|e hf IH]; [done |]. simpl.
  rewrite filter_cons. case_decide; simpl; [done | apply IH].
Qed.

Lemma scan_libs_head i k name :
  scan_libs i k name =
    entry_result <$> head (filter (λ e, hashName e = name)
                            (concat (map (λ j, default [] (libs j)) (seq i k)))).
Proof.
  revert i. induction k as [|k IH]; intros i; [done |].
  cbn [seq map concat scan_libs]. rewrite filter_app.
  destruct (libs i) as [hf|]; simpl; [| apply IH].
  rewrite scan_entries_head.
  destruct (filter _ hf) as [|e l]; simpl; [apply IH | done].
Qed.

End Registry.

Section RegistryTheorems.

Variable libs : nat -> option (list hashFuncEntry).

(** C34: resolution follows discovery order.
    Resolving a name returns the first entry with that name among the
    entries of the libraries that load, in library order and, within a
    library, in array order; it returns [NULL] when there is none. *)
Theorem resolveHashFunc_first name :
  resolveHashFunc libs name =
    entry_result <$> head (filter (λ e, hashName e = name) (registry_entries libs)).
Proof. apply scan_libs_head. Qed.

(** an unknown name resolves to [NULL].
    [resolveHashFunc] fails exactly when no loaded library exports an
    entry of that name (the [UnknownHash] error of the spec). *)
Theorem resolveHashFunc_unknown name :
  resolveHashFunc libs name = None <-> name ∉ hashName <$> registry_entries libs.
Proof.
  unfold resolveHashFunc. rewrite scan_libs_head, fmap_None. fold (registry_entries libs).
  split.
  - intros Hh Hin. apply list_elem_of_fmap in Hin as (e & -> & He).
    destruct (filter _ _) as [|e' l] eqn:Hf; [| discriminate].
    assert (e ∈ filter (λ e', hashName e' = hashName e) (registry_entries libs)).
    { by apply list_elem_of_filter. }
    rewrite Hf in H. set_solver.
  - intros Hn. destruct (filter _ _) as [|e l] eqn:Hf; [done |].
    exfalso. apply Hn.
    assert (e ∈ filter (λ e', hashName e' = name) (registry_entries libs)) as He
      by (rewrite Hf; set_solver).
    apply list_elem_of_filter in He as [<- He].
    by apply list_elem_of_fmap_2.
Qed.

End RegistryTheorems.

(** A digest used to exercise the engine on small inputs: the seed's own
    four bytes, little-endian. *)
Definition seed_hash : HashFunction := {| hash := le32_bytes; hash_len := 4 |}.
