(* ===== verification/Reduce.v ===== *)
(** * The reduction function

    Models [reduce] of the main source file (lines 88-104): the digest is
    folded into a 32-bit seed by XOR-ing its [hashLen / 4] leading words
    (read as [unsigned int] through a cast pointer: little-endian on the
    x86-64 target), then adding its [hashLen mod 4] trailing bytes, last
    byte first, each read through the [char *] (signed [char] on the
    target) and converted to [unsigned int]; the result is XOR-ed with the
    round number. *)

From stdpp Require Import base list option.
From S2P Require Import Prelude.

(** [sizeof(chainEntry)]. *)
Definition ENTRY_SIZE : nat := 4.

(** [hash[k]] as an [unsigned char]; a read past the digest yields 0. *)
Definition byte_at (hash : list byte) (k : nat) : Z := byte_val (hash !!! k).

(** [hashInt[k]]: the [k]-th 32-bit word of the digest, little-endian. *)
Definition hash_word (hash : list byte) (k : nat) : Z :=
  le32 (hash !!! (4 * k)%nat) (hash !!! (4 * k + 1)%nat)
       (hash !!! (4 * k + 2)%nat) (hash !!! (4 * k + 3)%nat).

(** [(chainEntry) hash[k]] for [char *hash]: sign extension, then
    conversion to [unsigned int]. *)
Definition char_to_u32 (hash : list byte) (k : nat) : Z :=
  wrap32 (schar_val (hash !!! k)).

(** The first loop: [for (i = 0; i < hashLen / sizeof(chainEntry); ...)
    reduced ^= *hashInt]. *)
Definition xor_words (hash : list byte) (hashLen : nat) (acc : Z) : Z :=
  fold_left (λ acc i, acc ^^ hash_word hash i) (seq 0 (hashLen / ENTRY_SIZE)) acc.

(** The second loop: [for (i = 0; i < hashLen % sizeof(chainEntry); i++)
    reduced += (chainEntry) hash[hashLen - 1 - i]]. *)
Definition add_tail (hash : list byte) (hashLen : nat) (acc : Z) : Z :=
  fold_left (λ acc i, wrap32 (acc + char_to_u32 hash (hashLen - 1 - i)))
    (seq 0 (hashLen mod ENTRY_SIZE)) acc.

Definition reduce (hash : list byte) (hashLen : nat) (round : Z) : Z :=
  add_tail hash hashLen (xor_words hash hashLen 0) ^^ wrap32 round.

(** The reduction as section 4.C of the spec describes it, stated from
    the spec alone: the digest's [hashLen / 4] leading 4-byte groups,
    each read little-endian as [Σ 2^(8j) * byte j], are XOR-folded;
    the [hashLen mod 4] trailing bytes are added as unsigned bytes
    (modulo 2^32, the seed width); the round is XOR-ed in. *)
Definition spec_word (w : list byte) : Z :=
  zsum (λ j, 2 ^ (8 * Z.of_nat j) * byte_val (w !!! j)) (seq 0 4).

Definition spec_words (hash : list byte) (hashLen : nat) : list Z :=
  map (λ k, spec_word (take 4 (drop (4 * k) hash))) (seq 0 (hashLen / 4)).

Definition spec_fold (hash : list byte) (hashLen : nat) : Z :=
  foldr Z.lxor 0 (spec_words hash hashLen).

Definition spec_tail (hash : list byte) (hashLen : nat) : list byte :=
  take (hashLen mod 4) (drop (hashLen - hashLen mod 4) hash).

Definition reduce_spec (hash : list byte) (hashLen : nat) (round : Z) : Z :=
  wrap32 (spec_fold hash hashLen + zsum byte_val (spec_tail hash hashLen)) ^^ wrap32 round.

(** ** Lemmas *)

Lemma hash_word_u32 hash k : u32 (hash_word hash k).
Proof. apply le32_range. Qed.

Lemma char_to_u32_u32 hash k : u32 (char_to_u32 hash k).
Proof. apply wrap32_range. Qed.

#[export] Hint Resolve hash_word_u32 char_to_u32_u32 : snow.

Lemma xor_words_u32 hash n acc : u32 acc -> u32 (xor_words hash n acc).
Proof. intros. unfold xor_words, add_tail. apply fold_left_invariant; auto with snow. Qed.

Lemma add_tail_u32 hash n acc : u32 acc -> u32 (add_tail hash n acc).
Proof. intros. unfold xor_words, add_tail. apply fold_left_invariant; auto with snow. Qed.

Lemma reduce_round hash n r : reduce hash n r = reduce hash n 0 ^^ wrap32 r.
Proof. unfold reduce. rewrite (wrap32_id 0) by u32_solve. by rewrite Z.lxor_0_r. Qed.

(** The reduction reads the digest only below [hashLen]. *)
Lemma xor_words_ext h1 h2 n acc :
  (∀ k, (k < n)%nat -> h1 !!! k = h2 !!! k) -> xor_words h1 n acc = xor_words h2 n acc.
Proof.
  intros Hext. unfold xor_words, hash_word.
  assert (4 * (n / ENTRY_SIZE) <= n)%nat
    by (unfold ENTRY_SIZE; pose proof (Nat.Div0.mul_div_le n 4); lia).
  apply fold_left_ext_in. intros x i Hi%elem_of_seq. rewrite !Hext; [done | lia..].
Qed.

Lemma add_tail_ext h1 h2 n acc :
  (∀ k, (k < n)%nat -> h1 !!! k = h2 !!! k) -> add_tail h1 n acc = add_tail h2 n acc.
Proof.
  intros Hext. unfold add_tail, char_to_u32.
  assert (n mod ENTRY_SIZE <= n)%nat by apply Nat.Div0.mod_le.
  apply fold_left_ext_in. intros x i Hi%elem_of_seq. rewrite Hext; [done | lia].
Qed.

Lemma reduce_ext h1 h2 n r :
  (∀ k, (k < n)%nat -> h1 !!! k = h2 !!! k) -> reduce h1 n r = reduce h2 n r.
Proof.
  intros Hext. unfold reduce.
  by rewrite (xor_words_ext h1 h2), (add_tail_ext h1 h2).
Qed.

Lemma char_to_u32_small hash k : byte_at hash k < 128 -> char_to_u32 hash k = byte_at hash k.
Proof.
  unfold char_to_u32, byte_at, schar_val. intros Hlt.
  rewrite (proj2 (Z.ltb_lt _ _) Hlt). apply wrap32_id. u32_solve.
Qed.

(** A sum over the bytes [hash[s..s+m)] read by index, reads past the
    digest giving the byte 0, is the sum over that window of the list. *)
Lemma zsum_window (f : byte -> Z) hash s m :
  f Byte.x00 = 0 ->
  zsum (λ j, f (hash !!! (s + j)%nat)) (seq 0 m) = zsum f (take m (drop s hash)).
Proof.
  intros Hf0. setoid_rewrite <- lookup_total_drop. generalize (drop s hash) as t.
  induction m as [|m IH]; intros t; [done |].
  change (seq 0 (S m)) with (0%nat :: seq 1 m).
  change (zsum ?g (0%nat :: ?l)) with (g 0%nat + zsum g l).
  rewrite zsum_seq_shift. destruct t as [|b t].
  - rewrite take_nil.
    rewrite (zsum_ext _ (λ _, 0)) by (intros; by rewrite lookup_total_nil).
    rewrite lookup_total_nil. change (f inhabitant) with (f Byte.x00). rewrite Hf0.
    unfold zsum. clear IH. induction (seq 0 m); simpl; [done|]. simpl in IHl. lia.
  - cbn [take]. change (zsum f (b :: take m t)) with (f b + zsum f (take m t)).
    change ((b :: t) !!! 0%nat) with b. f_equal.
    rewrite <- (IH t). apply zsum_ext. intros j _. reflexivity.
Qed.

(** Wrapping the terms of a sum does not change it modulo [2^32]. *)
Lemma wrap32_zsum {A} (f : A -> Z) l a :
  wrap32 (a + zsum (λ x, wrap32 (f x)) l) = wrap32 (a + zsum f l).
Proof.
  assert (Hm : ∀ l : list A, zsum (λ x, wrap32 (f x)) l mod 2 ^ 32 = zsum f l mod 2 ^ 32).
  { induction l0 as [|x l0 IH]; [done |]. unfold zsum in *; simpl.
    rewrite Z.add_mod, IH, <- Z.add_mod by lia. unfold wrap32, two32.
    by rewrite Z.add_mod_idemp_l by lia. }
  unfold wrap32, two32 in *. by rewrite <- Z.add_mod_idemp_r, Hm, Z.add_mod_idemp_r by lia.
Qed.

(** The trailing-byte loop adds the trailing bytes as signed [char]s. *)
Lemma add_tail_schar hash n acc :
  u32 acc -> add_tail hash n acc = wrap32 (acc + zsum schar_val (spec_tail hash n)).
Proof.
  intros Hacc. unfold add_tail. rewrite fold_wrap_add by done.
  unfold char_to_u32. rewrite (wrap32_zsum (λ i, schar_val (hash !!! (n - 1 - i)%nat))).
  assert (Hm : (n mod ENTRY_SIZE <= n)%nat) by apply Nat.Div0.mod_le.
  rewrite (zsum_rev_seq (λ k, schar_val (hash !!! k))) by done.
  by rewrite zsum_window.
Qed.

(** A 4-byte group read by the spec is the code's [hashInt[k]]. *)
Lemma spec_word_hash_word hash k : spec_word (take 4 (drop (4 * k) hash)) = hash_word hash k.
Proof.
  unfold spec_word, hash_word, le32. cbn [seq zsum foldr].
  rewrite !lookup_total_take_lt by lia. rewrite !lookup_total_drop.
  rewrite !Nat.add_0_r. cbn. lia.
Qed.

(** The code's XOR loop is the spec's fold of the words. *)
Lemma xor_words_spec hash n : xor_words hash n 0 = spec_fold hash n.
Proof.
  unfold xor_words, spec_fold, spec_words, ENTRY_SIZE.
  assert (Hgen : ∀ l acc, fold_left (λ acc i, acc ^^ hash_word hash i) l acc =
    acc ^^ foldr Z.lxor 0 (map (λ k, spec_word (take 4 (drop (4 * k) hash))) l)).
  { induction l as [|i l IH]; intros acc; cbn [fold_left foldr map]; [by rewrite Z.lxor_0_r |].
    by rewrite IH, spec_word_hash_word, Z.lxor_assoc. }
  by rewrite Hgen, Z.lxor_0_l.
Qed.

(** The code's reduction, in the spec's terms: the signed trailing bytes
    are the only difference. *)
Lemma reduce_schar hash n r :
  reduce hash n r = wrap32 (spec_fold hash n + zsum schar_val (spec_tail hash n)) ^^ wrap32 r.
Proof.
  unfold reduce. rewrite add_tail_schar by (apply xor_words_u32; u32_solve).
  by rewrite xor_words_spec.
Qed.

(** ** Theorems *)

(** the reduction is a 32-bit value.
    Whatever the digest and the round, [reduce] returns a value of
    [unsigned int] range: the XOR-fold and the wrapped additions never
    leave 32 bits. *)
Theorem reduce_u32 hash n r : u32 (reduce hash n r).
Proof.
  unfold reduce. apply lxor_u32; [| apply wrap32_range].
  apply add_tail_u32, xor_words_u32. u32_solve.
Qed.

(** the round salts the reduction.
    Two different rounds ([unsigned int] values) never reduce the same
    digest to the same seed: the final [^ round] makes the reduction at
    each chain position a different function of the digest. *)
Theorem reduce_round_inj hash n r1 r2 :
  u32 r1 -> u32 r2 -> r1 <> r2 -> reduce hash n r1 <> reduce hash n r2.
Proof.
  intros H1 H2 Hne Heq. apply Hne.
  rewrite (reduce_round hash n r1), (reduce_round hash n r2), !wrap32_id in Heq by done.
  by apply lxor_cancel_l in Heq.
Qed.

(** only the first [hashLen] bytes of the buffer matter.
    The scratch buffer a hash function writes its digest into is larger
    than the digest; [reduce] gives the same seed whatever the buffer
    holds after the first [hashLen] bytes. *)
Theorem reduce_prefix hash junk n r :
  (n <= length hash)%nat -> reduce (take n hash ++ junk) n r = reduce hash n r.
Proof.
  intros Hn. apply reduce_ext. intros k Hk.
  rewrite lookup_total_app_l by (rewrite length_take; lia).
  by rewrite lookup_total_take_lt.
Qed.

(** C28: the reduction refines the spec's formula on small trailing bytes.
    When every trailing byte (the [hashLen mod 4] bytes after the last
    whole word) is below 0x80, the code computes the reduction of the
    spec (section 4.C), stated independently of the code: XOR of the
    little-endian words, plus the trailing bytes as unsigned values,
    XOR the round. *)
Theorem reduce_refines_spec hash n r :
  (∀ k, (n - n mod ENTRY_SIZE <= k < n)%nat -> byte_at hash k < 128) ->
  reduce hash n r = reduce_spec hash n r.
Proof.
  intros Hsmall. rewrite reduce_schar. unfold reduce_spec. do 3 f_equal.
  apply zsum_ext. intros b Hb. unfold schar_val.
  enough (byte_val b < 128) by (by rewrite (proj2 (Z.ltb_lt _ _))).
  unfold spec_tail in Hb. apply list_elem_of_lookup_1 in Hb as [i Hi].
  rewrite lookup_take_Some, lookup_drop in Hi. destruct Hi as [Hi Hlt].
  assert (Hk := Hsmall (n - n mod 4 + i)%nat). unfold byte_at, ENTRY_SIZE in Hk.
  rewrite list_lookup_total_alt, Hi in Hk. apply Hk.
  pose proof (Nat.Div0.mod_le n 4). lia.
Qed.

(** the worked example of the spec.
    [reduce([0x01,0x02,0x03,0x04,0x05], 5, 0)] is the word [0x04030201]
    plus the trailing byte [0x05], that is [0x04030206] (spec, section 8). *)
Example reduce_scenario : reduce (map byte_of_Z [1; 2; 3; 4; 5]) 5 0 = 0x04030206.
Proof. vm_compute. reflexivity. Qed.

(** C32: trailing bytes of 0x80 or more are sign-extended.
    For every digest, [hashLen] and round, [reduce] computes the spec's
    formula except that each trailing byte of 0x80 or more, read through
    a signed [char], counts 256 less (modulo 2^32): the byte [0x80] adds
    [0xFFFFFF80] where the spec adds [0x80]. *)
Theorem reduce_signed_tail hash n r :
  reduce hash n r =
    wrap32 (spec_fold hash n + zsum byte_val (spec_tail hash n)
            - 256 * Z.of_nat (length (filter (λ b, 128 <= byte_val b) (spec_tail hash n))))
    ^^ wrap32 r.
Proof.
  rewrite reduce_schar. do 2 f_equal.
  enough (zsum schar_val (spec_tail hash n) =
          zsum byte_val (spec_tail hash n) - 256 * Z.of_nat (length (filter (λ b, 128 <= byte_val b) (spec_tail hash n))))
    by lia.
  induction (spec_tail hash n) as [|b t IH]; [done |].
  rewrite filter_cons.
  change (zsum ?f (b :: t)) with (f b + zsum f t). rewrite IH.
  unfold schar_val. destruct (Z.ltb_spec (byte_val b) 128); case_decide; cbn [length]; lia.
Qed.

(** ** Witnesses *)

Lemma reduce_round_inj_witness :
  reduce (map byte_of_Z [1; 2; 3; 4; 5]) 5 0 <> reduce (map byte_of_Z [1; 2; 3; 4; 5]) 5 1.
Proof. apply reduce_round_inj; unfold u32, two32; lia. Defined.

Lemma reduce_prefix_witness :
  reduce (take 4 (map byte_of_Z [1; 2; 3; 4]) ++ [byte_of_Z 9]) 4 7
  = reduce (map byte_of_Z [1; 2; 3; 4]) 4 7.
Proof. apply reduce_prefix. simpl. lia. Defined.

Lemma reduce_refines_spec_witness :
  reduce (map byte_of_Z [1; 2; 3; 4; 5]) 5 0 = reduce_spec (map byte_of_Z [1; 2; 3; 4; 5]) 5 0.
Proof.
  apply reduce_refines_spec. intros k Hk.
  assert (k = 4%nat) as -> by (vm_compute in Hk; lia). vm_compute. reflexivity.
Defined.
