(* ===== verification/Table.v ===== *)
(** * The table store: chain records, their bytes on disk, the mapped table

    A rainbow table is an array of [chain] records (main source, lines
    56-59).  Generation writes the records with [fwrite] (line 213); the
    sorter and the lookup [mmap] the file and read it as a [chain *]
    (lines 343 and 543).  This file models the record, its 8-byte
    layout (4 bytes [startpoint], then 4 bytes [endpoint], little-endian
    on the x86-64 target, no padding), the reinterpretation of the file's
    bytes as records, and the memory a mapping exposes: the records of
    the file, then zeros up to the end of the last page, then nothing (a
    read there faults).  It also holds the order on records by endpoint
    that the sorter establishes and the lookup relies on. *)

From stdpp Require Import base list option sorting.
From S2P Require Import Prelude.

(** [typedef struct { chainEntry startpoint; chainEntry endpoint; } chain]. *)
Record chain := mkChain { startpoint : Z; endpoint : Z }.

#[export] Instance chain_eq_dec : EqDecision chain.
Proof. solve_decision. Defined.
#[export] Instance chain_inhabited : Inhabited chain := populate (mkChain 0 0).

Definition chain_wf (c : chain) : Prop := u32 (startpoint c) ∧ u32 (endpoint c).

(** [sizeof(chain)] and the page size of the target. *)
Definition CHAIN_SIZE : nat := 8.
Definition PAGE_SIZE : nat := 4096.

(** The bytes [fwrite(buffer, sizeof(chain), n, fp)] writes for a record
    and for a run of records. *)
Definition chain_bytes (c : chain) : list byte :=
  le32_bytes (startpoint c) ++ le32_bytes (endpoint c).

Definition table_bytes (t : list chain) : list byte := t ≫= chain_bytes.

(** The file's bytes read through [(chain * ) mmap(...)]. *)
Fixpoint table_of_bytes (bs : list byte) : list chain :=
  match bs with
  | b0 :: b1 :: b2 :: b3 :: b4 :: b5 :: b6 :: b7 :: rest =>
      mkChain (le32 b0 b1 b2 b3) (le32 b4 b5 b6 b7) :: table_of_bytes rest
  | _ => []
  end.

(** The number of records a mapping of a file of [n] records spans: the
    file rounded up to whole pages. *)
Definition mapped_records (n : nat) : nat :=
  (CHAIN_SIZE * n + PAGE_SIZE - 1) / PAGE_SIZE * PAGE_SIZE / CHAIN_SIZE.

(** [table[idx]] on a mapped table file holding [table]. *)
Definition mm_read (table : list chain) (idx : Z) : outcome chain :=
  if decide (0 <= idx < Z.of_nat (length table)) then Ret (table !!! Z.to_nat idx)
  else if decide (0 <= idx < Z.of_nat (mapped_records (length table))) then Ret (mkChain 0 0)
  else MemFault.

(** Records ordered by endpoint, the order [quickSortTable] establishes. *)
Definition end_le (a b : chain) : Prop := endpoint a <= endpoint b.

#[export] Instance end_le_dec a b : Decision (end_le a b).
Proof. unfold end_le. apply _. Defined.
#[export] Instance end_le_trans : Transitive end_le.
Proof. unfold end_le. intros ???; lia. Qed.

Definition sorted_by_end (t : list chain) : Prop := StronglySorted end_le t.

(** The invariant of section 3 of the spec, as stated there:
    [table[i].end <= table[i+1].end]. *)
Definition table_sorted (t : list chain) : Prop :=
  ∀ i : nat, (S i < length t)%nat -> endpoint (t !!! i) <= endpoint (t !!! S i).

(** ** Lemmas *)

Lemma mm_read_in table idx :
  0 <= idx < Z.of_nat (length table) -> mm_read table idx = Ret (table !!! Z.to_nat idx).
Proof. intros H. unfold mm_read. by rewrite decide_True. Qed.

Lemma mapped_records_ge n : (n <= mapped_records n)%nat.
Proof.
  unfold mapped_records, CHAIN_SIZE, PAGE_SIZE.
  pose proof (Nat.Div0.div_mod (8 * n + 4096 - 1) 4096).
  pose proof (Nat.mod_upper_bound (8 * n + 4096 - 1) 4096).
  apply Nat.div_le_lower_bound; lia.
Qed.

(** A read through the mapping either faults or happens inside it. *)
Lemma mm_read_cases table idx :
  (mm_read table idx = MemFault ∧ ¬ (0 <= idx < Z.of_nat (mapped_records (length table)))) ∨
  (∃ c, mm_read table idx = Ret c) ∧ 0 <= idx < Z.of_nat (mapped_records (length table)).
Proof.
  pose proof (mapped_records_ge (length table)). unfold mm_read.
  repeat case_decide; [right; split; [eauto | lia] .. | left; split; [done | lia]].
Qed.

Lemma StronglySorted_lookup {A} (R : relation A) (l : list A) i j x y :
  StronglySorted R l -> (i < j)%nat -> l !! i = Some x -> l !! j = Some y -> R x y.
Proof.
  intros Hs. revert i j. induction Hs as [|a l Hs IH Hall]; intros i j Hij Hi Hj; [done |].
  destruct i as [|i], j as [|j]; simpl in *; try lia.
  - simplify_eq. rewrite Forall_forall in Hall. apply Hall. by eapply list_elem_of_lookup_2.
  - apply (IH i j); [lia | done | done].
Qed.

Lemma sorted_by_end_lookup t i j :
  sorted_by_end t -> (i <= j < length t)%nat -> endpoint (t !!! i) <= endpoint (t !!! j).
Proof.
  intros Hs Hij. destruct (decide (i = j)) as [->|]; [lia |].
  destruct (lookup_lt_is_Some_2 t i) as [x Hx]; [lia |].
  destruct (lookup_lt_is_Some_2 t j) as [y Hy]; [lia |].
  rewrite (list_lookup_total_alt t i), (list_lookup_total_alt t j), Hx, Hy. simpl.
  eapply (StronglySorted_lookup end_le t i j); eauto. lia.
Qed.

Lemma chain_bytes_length c : length (chain_bytes c) = CHAIN_SIZE.
Proof. done. Qed.

Lemma table_of_bytes_bytes t : Forall chain_wf t -> table_of_bytes (table_bytes t) = t.
Proof.
  induction 1 as [|[s e] t [Hs He] _ IH]; [done |].
  unfold table_bytes in *. cbn [mbind list_bind]. fold (t ≫= chain_bytes). simpl in *.
  pose proof (le32_of_bytes s Hs) as E1. pose proof (le32_of_bytes e He) as E2.
  unfold le32_bytes in *. simpl. by rewrite E1, E2, IH.
Qed.

(** ** Theorems *)

(** the table file has eight bytes per chain.
    [fwrite] of [n] records writes [8 * n] bytes: the invariant
    [file_size == chain_num * 8] of the spec. *)
Theorem table_bytes_length t : length (table_bytes t) = (CHAIN_SIZE * length t)%nat.
Proof.
  induction t as [|c t IH]; [done |].
  unfold table_bytes in *. cbn [mbind list_bind]. rewrite length_app. fold (t ≫= chain_bytes). rewrite IH. simpl. lia.
Qed.

(** reading back a written table gives the table.
    The records a table file holds, read back through the mapping, are
    the records that were written, as long as their fields are 32-bit
    values. *)
Theorem table_roundtrip t : Forall chain_wf t -> table_of_bytes (table_bytes t) = t.
Proof. apply table_of_bytes_bytes. Qed.

(** ** Witnesses *)

Lemma table_roundtrip_witness :
  table_of_bytes (table_bytes [mkChain 7 0xDEADBEEF; mkChain 0 1]) = [mkChain 7 0xDEADBEEF; mkChain 0 1].
Proof. apply table_roundtrip. repeat constructor; unfold u32, two32; simpl; lia. Defined.
