(* ===== verification/Chain.v ===== *)
(** * Chains: walking, generating and regenerating

    Models [generateChain] (main source, lines 173-189) and
    [regenerateChain] (lines 427-445).  A chain starts at a seed drawn
    from the random source and alternates the hash function and the
    reduction of round [i] for [i] in [0, chainLen); its record keeps the
    start and the seed reached at the end.  [regenerateChain] walks a
    chain again from its start and, before each reduction, compares the
    digest with the target; it returns the first seed whose digest
    matches, and fails on a false positive.

    [RandSource] is the interface between the generator and the
    generator of start points ([rand_cmwc_r] of rand.c): one 32-bit value
    and the next state per call. *)

From stdpp Require Import base list option.
From S2P Require Import Prelude Hash Reduce Table.

Class RandSource (St : Type) := rand_next : St -> Z * St.

Section Chains.
Context `{HashFunction}.

(** [for (; i < chainLen; i ++) tmp = reduce(hash(tmp, buf), hashLen, i)],
    from round [i] with [n] rounds left. *)
Fixpoint walk (i n : nat) (tmp : Z) : Z :=
  match n with
  | O => tmp
  | S n' => walk (S i) n' (reduce (hash tmp) hash_len (Z.of_nat i))
  end.

(** The seed at position [p] of the chain that starts at [start]. *)
Definition chain_seed (start : Z) (p : nat) : Z := walk 0 p start.

Definition generateChain {St} `{RandSource St} (chainLen : nat) (st : St) : chain * St :=
  let (start, st') := rand_next st in
  (mkChain start (walk 0 chainLen start), st').

(** The loop of [regenerateChain] from round [i] with [n] rounds left. *)
Fixpoint regen_loop (targetHash : list byte) (i n : nat) (tmp : Z) : option Z :=
  match n with
  | O => None
  | S n' =>
      if memeq hash_len (hash tmp) targetHash then Some tmp
      else regen_loop targetHash (S i) n' (reduce (hash tmp) hash_len (Z.of_nat i))
  end.

Definition regenerateChain (startpoint : Z) (chainLen : nat) (targetHash : list byte)
    : option Z :=
  regen_loop targetHash 0 chainLen startpoint.

(** ** Lemmas *)

Lemma walk_u32 i n s : u32 s -> u32 (walk i n s).
Proof. revert i s. induction n as [|n IH]; intros i s Hs; [done |]. apply IH, reduce_u32. Qed.

Lemma walk_add i a b s : walk i (a + b) s = walk (i + a) b (walk i a s).
Proof.
  revert i s. induction a as [|a IH]; intros i s; simpl.
  - by rewrite Nat.add_0_r.
  - rewrite IH. f_equal. lia.
Qed.

Lemma walk_snoc i n s :
  walk i (S n) s = reduce (hash (walk i n s)) hash_len (Z.of_nat (i + n)).
Proof. by rewrite <- Nat.add_1_r, walk_add. Qed.

Lemma chain_seed_S s p :
  chain_seed s (S p) = reduce (hash (chain_seed s p)) hash_len (Z.of_nat p).
Proof. apply walk_snoc. Qed.

(** Digests that agree on their first [hash_len] bytes reduce alike. *)
Lemma reduce_memeq a b r :
  memeq hash_len a b = true -> reduce a hash_len r = reduce b hash_len r.
Proof.
  intros Heq%memeq_spec. apply reduce_ext. intros k Hk.
  by rewrite <- (lookup_total_take_lt a hash_len), Heq, lookup_total_take_lt.
Qed.

Lemma regen_loop_shift t i n s :
  regen_loop t i n (walk 0 i s) = None <->
  ∀ p, (i <= p < i + n)%nat -> memeq hash_len (hash (walk 0 p s)) t = false.
Proof.
  revert i. induction n as [|n IH]; intros i; simpl.
  - split; [intros _ p Hp; lia | done].
  - destruct (memeq _ _ _) eqn:Hm.
    + split; [discriminate |]. intros Hall. rewrite Hall in Hm; [discriminate | lia].
    + rewrite <- walk_snoc. rewrite IH. split.
      * intros Hall p Hp. destruct (decide (p = i)) as [->|]; [done |]. apply Hall. lia.
      * intros Hall p Hp. apply Hall. lia.
Qed.

Lemma regen_loop_some t i n s x :
  regen_loop t i n (walk 0 i s) = Some x ->
  memeq hash_len (hash x) t = true ∧
  ∃ p, (i <= p < i + n)%nat ∧ x = walk 0 p s ∧
       ∀ q, (i <= q < p)%nat -> memeq hash_len (hash (walk 0 q s)) t = false.
Proof.
  revert i. induction n as [|n IH]; intros i; simpl; [discriminate |].
  destruct (memeq hash_len (hash (walk 0 i s)) t) eqn:Hm.
  - intros Hx. injection Hx as <-.
    split; [done |]. exists i. split; [lia |]. split; [done |]. intros; lia.
  - rewrite <- walk_snoc. intros (Hx & p & Hp & -> & Hq)%IH.
    split; [done |]. exists p. split; [lia |]. split; [done |].
    intros q Hq'. destruct (decide (q = i)) as [->|]; [done |]. apply Hq. lia.
Qed.

(** ** Theorems *)

(** C6: a regenerated seed hashes to the target and lies on the chain.
    When [regenerateChain] returns a seed, that seed's digest equals the
    target on its first [hashLen] bytes, and it is the seed at the first
    position [p < chainLen] of the chain whose digest does. *)
Theorem regenerateChain_found s L t x :
  regenerateChain s L t = Some x ->
  memeq hash_len (hash x) t = true ∧
  ∃ p, (p < L)%nat ∧ x = chain_seed s p ∧
       ∀ q, (q < p)%nat -> memeq hash_len (hash (chain_seed s q)) t = false.
Proof.
  intros Hr. apply (regen_loop_some t 0 L s x) in Hr as (Hx & p & Hp & -> & Hq).
  split; [done |]. exists p. split; [lia |]. split; [done |].
  intros q Hq'. apply Hq. lia.
Qed.

(** C5: false positives are rejected, true positives are not.
    [regenerateChain] reports a false positive exactly when no position
    [p < chainLen] of the chain has a digest equal to the target. *)
Theorem regenerateChain_none s L t :
  regenerateChain s L t = None <->
  ∀ p, (p < L)%nat -> memeq hash_len (hash (chain_seed s p)) t = false.
Proof.
  unfold regenerateChain. rewrite (regen_loop_shift t 0 L s).
  split; intros Hall p Hp; apply Hall; lia.
Qed.

End Chains.

(** ** Witnesses *)

Lemma regenerateChain_found_witness :
  memeq 4 (le32_bytes 4) (le32_bytes 4) = true ∧
  ∃ p, (p < 3)%nat ∧ 4 = @chain_seed seed_hash 5 p ∧
       ∀ q, (q < p)%nat -> memeq 4 (le32_bytes (@chain_seed seed_hash 5 q)) (le32_bytes 4) = false.
Proof. apply (@regenerateChain_found seed_hash 5 3). vm_compute. reflexivity. Defined.

Lemma regenerateChain_none_witness : @regenerateChain seed_hash 5 3 (le32_bytes 9) = None.
Proof.
  apply (proj2 (@regenerateChain_none seed_hash 5 3 (le32_bytes 9))).
  intros p Hp. destruct p as [|[|[|p]]]; [vm_compute; reflexivity .. | lia].
Defined.
