(* ===== verification/Quicksort.v ===== *)
(** * The sorter: in-place quicksort of the mapped table

    Models [swap] and [quickSortTable] of the main source file (lines
    292-320).  The table is the mapped array of records, a list updated
    by index.  The pivot is the first record's endpoint, stored in an
    [int] and compared with [unsigned int] endpoints, so the comparison
    converts it back to [unsigned int]; the partition moves records
    whose endpoint is above the pivot to the end of the range, one
    [swap] at a time; the pivot is then swapped to its place and both
    sides are sorted recursively.

    The [while (l < r)] loop runs exactly [r - l] times (each iteration
    moves [l] up or [r] down by one), and the recursion is at most
    [end - beg] deep (each call works on a strictly smaller range): the
    definitions below take these counts as their iteration bounds, and
    the theorems show the bounds are never the reason a loop stops. *)

From stdpp Require Import base list option sorting.
From S2P Require Import Prelude Table.

(** [void swap(chain *a, chain *b) { chain t=*a; *a=*b; *b=t; }] on
    [&table[i]] and [&table[j]]. *)
Definition swap (table : list chain) (i j : nat) : list chain :=
  let a := table !!! i in
  let b := table !!! j in
  <[j := a]> (<[i := b]> table).

(** [table[l].endpoint <= piv]: [piv] is converted to [unsigned int]. *)
Definition le_piv (c : chain) (piv : Z) : bool := endpoint c <=? wrap32 piv.

(** [while (l < r) { if (table[l].endpoint <= piv) l++;
    else swap(&table[l], &table[--r]); }] with at most [k] iterations. *)
Fixpoint partition_loop (piv : Z) (k : nat) (table : list chain) (l r : nat)
    : list chain * nat * nat :=
  match k with
  | O => (table, l, r)
  | S k' =>
      if decide (l < r)%nat then
        if le_piv (table !!! l) piv then partition_loop piv k' table (S l) r
        else partition_loop piv k' (swap table l (r - 1)) l (r - 1)
      else (table, l, r)
  end.

(** [quickSortTable(table, beg, end)], with recursion depth at most
    [depth].  [int l = beg+1, r = end] convert the bounds to [int]: for
    [end >= 2^31] the [int] [r] is negative, [while (l < r)] does not
    run, [swap(&table[--l], &table[beg])] swaps the pivot with itself,
    and the recursive calls get the ranges [(beg, l)] = [(beg, beg)] and
    [(r, end)] = [(end, end)] back as [unsigned int].  The model keeps
    [l = beg + 1] non-negative: [sortRainbowTable] calls
    [quickSortTable(table, 0, chainNum)], and a call that partitions has
    [end < 2^31], so its recursive calls have [beg + 1 <= end < 2^31]. *)
Fixpoint qsort (depth : nat) (table : list chain) (beg end_ : nat) : list chain :=
  match depth with
  | O => table
  | S depth' =>
      if decide (beg + 1 < end_)%nat then
        if decide (Z.of_nat end_ < 2 ^ 31) then
          let piv := int_of_u32 (endpoint (table !!! beg)) in
          let '(t1, l, r) := partition_loop piv (end_ - (beg + 1)) table (beg + 1) end_ in
          let t2 := swap t1 (l - 1) beg in
          let t3 := qsort depth' t2 beg (l - 1) in
          qsort depth' t3 r end_
        else
          let t2 := swap table beg beg in
          let t3 := qsort depth' t2 beg beg in
          qsort depth' t3 end_ end_
      else table
  end.

Definition quickSortTable (table : list chain) (beg end_ : nat) : list chain :=
  qsort (end_ - beg) table beg end_.

(** ** Slices and frames *)

(** The records [table[a..b)]. *)
Definition slice (t : list chain) (a b : nat) : list chain := take (b - a) (drop a t).

(** [t] agrees with [t0] outside [a, b). *)
Definition frame (t t0 : list chain) (a b : nat) : Prop :=
  ∀ k, (k < a ∨ b <= k)%nat -> t !! k = t0 !! k.

Lemma swap_length t i j : length (swap t i j) = length t.
Proof. unfold swap. by rewrite !length_insert. Qed.

Lemma swap_same t i : swap t i i = t.
Proof.
  unfold swap. destruct (decide (i < length t)%nat).
  - rewrite list_insert_insert_eq. apply list_insert_id.
    by rewrite list_lookup_total_alt; destruct (lookup_lt_is_Some_2 t i) as [? ->].
  - by rewrite !list_insert_ge by (rewrite ?length_insert; lia).
Qed.

Lemma swap_perm t i j : (i < length t)%nat -> (j < length t)%nat -> swap t i j ≡ₚ t.
Proof.
  intros Hi Hj. unfold swap.
  destruct (lookup_lt_is_Some_2 t i Hi) as [a Ha].
  destruct (lookup_lt_is_Some_2 t j Hj) as [b Hb].
  rewrite !list_lookup_total_alt, Ha, Hb. simpl. by apply Permutation_insert_swap.
Qed.

Lemma swap_lookup_other t i j k : k ≠ i -> k ≠ j -> swap t i j !! k = t !! k.
Proof. intros. unfold swap. by rewrite !list_lookup_insert_ne. Qed.

Lemma swap_total_other t i j k : k ≠ i -> k ≠ j -> swap t i j !!! k = t !!! k.
Proof. intros. by rewrite !list_lookup_total_alt, swap_lookup_other. Qed.

Lemma swap_total_j t i j : (i < length t)%nat -> (j < length t)%nat -> swap t i j !!! j = t !!! i.
Proof.
  intros. unfold swap. rewrite list_lookup_total_alt, list_lookup_insert_eq; [done |].
  by rewrite length_insert.
Qed.

Lemma swap_total_i t i j :
  (i < length t)%nat -> (j < length t)%nat -> i ≠ j -> swap t i j !!! i = t !!! j.
Proof.
  intros. unfold swap. rewrite list_lookup_total_alt, list_lookup_insert_ne by done.
  by rewrite list_lookup_insert_eq.
Qed.

Lemma frame_refl t a b : frame t t a b.
Proof. by intros k _. Qed.

Lemma frame_trans t1 t2 t3 a b : frame t1 t2 a b -> frame t2 t3 a b -> frame t1 t3 a b.
Proof. intros H12 H23 k Hk. by rewrite H12, H23. Qed.

Lemma frame_mono t t0 a b a' b' :
  (a' <= a)%nat -> (b <= b')%nat -> frame t t0 a b -> frame t t0 a' b'.
Proof. intros ?? Hf k Hk. apply Hf. lia. Qed.

Lemma lookup_slice t a b i :
  slice t a b !! i = if decide (i < b - a)%nat then t !! (a + i)%nat else None.
Proof.
  unfold slice. case_decide.
  - by rewrite lookup_take_lt, lookup_drop.
  - by rewrite lookup_take_ge by lia.
Qed.

(** Slices outside the range a frame allows to change are unchanged. *)
Lemma frame_slice t t0 a b c d :
  frame t t0 a b -> (d <= a ∨ b <= c)%nat -> slice t c d = slice t0 c d.
Proof.
  intros Hf Hcd. apply list_eq. intros i. rewrite !lookup_slice.
  case_decide; [apply Hf; lia | done].
Qed.

Lemma perm_slice t t0 a b :
  t ≡ₚ t0 -> frame t t0 a b -> (a <= b <= length t0)%nat -> slice t a b ≡ₚ slice t0 a b.
Proof.
  intros Hp Hf Hab. pose proof (Permutation_length Hp) as Hlen.
  assert (take a t = take a t0) as Htake.
  { apply list_eq. intros i. destruct (decide (i < a)%nat).
    - rewrite !lookup_take_lt by done. apply Hf. lia.
    - by rewrite !lookup_take_ge by lia. }
  assert (drop b t = drop b t0) as Hdrop.
  { apply list_eq. intros i. rewrite !lookup_drop. apply Hf. lia. }
  assert (∀ l : list chain, l = take a l ++ slice l a b ++ drop b l) as Hsplit.
  { intros l. unfold slice.
    replace (drop b l) with (drop (b - a) (drop a l)) by (rewrite drop_drop; f_equal; lia).
    by rewrite !take_drop. }
  rewrite (Hsplit t), (Hsplit t0), Htake, Hdrop in Hp.
  apply Permutation_app_inv_l in Hp. by apply Permutation_app_inv_r in Hp.
Qed.

Lemma Forall_slice (P : chain -> Prop) t a b :
  (b <= length t)%nat -> Forall P (slice t a b) <-> ∀ k, (a <= k < b)%nat -> P (t !!! k).
Proof.
  intros Hb. rewrite Forall_lookup. split.
  - intros Hall k Hk. destruct (lookup_lt_is_Some_2 t k) as [x Hx]; [lia |].
    rewrite list_lookup_total_alt, Hx. apply (Hall (k - a)%nat).
    rewrite lookup_slice, decide_True by lia. by replace (a + (k - a))%nat with k by lia.
  - intros Hall i x. rewrite lookup_slice. case_decide; [| done].
    intros Hx. specialize (Hall (a + i)%nat). rewrite list_lookup_total_alt, Hx in Hall.
    apply Hall. lia.
Qed.

Lemma length_slice t a b : (b <= length t)%nat -> length (slice t a b) = (b - a)%nat.
Proof. intros. unfold slice. rewrite length_take, length_drop. lia. Qed.

Lemma slice_split t a m b :
  (a <= m < b)%nat -> (b <= length t)%nat ->
  slice t a b = slice t a m ++ t !!! m :: slice t (S m) b.
Proof.
  intros Hm Hb. assert (Hlen : length (slice t a m) = (m - a)%nat) by (apply length_slice; lia).
  apply list_eq. intros i. rewrite lookup_slice.
  destruct (decide (i < m - a)%nat).
  - rewrite lookup_app_l by lia. rewrite lookup_slice, !decide_True by lia. done.
  - rewrite lookup_app_r by lia. rewrite Hlen.
    destruct (i - (m - a))%nat as [|i'] eqn:Ei; simpl.
    + rewrite decide_True by lia.
      rewrite list_lookup_total_alt. replace (a + i)%nat with m by lia.
      destruct (lookup_lt_is_Some_2 t m) as [x ->]; [lia | done].
    + rewrite lookup_slice. do 2 case_decide; try lia; [| done].
      f_equal. lia.
Qed.

(** ** The partition loop *)

Section Partition.
(** The range [beg, end_) of the table [t0] is partitioned around the
    endpoint [pv] of the pivot record [t0[beg]]. *)
Variables (t0 : list chain) (beg end_ : nat) (pv : Z).
Hypothesis Hend : (end_ <= length t0)%nat.

(** The loop invariant: records in (beg, l) are at most [pv], records in
    [r, end_) are above it, and the loop has only permuted records of
    (beg, end_). *)
Record part_inv (t : list chain) (l r : nat) : Prop := {
  pi_bounds : (beg < l <= r)%nat ∧ (r <= end_)%nat;
  pi_perm : t ≡ₚ t0;
  pi_frame : frame t t0 (S beg) end_;
  pi_left : ∀ k, (beg < k < l)%nat -> endpoint (t !!! k) <= pv;
  pi_right : ∀ k, (r <= k < end_)%nat -> pv < endpoint (t !!! k)
}.

Lemma part_inv_length t l r : part_inv t l r -> length t = length t0.
Proof. intros [_ Hp _ _ _]. by apply Permutation_length. Qed.

Lemma part_inv_step_le piv t l r :
  wrap32 piv = pv -> part_inv t l r -> (l < r)%nat ->
  le_piv (t !!! l) piv = true -> part_inv t (S l) r.
Proof.
  intros Hpv [Hb Hp Hf Hl Hr] Hlr Hle. unfold le_piv in Hle. rewrite Hpv in Hle.
  apply Z.leb_le in Hle.
  split; [lia | done | done | | done].
  intros k Hk. destruct (decide (k = l)) as [->|]; [done |]. apply Hl. lia.
Qed.

Lemma part_inv_step_gt piv t l r :
  wrap32 piv = pv -> part_inv t l r -> (l < r)%nat ->
  le_piv (t !!! l) piv = false -> part_inv (swap t l (r - 1)) l (r - 1).
Proof.
  intros Hpv Hinv Hlr Hgt. pose proof (part_inv_length _ _ _ Hinv) as Hlen.
  destruct Hinv as [Hb Hp Hf Hl Hr].
  unfold le_piv in Hgt. rewrite Hpv in Hgt. apply Z.leb_gt in Hgt.
  split; [lia | | | |].
  - rewrite swap_perm by lia. done.
  - intros k Hk. rewrite swap_lookup_other by lia. by apply Hf.
  - intros k Hk. rewrite swap_total_other by lia. by apply Hl.
  - intros k Hk. destruct (decide (k = (r - 1)%nat)) as [->|].
    + by rewrite swap_total_j by lia.
    + rewrite swap_total_other by lia. apply Hr. lia.
Qed.

Lemma partition_loop_inv piv k t l r :
  wrap32 piv = pv -> (r - l = k)%nat -> part_inv t l r ->
  match partition_loop piv k t l r with
  | (t', l', r') => l' = r' ∧ part_inv t' l' r'
  end.
Proof.
  intros Hpv. revert t l r. induction k as [|k IH]; intros t l r Hk Hinv; simpl.
  - split; [| done]. destruct Hinv as [Hb _ _ _ _]. lia.
  - assert (l < r)%nat by (destruct Hinv as [Hb _ _ _ _]; lia).
    rewrite decide_True by done.
    destruct (le_piv (t !!! l) piv) eqn:Hc.
    + apply IH; [lia |]. by apply (part_inv_step_le piv).
    + apply IH; [lia |]. by apply (part_inv_step_gt piv).
Qed.

End Partition.

(** ** Placing the pivot, and the recursion *)



Lemma partition_result t beg end_ :
  (beg + 1 < end_)%nat -> (end_ <= length t)%nat -> u32 (endpoint (t !!! beg)) ->
  match partition_loop (int_of_u32 (endpoint (t !!! beg))) (end_ - (beg + 1)) t (beg + 1) end_ with
  | (t1, l, r) => l = r ∧ part_inv t beg end_ (endpoint (t !!! beg)) t1 l r
  end.
Proof.
  intros Hb Hend Hwf. apply partition_loop_inv; [done | by apply int_of_u32_wrap | lia |].
  split; [lia | done | apply frame_refl | intros; lia | intros; lia].
Qed.

Lemma pivot_placed t beg end_ t1 l :
  (end_ <= length t)%nat -> part_inv t beg end_ (endpoint (t !!! beg)) t1 l l ->
  let t2 := swap t1 (l - 1) beg in
  t2 ≡ₚ t ∧ frame t2 t beg end_ ∧ t2 !!! (l - 1)%nat = t !!! beg ∧
  (∀ k, (beg <= k < l - 1)%nat -> endpoint (t2 !!! k) <= endpoint (t !!! beg)) ∧
  (∀ k, (l <= k < end_)%nat -> endpoint (t !!! beg) < endpoint (t2 !!! k)).
Proof.
  intros Hend Hinv t2. pose proof (part_inv_length _ _ _ _ _ _ _ Hinv) as Hlen.
  destruct Hinv as [Hb Hp Hf Hl Hr].
  assert (Hbeg : t1 !!! beg = t !!! beg).
  { rewrite !list_lookup_total_alt, Hf by lia. done. }
  split_and!.
  - unfold t2. rewrite swap_perm by lia. done.
  - intros k Hk. unfold t2. rewrite swap_lookup_other by lia. apply Hf. lia.
  - unfold t2. destruct (decide (l - 1 = beg)%nat) as [E|E].
    + rewrite E, swap_total_j by lia. done.
    + rewrite swap_total_i by lia. done.
  - intros k Hk. unfold t2. destruct (decide (k = beg)) as [->|].
    + rewrite swap_total_j by lia. apply Hl. lia.
    + rewrite swap_total_other by lia. apply Hl. lia.
  - intros k Hk. unfold t2. rewrite swap_total_other by lia. by apply Hr.
Qed.

Lemma sorted_small (l : list chain) : (length l <= 1)%nat -> sorted_by_end l.
Proof.
  intros Hl. destruct l as [|c [|c' l]]; simpl in Hl; try lia; repeat constructor.
Qed.

(** A sorted left part, the pivot and a sorted right part make a sorted
    range when the left part is at most the pivot and the right part is
    above it. *)
Lemma sorted_join (L R : list chain) (p : chain) :
  sorted_by_end L -> sorted_by_end R ->
  Forall (λ c, endpoint c <= endpoint p) L -> Forall (λ c, endpoint p < endpoint c) R ->
  sorted_by_end (L ++ p :: R).
Proof.
  intros HL HR HFL HFR. apply StronglySorted_app_2; [| done |].
  - intros x y Hx Hy. rewrite Forall_forall in HFL. specialize (HFL x Hx).
    apply elem_of_cons in Hy as [-> | Hy]; unfold end_le; [lia |].
    rewrite Forall_forall in HFR. specialize (HFR y Hy). lia.
  - constructor; [done |]. eapply Forall_impl; [done |]. unfold end_le. intros; simpl; lia.
Qed.

Lemma qsort_correct depth t beg end_ :
  (end_ - beg <= depth)%nat -> (end_ <= length t)%nat -> Z.of_nat end_ < 2 ^ 31 -> Forall chain_wf t ->
  qsort depth t beg end_ ≡ₚ t ∧ frame (qsort depth t beg end_) t beg end_ ∧
  sorted_by_end (slice (qsort depth t beg end_) beg end_).
Proof.
  revert t beg end_. induction depth as [|d IH]; intros t beg end_ Hd Hend Hint Hwf; simpl.
  { split_and!; [done | apply frame_refl | apply sorted_small; rewrite length_slice; lia]. }
  destruct (decide (beg + 1 < end_)%nat) as [Hb|Hb];
    [| split_and!; [done | apply frame_refl | apply sorted_small; rewrite length_slice; lia]].
  rewrite decide_True by done.
  assert (Hpw : u32 (endpoint (t !!! beg))).
  { rewrite Forall_lookup in Hwf. destruct (lookup_lt_is_Some_2 t beg) as [c Hc]; [lia |].
    rewrite list_lookup_total_alt, Hc. apply (Hwf beg c Hc). }
  pose proof (partition_result t beg end_ Hb Hend Hpw) as Hpart.
  destruct (partition_loop _ _ _ _ _) as [[t1 l] r]. destruct Hpart as [<- Hinv].
  pose proof (pi_bounds _ _ _ _ _ _ _ Hinv) as Hlr.
  destruct (pivot_placed t beg end_ t1 l Hend Hinv) as (Hp2 & Hf2 & Hm2 & Hl2 & Hr2).
  set (t2 := swap t1 (l - 1) beg) in *.
  assert (Hlen2 : length t2 = length t) by (by apply Permutation_length).
  assert (Hwf2 : Forall chain_wf t2) by (by rewrite Hp2).
  destruct (IH t2 beg (l - 1)%nat) as (Hp3 & Hf3 & Hs3); [lia | lia | lia | done |].
  set (t3 := qsort d t2 beg (l - 1)) in *.
  assert (Hlen3 : length t3 = length t) by (rewrite (Permutation_length Hp3); done).
  assert (Hwf3 : Forall chain_wf t3) by (by rewrite Hp3).
  destruct (IH t3 l end_) as (Hp4 & Hf4 & Hs4); [lia | lia | done | done |].
  set (t4 := qsort d t3 l end_) in *.
  assert (Hlen4 : length t4 = length t) by (rewrite (Permutation_length Hp4); done).
  split_and!.
  - by rewrite Hp4, Hp3.
  - eapply frame_trans; [eapply frame_mono; [| | apply Hf4]; lia |].
    eapply frame_trans; [eapply frame_mono; [| | apply Hf3]; lia | done].
  - rewrite (slice_split t4 beg (l - 1) end_) by lia.
    replace (S (l - 1)) with l by lia.
    assert (Hpiv : t4 !!! (l - 1)%nat = t !!! beg).
    { rewrite <- Hm2, !list_lookup_total_alt, Hf4, Hf3 by lia. done. }
    assert (Hleft : slice t4 beg (l - 1) = slice t3 beg (l - 1)).
    { apply (frame_slice _ _ l end_). done. lia. }
    rewrite Hpiv, Hleft. apply sorted_join; [done | done | |].
    + rewrite (perm_slice t3 t2 beg (l - 1)) by (done || lia).
      apply Forall_slice; [lia |]. done.
    + rewrite (perm_slice t4 t3 l end_) by (done || lia).
      rewrite (frame_slice t3 t2 beg (l - 1)) by (done || lia).
      apply Forall_slice; [lia |]. done.
Qed.

(** A call on a range of fewer than two records changes nothing. *)
Lemma qsort_small depth t beg end_ : (end_ <= beg + 1)%nat -> qsort depth t beg end_ = t.
Proof. intros. destruct depth; simpl; [done |]. by rewrite decide_False by lia. Qed.

Lemma qsort_empty depth t i : qsort depth t i i = t.
Proof. apply qsort_small. lia. Qed.

Lemma qsort_length depth t beg end_ : length (qsort depth t beg end_) = length t.
Proof.
  revert t beg end_. induction depth as [|d IH]; intros t beg end_; simpl; [done |].
  case_decide; [| done]. case_decide; [| by rewrite !IH, swap_length].
  assert (Hpl : ∀ piv k t l r, length (partition_loop piv k t l r).1.1 = length t).
  { intros piv k. induction k as [|k IHk]; intros t' l r; simpl; [done |].
    case_decide; [| done]. destruct (le_piv _ _); rewrite IHk; [done | apply swap_length]. }
  specialize (Hpl (int_of_u32 (endpoint (t !!! beg))) (end_ - (beg + 1))%nat t (beg + 1)%nat end_).
  destruct (partition_loop _ _ _ _ _) as [[t1 l] r]. simpl in Hpl.
  by rewrite !IH, swap_length.
Qed.

Lemma partition_bounds t beg end_ :
  (beg + 1 < end_)%nat -> (end_ <= length t)%nat ->
  match partition_loop (int_of_u32 (endpoint (t !!! beg))) (end_ - (beg + 1)) t (beg + 1) end_ with
  | (t1, l, r) => l = r ∧ (beg < l <= end_)%nat ∧ length t1 = length t
  end.
Proof.
  intros Hb Hend.
  pose proof (partition_loop_inv t beg end_ (wrap32 (int_of_u32 (endpoint (t !!! beg)))) Hend
    (int_of_u32 (endpoint (t !!! beg))) (end_ - (beg + 1)) t (beg + 1) end_ eq_refl) as H.
  destruct (partition_loop _ _ _ _ _) as [[t1 l] r].
  destruct H as [<- Hinv]; [lia | split; [lia | done | apply frame_refl | intros; lia | intros; lia] |].
  split; [done |]. split; [destruct Hinv as [? _ _ _ _]; lia |].
  by eapply part_inv_length.
Qed.

Lemma quickSortTable_sorts t :
  Z.of_nat (length t) < 2 ^ 31 -> Forall chain_wf t ->
  quickSortTable t 0 (length t) ≡ₚ t ∧ table_sorted (quickSortTable t 0 (length t)).
Proof.
  intros Hn Hwf. unfold quickSortTable.
  destruct (qsort_correct (length t - 0) t 0 (length t)) as (Hp & _ & Hs); [lia | lia | done | done |].
  split; [done |]. intros i Hi. apply sorted_by_end_lookup; [| lia].
  unfold slice in Hs. rewrite drop_0, take_ge in Hs; [done |].
  rewrite (Permutation_length Hp). lia.
Qed.

(** Whatever its length, the table is permuted. *)
Lemma quickSortTable_perm t : Forall chain_wf t -> quickSortTable t 0 (length t) ≡ₚ t.
Proof.
  intros Hwf. destruct (decide (Z.of_nat (length t) < 2 ^ 31)).
  - by apply quickSortTable_sorts.
  - unfold quickSortTable. replace (length t - 0)%nat with (length t) by lia.
    destruct (length t) as [|d] eqn:E; [done |]. simpl.
    rewrite decide_True by lia. rewrite decide_False by lia.
    by rewrite !qsort_empty, swap_same.
Qed.

(** ** Theorems *)

(** C3: [quickSortTable] sorts the table by endpoint.
    Sorting a table of [n] records with [quickSortTable(table, 0, n)]
    yields a permutation of its records in which, for every [i < n - 1],
    [table[i].endpoint <= table[i+1].endpoint] (invariant 4 of the
    spec), when [n < 2^31], so that [int r = end] holds [n]. *)
Theorem quickSortTable_sorted t :
  Z.of_nat (length t) < 2 ^ 31 -> Forall chain_wf t ->
  quickSortTable t 0 (length t) ≡ₚ t ∧ table_sorted (quickSortTable t 0 (length t)).
Proof. apply quickSortTable_sorts. Qed.



(** the recursion of [quickSortTable] is at most [end - beg] deep.
    Any recursion bound of at least [end - beg] gives the same result:
    every call of [quickSortTable] works on a strictly smaller range than
    its caller, so the recursion terminates within [end - beg] levels. *)
Theorem quickSortTable_depth depth t beg end_ :
  (end_ - beg <= depth)%nat -> (end_ <= length t)%nat ->
  qsort depth t beg end_ = quickSortTable t beg end_.
Proof.
  unfold quickSortTable. remember (end_ - beg)%nat as d0 eqn:Hd0.
  assert (Hgen : ∀ d1 d2 t beg end_, (end_ - beg <= d1)%nat -> (end_ - beg <= d2)%nat ->
            (end_ <= length t)%nat -> qsort d1 t beg end_ = qsort d2 t beg end_).
  { clear. induction d1 as [|d1 IH]; intros [|d2] t beg end_ H1 H2 Hend; simpl; try done.
    - by rewrite decide_False by lia.
    - by rewrite decide_False by lia.
    - case_decide as Hb; [| done].
      case_decide; [| by rewrite !qsort_empty].
      pose proof (partition_bounds t beg end_ Hb Hend) as Hpb.
      destruct (partition_loop _ _ _ _ _) as [[t1 l] r]. destruct Hpb as (<- & Hl & Hlen1).
      rewrite (IH d2 (qsort d1 _ _ _)) by (rewrite ?qsort_length, ?swap_length; lia).
      rewrite (IH d2 (swap t1 (l - 1) beg)) by (rewrite ?swap_length; lia). done. }
  intros Hd Hend. apply Hgen; lia.
Qed.

(** the sorting scenario of the spec.
    Sorting [{(s,2),(s,1),(s,3),(s,1)}] by endpoint gives
    [{(s,1),(s,1),(s,2),(s,3)}]. *)
Example quickSortTable_scenario :
  quickSortTable [mkChain 7 2; mkChain 7 1; mkChain 7 3; mkChain 7 1] 0 4 =
  [mkChain 7 1; mkChain 7 1; mkChain 7 2; mkChain 7 3].
Proof. vm_compute. reflexivity. Qed.

(** ** Witnesses *)

Lemma quickSortTable_sorted_witness :
  quickSortTable [mkChain 7 2; mkChain 8 1] 0 (length [mkChain 7 2; mkChain 8 1])
    ≡ₚ [mkChain 7 2; mkChain 8 1] ∧
  table_sorted (quickSortTable [mkChain 7 2; mkChain 8 1] 0 (length [mkChain 7 2; mkChain 8 1])).
Proof. apply quickSortTable_sorted; [simpl; lia |]. repeat constructor; unfold u32, two32; simpl; lia. Defined.


Lemma quickSortTable_depth_witness :
  qsort 5 [mkChain 7 2; mkChain 8 1] 0 2 = quickSortTable [mkChain 7 2; mkChain 8 1] 0 2.
Proof. apply quickSortTable_depth; simpl; lia. Defined.

