(* ===== verification/Lookup.v ===== *)
(** * The lookup engine

    Models [searchTable] (main source, lines 399-419), the search loop of
    [searchHashInMemory] (lines 447-483) and its use of
    [regenerateChain].  For each column [j] from [chainLen - 1] down to
    0 the target digest is assumed to sit at position [j] of some chain:
    it is reduced and hashed forward to the end of the chain, the
    resulting endpoint is looked up by binary search in the sorted
    table, and the chains from the index the search returns are
    regenerated one after the other while the next record has the same
    endpoint ([do { ... } while (table[index].endpoint == r)]).

    Reads go through [mm_read]: the table is the mapped file, so a read
    past the records but inside the last page yields a zero record and a
    read past the mapping faults.  The binary search loop is given 33
    iterations, the number a table of at most 2^31 records needs (its
    range halves at each iteration); the backward scan and the
    enumeration are bounded by the number of records they can read. *)

From stdpp Require Import base list option sets.
From S2P Require Import Prelude Hash Reduce Table Chain Quicksort.

Section Lookup.
Context `{HashFunction}.

(** [while (mid >= 0 && endpoint == table[mid--].endpoint);] with at
    most [k] iterations; returns the final [mid]. *)
Fixpoint back_scan (table : list chain) (r : Z) (k : nat) (mid : Z) : outcome Z :=
  match k with
  | O => Ret mid
  | S k' =>
      if decide (0 <= mid) then
        c ← mm_read table mid;
        if decide (r = endpoint c) then back_scan table r k' (mid - 1) else Ret (mid - 1)
      else Ret mid
  end.

(** [while (beg < end) { long mid = (beg + end) / 2; ... }] with at
    most [fuel] iterations.  [Ret (Some index)] is [return 1] with
    [*index] set, [Ret None] is [return 0]. *)
Fixpoint bsearch_loop (table : list chain) (r : Z) (fuel : nat) (beg end_ : Z)
    : outcome (option Z) :=
  match fuel with
  | O => OutOfFuel
  | S f =>
      if decide (beg < end_) then
        let mid := wrap32 (beg + end_) / 2 in
        c ← mm_read table mid;
        if decide (r < endpoint c) then bsearch_loop table r f beg mid
        else if decide (endpoint c < r) then bsearch_loop table r f (wrap32 (mid + 1)) end_
        else
          m ← back_scan table r (Z.to_nat (mid + 1)) mid;
          Ret (Some (if decide (m < 0) then 0 else m + 1))
      else Ret None
  end.

Definition SEARCH_ITERS : nat := 33.

(** [searchTable(table, chainNum, endpoint, &index)]: [chainNum] is an
    [int], [end = chainNum - 1] an [unsigned int]. *)
Definition searchTable (table : list chain) (chainNum : Z) (r : Z) : outcome (option Z) :=
  bsearch_loop table r SEARCH_ITERS 0 (wrap32 (int_of_u32 chainNum - 1)).

(** [do { if (regenerateChain(table[index++].startpoint, ...)) return 1; }
    while (table[index].endpoint == r);] with at most [k] iterations. *)
Fixpoint enum_run (table : list chain) (r : Z) (chainLen : nat) (target : list byte)
    (k : nat) (index : Z) : outcome (option Z) :=
  match k with
  | O => OutOfFuel
  | S k' =>
      c ← mm_read table index;
      match regenerateChain (startpoint c) chainLen target with
      | Some seed => Ret (Some seed)
      | None =>
          c' ← mm_read table (index + 1);
          if decide (endpoint c' = r) then enum_run table r chainLen target k' (index + 1)
          else Ret None
      end
  end.

(** [for (i = j; i < chainLen-1; i ++) { r = reduce(tmpHash, hashLen, i);
    tmpHash = hashFunc(r, buf); }] from round [i] with [n] rounds left. *)
Fixpoint forward (tmpHash : list byte) (i n : nat) : list byte :=
  match n with
  | O => tmpHash
  | S n' => forward (hash (reduce tmpHash hash_len (Z.of_nat i))) (S i) n'
  end.

(** The endpoint the target would reach if it sat at position [j]:
    the loop above, then [r = reduce(tmpHash, hashLen, i)] with
    [i = chainLen - 1]. *)
Definition column_endpoint (target : list byte) (chainLen j : nat) : Z :=
  reduce (forward target j (chainLen - 1 - j)) hash_len (Z.of_nat (chainLen - 1)).

(** One iteration of the [j] loop. *)
Definition search_column (table : list chain) (chainNum : Z) (chainLen : nat)
    (target : list byte) (j : nat) : outcome (option Z) :=
  let r := column_endpoint target chainLen j in
  found ← searchTable table chainNum r;
  match found with
  | None => Ret None
  | Some index =>
      enum_run table r chainLen target
        (Z.to_nat (Z.of_nat (mapped_records (length table)) - index) + 1) index
  end.

(** [for (j = chainLen - 1; j >= 0; j --)] over the columns [js]. *)
Fixpoint search_columns (table : list chain) (chainNum : Z) (chainLen : nat)
    (target : list byte) (js : list nat) : outcome (option Z) :=
  match js with
  | [] => Ret None
  | j :: js' =>
      res ← search_column table chainNum chainLen target j;
      match res with
      | Some seed => Ret (Some seed)
      | None => search_columns table chainNum chainLen target js'
      end
  end.

(** The columns [j] the loop [for (j = chainLen - 1; j >= 0; j --)]
    visits, [j] being an [int]: [chainLen - 1] down to 0, or none when
    [chainLen - 1] does not fit in an [int]. *)
Definition columns (chainLen : nat) : list nat :=
  rev (seq 0 (Z.to_nat (int_of_u32 (wrap32 (Z.of_nat chainLen - 1)) + 1))).

Definition searchHashInMemory (table : list chain) (chainNum : Z) (chainLen : nat)
    (targetHash : list byte) : outcome (option Z) :=
  search_columns table chainNum chainLen targetHash (columns chainLen).

(** ** The binary search *)

(** [k] is the first index of [table] whose endpoint is [r]. *)
Definition first_index (table : list chain) (r : Z) (k : nat) : Prop :=
  (k < length table)%nat ∧ endpoint (table !!! k) = r ∧
  ∀ j, (j < k)%nat -> endpoint (table !!! j) <> r.

(** At most one record of [table] has endpoint [r]. *)
Definition at_most_one (table : list chain) (r : Z) : Prop :=
  ∀ i j, (i < j < length table)%nat ->
    endpoint (table !!! i) = r -> endpoint (table !!! j) = r -> False.

Lemma first_index_exists table r m :
  (m < length table)%nat -> endpoint (table !!! m) = r -> ∃ k, (k <= m)%nat ∧ first_index table r k.
Proof.
  intros Hm Hr.
  assert (Hdec : ∀ n, {∃ j, (j < n)%nat ∧ endpoint (table !!! j) = r} +
                      {∀ j, (j < n)%nat -> endpoint (table !!! j) <> r}).
  { induction n as [|n [IH|IH]].
    - right. intros; lia.
    - left. destruct IH as (j & ? & ?). exists j. split; [lia | done].
    - destruct (decide (endpoint (table !!! n) = r)).
      + left. exists n. split; [lia | done].
      + right. intros j Hj. destruct (decide (j = n)) as [->|]; [done |]. apply IH. lia. }
  induction m as [m IHm] using lt_wf_ind.
  destruct (Hdec m) as [(j & Hj & Hjr)|Hnone].
  - destruct (IHm j Hj) as (k & Hk & Hf); [lia | done |]. exists k. split; [lia | done].
  - exists m. split; [lia |]. split_and!; [done | done | done].
Qed.

(** The backward scan from a matching [mid] stops below the first
    record [p + 1] of the run of records with endpoint [r]. *)
Lemma back_scan_run table r k mid p :
  mid < Z.of_nat (length table) -> -1 <= p <= mid ->
  (∀ j, p < j <= mid -> endpoint (table !!! Z.to_nat j) = r) ->
  (p = -1 ∨ endpoint (table !!! Z.to_nat p) <> r) ->
  (Z.to_nat (mid + 1) <= k)%nat ->
  back_scan table r k mid = Ret (if decide (p = -1) then -1 else p - 1).
Proof.
  revert mid. induction k as [|k IH]; intros mid Hmid Hp Hrun Hstop Hk; simpl.
  - assert (p = -1) as -> by lia. rewrite decide_True by done. f_equal. lia.
  - destruct (decide (0 <= mid)) as [Hm0|Hm0].
    + rewrite mm_read_in by lia. cbn [mbind outcome_bind].
      destruct (decide (r = endpoint (table !!! Z.to_nat mid))) as [Hr|Hr].
      * assert (p < mid) by (destruct Hstop as [-> | Hstop]; [lia |];
          destruct (decide (p = mid)) as [->|]; [congruence | lia]).
        apply IH; [lia | lia | intros j Hj; apply Hrun; lia | done | lia].
      * assert (p = mid) as ->.
        { destruct (decide (p = mid)) as [|Hne]; [done |]. exfalso. apply Hr.
          symmetry. apply Hrun. lia. }
        rewrite decide_False by lia. done.
    + assert (p = -1) as -> by lia. rewrite decide_True by done. f_equal. lia.
Qed.

(** What [searchTable] promises on a sorted table: a returned index is
    one before the first record with the endpoint (or 0 when that
    record is the first), and a miss means at most one record has it. *)
Definition search_post (table : list chain) (r : Z) (o : outcome (option Z)) : Prop :=
  match o with
  | Ret (Some idx) => ∃ k, first_index table r k ∧ idx = Z.of_nat (Nat.pred k)
  | Ret None => at_most_one table r
  | _ => False
  end.

Lemma bsearch_found table r mid :
  sorted_by_end table -> 0 <= mid < Z.of_nat (length table) ->
  endpoint (table !!! Z.to_nat mid) = r ->
  search_post table r
    (m ← back_scan table r (Z.to_nat (mid + 1)) mid;
     Ret (Some (if decide (m < 0) then 0 else m + 1))).
Proof.
  intros Hs Hmid Hr.
  destruct (first_index_exists table r (Z.to_nat mid)) as (k & Hk & Hk1 & Hk2 & Hk3); [lia | done |].
  rewrite (back_scan_run table r _ mid (Z.of_nat k - 1)); [| lia | lia | | | lia].
  - cbn [mbind outcome_bind]. exists k. split; [done |].
    destruct (decide (Z.of_nat k - 1 = -1)); case_decide; lia.
  - intros j Hj. apply Z.le_antisymm.
    + rewrite <- Hr. apply sorted_by_end_lookup; [done | lia].
    + rewrite <- Hk2. apply sorted_by_end_lookup; [done | lia].
  - destruct (decide (k = 0%nat)) as [->|]; [left; lia | right].
    replace (Z.to_nat (Z.of_nat k - 1)) with (k - 1)%nat by lia. apply Hk3. lia.
Qed.

Lemma bsearch_loop_S table r f beg end_ :
  bsearch_loop table r (S f) beg end_ =
    if decide (beg < end_) then
      let mid := wrap32 (beg + end_) / 2 in
      c ← mm_read table mid;
      if decide (r < endpoint c) then bsearch_loop table r f beg mid
      else if decide (endpoint c < r) then bsearch_loop table r f (wrap32 (mid + 1)) end_
      else
        m ← back_scan table r (Z.to_nat (mid + 1)) mid;
        Ret (Some (if decide (m < 0) then 0 else m + 1))
    else Ret None.
Proof. reflexivity. Qed.

Lemma bsearch_loop_spec table r f beg end_ :
  sorted_by_end table -> Z.of_nat (length table) <= 2 ^ 31 ->
  0 <= beg <= end_ -> end_ < Z.of_nat (length table) -> end_ - beg < 2 ^ Z.of_nat f ->
  (∀ k, (k < length table)%nat -> endpoint (table !!! k) = r -> beg <= Z.of_nat k <= end_) ->
  search_post table r (bsearch_loop table r (S f) beg end_).
Proof.
  intros Hs Hn. revert beg end_.
  induction f as [|f IH]; intros beg end_ Hbe Hend Hsize Hin; rewrite bsearch_loop_S.
  - rewrite decide_False by (simpl in Hsize; lia).
    intros i j Hij Hi Hj. apply Hin in Hi; [| lia]. apply Hin in Hj; [| lia]. lia.
  - destruct (decide (beg < end_)) as [Hlt|Hge].
    2: { intros i j Hij Hi Hj. apply Hin in Hi; [| lia]. apply Hin in Hj; [| lia]. lia. }
    rewrite (wrap32_id (beg + end_)) by (unfold u32, two32; lia). cbv zeta.
    assert (Hmid : beg <= (beg + end_) / 2 < end_) by zlia.
    rewrite mm_read_in by lia. cbn [mbind outcome_bind].
    rewrite Nat2Z.inj_succ, Z.pow_succ_r in Hsize by lia.
    set (mid := (beg + end_) / 2) in *.
    assert (Hmid2 : 2 * mid <= beg + end_ <= 2 * mid + 1) by (subst mid; zlia).
    destruct (decide (r < endpoint (table !!! Z.to_nat mid))) as [Hlo|Hlo].
    { apply IH; [lia | lia | lia |]. intros k Hk Hkr. specialize (Hin k Hk Hkr).
      split; [lia |]. destruct (decide (Z.of_nat k <= mid)); [done |]. exfalso.
      assert (endpoint (table !!! Z.to_nat mid) <= endpoint (table !!! k))
        by (apply sorted_by_end_lookup; [done | lia]). lia. }
    destruct (decide (endpoint (table !!! Z.to_nat mid) < r)) as [Hhi|Hhi].
    { rewrite (wrap32_id (mid + 1)) by (unfold u32, two32; lia).
      apply IH; [lia | lia | subst mid; zlia |]. intros k Hk Hkr. specialize (Hin k Hk Hkr).
      split; [| lia]. destruct (decide (mid + 1 <= Z.of_nat k)); [done |]. exfalso.
      assert (endpoint (table !!! k) <= endpoint (table !!! Z.to_nat mid))
        by (apply sorted_by_end_lookup; [done | lia]). lia. }
    apply bsearch_found; [done | lia | lia].
Qed.

Lemma end_index_wrap n : 1 <= n <= 2 ^ 31 -> wrap32 (int_of_u32 n - 1) = n - 1.
Proof.
  intros Hn. unfold int_of_u32, wrap32, two32.
  destruct (Z.ltb_spec n (2 ^ 31)).
  - apply Z.mod_small. lia.
  - assert (n = 2 ^ 31) as -> by lia. reflexivity.
Qed.

Lemma searchTable_spec table r :
  sorted_by_end table -> (1 <= length table)%nat -> Z.of_nat (length table) <= 2 ^ 31 ->
  search_post table r (searchTable table (Z.of_nat (length table)) r).
Proof.
  intros Hs Hn1 Hn. unfold searchTable.
  rewrite end_index_wrap by lia. apply bsearch_loop_spec; [done | done | lia | lia | | ].
  - simpl. lia.
  - intros k Hk _. lia.
Qed.

(** A found endpoint was read at a [mid] strictly below the final [end]:
    the binary search never compares the last index it narrows to. *)
Lemma bsearch_some_mid table r f beg end_ idx :
  0 <= beg -> end_ < Z.of_nat (length table) -> Z.of_nat (length table) <= 2 ^ 31 ->
  bsearch_loop table r f beg end_ = Ret (Some idx) ->
  ∃ mid, beg <= mid < end_ ∧ endpoint (table !!! Z.to_nat mid) = r.
Proof.
  revert beg end_. induction f as [|f IH]; intros beg end_ Hb He Hn; [discriminate |].
  rewrite bsearch_loop_S. destruct (decide (beg < end_)) as [Hlt|]; [| discriminate].
  rewrite (wrap32_id (beg + end_)) by (unfold u32, two32; lia). cbv zeta.
  assert (Hmid : beg <= (beg + end_) / 2 < end_) by zlia.
  rewrite mm_read_in by lia. cbn [mbind outcome_bind].
  destruct (decide (r < _)) as [Hlo|Hlo].
  { intros Hrec. destruct (IH beg ((beg + end_) / 2) Hb ltac:(lia) Hn Hrec) as (m & ? & ?). exists m. split; [lia | done]. }
  destruct (decide (_ < r)) as [Hhi|Hhi].
  { rewrite (wrap32_id ((beg + end_) / 2 + 1)) by (unfold u32, two32; lia).
    intros Hrec. destruct (IH ((beg + end_) / 2 + 1) end_ ltac:(lia) He Hn Hrec) as (m & ? & ?). exists m. split; [lia | done]. }
  intros _. exists ((beg + end_) / 2). split; [lia | lia].
Qed.

Lemma searchTable_some_mid table r idx :
  (1 <= length table)%nat -> Z.of_nat (length table) <= 2 ^ 31 ->
  searchTable table (Z.of_nat (length table)) r = Ret (Some idx) ->
  ∃ mid, 0 <= mid < Z.of_nat (length table) - 1 ∧ endpoint (table !!! Z.to_nat mid) = r.
Proof.
  intros Hn1 Hn. unfold searchTable. rewrite end_index_wrap by lia.
  apply bsearch_some_mid; lia.
Qed.

(** [searchTable] misses an endpoint no record but possibly the last
    one holds. *)
Lemma searchTable_no_match table r :
  sorted_by_end table -> (1 <= length table)%nat -> Z.of_nat (length table) <= 2 ^ 31 ->
  (∀ m, (m < length table - 1)%nat -> endpoint (table !!! m) <> r) ->
  searchTable table (Z.of_nat (length table)) r = Ret None.
Proof.
  intros Hs Hn1 Hn Hno. pose proof (searchTable_spec table r Hs Hn1 Hn) as Hpost.
  destruct (searchTable table (Z.of_nat (length table)) r) as [[idx|]| |] eqn:E;
    [| reflexivity | destruct Hpost | destruct Hpost].
  destruct (searchTable_some_mid table r idx Hn1 Hn E) as (mid & Hm & Hr).
  exfalso. apply (Hno (Z.to_nat mid)); [lia | exact Hr].
Qed.

(** ** Enumeration of a run and the columns *)

Lemma enum_run_fuel table r L t k index :
  (Z.to_nat (Z.of_nat (mapped_records (length table)) - index) + 1 <= k)%nat ->
  enum_run table r L t k index <> OutOfFuel.
Proof.
  revert index. induction k as [|k IH]; intros index Hk; [lia |]. simpl.
  destruct (mm_read_cases table index) as [[-> _] | [[c ->] Hin]]; [done |].
  cbn [mbind outcome_bind]. destruct (regenerateChain (startpoint c) L t); [done |].
  destruct (mm_read_cases table (index + 1)) as [[-> _] | [[c' ->] Hin']]; [done |].
  cbn [mbind outcome_bind]. case_decide; [apply IH; lia | done].
Qed.

Lemma enum_run_sound table r L t k index s :
  enum_run table r L t k index = Ret (Some s) -> ∃ st, regenerateChain st L t = Some s.
Proof.
  revert index. induction k as [|k IH]; intros index; simpl; [discriminate |].
  destruct (mm_read table index) as [c| |]; cbn [mbind outcome_bind]; try discriminate.
  destruct (regenerateChain (startpoint c) L t) eqn:Hr; [intros [= ->]; eauto |].
  destruct (mm_read table (index + 1)) as [c'| |]; cbn [mbind outcome_bind]; try discriminate.
  case_decide; [apply IH | discriminate].
Qed.

(** The enumeration from [index] reaches every record of the run of
    equal endpoints that follows it, and stops with a seed at the
    latest at a record whose chain regenerates. *)
Lemma enum_run_reaches table r L t k (index m : nat) :
  (index <= m < length table)%nat ->
  (∀ j, (index < j <= m)%nat -> endpoint (table !!! j) = r) ->
  regenerateChain (startpoint (table !!! m)) L t <> None ->
  (m - index < k)%nat ->
  ∃ s, enum_run table r L t k (Z.of_nat index) = Ret (Some s).
Proof.
  revert index. induction k as [|k IH]; intros index Him Hrun Hreg Hk; [lia |]. simpl.
  rewrite (mm_read_in table (Z.of_nat index)) by lia. cbn [mbind outcome_bind].
  rewrite Nat2Z.id.
  destruct (regenerateChain (startpoint (table !!! index)) L t) as [s|] eqn:Hr; [eauto |].
  assert (index <> m) by (intros ->; congruence).
  rewrite (mm_read_in table (Z.of_nat index + 1)) by lia. cbn [mbind outcome_bind].
  replace (Z.to_nat (Z.of_nat index + 1)) with (S index) by lia.
  rewrite decide_True by (apply Hrun; lia).
  replace (Z.of_nat index + 1) with (Z.of_nat (S index)) by lia.
  apply IH; [lia | | done | lia].
  intros j Hj. apply Hrun. lia.
Qed.

Lemma forward_chain s p n target :
  memeq hash_len (hash (chain_seed s p)) target = true ->
  memeq hash_len (forward target p n) (hash (chain_seed s (p + n))) = true.
Proof.
  revert p target. induction n as [|n IH]; intros p target Hm; simpl.
  - rewrite Nat.add_0_r, memeq_sym. done.
  - rewrite memeq_sym in Hm. rewrite (reduce_memeq target (hash (chain_seed s p))) by done.
    rewrite <- chain_seed_S. replace (p + S n)%nat with (S p + n)%nat by lia.
    apply IH, memeq_refl.
Qed.

(** If the target is the digest at position [p] of a chain, the
    endpoint computed for column [p] is the chain's endpoint. *)
Lemma column_endpoint_hit s p L target :
  (p < L)%nat -> memeq hash_len (hash (chain_seed s p)) target = true ->
  column_endpoint target L p = chain_seed s L.
Proof.
  intros HpL Hm. unfold column_endpoint.
  rewrite (reduce_memeq _ (hash (chain_seed s (p + (L - 1 - p))))) by (by apply forward_chain).
  replace (p + (L - 1 - p))%nat with (L - 1)%nat by lia.
  rewrite <- chain_seed_S. f_equal. lia.
Qed.

Lemma search_columns_sound table n L t js s :
  search_columns table n L t js = Ret (Some s) -> ∃ st, regenerateChain st L t = Some s.
Proof.
  induction js as [|j js IH]; simpl; [discriminate |].
  unfold search_column.
  destruct (searchTable table n _) as [[idx|]| |]; cbn [mbind outcome_bind]; try discriminate.
  - destruct (enum_run _ _ _ _ _ _) as [[s'|]| |] eqn:He; cbn [mbind outcome_bind];
      try discriminate; [intros [= <-]; by eapply enum_run_sound | apply IH].
  - apply IH.
Qed.

Lemma columns_small L : (1 <= L)%nat -> Z.of_nat L <= 2 ^ 31 -> columns L = rev (seq 0 L).
Proof.
  intros. unfold columns. rewrite (wrap32_id (Z.of_nat L - 1)) by (unfold u32, two32; lia).
  unfold int_of_u32. rewrite (proj2 (Z.ltb_lt _ _)) by lia. do 3 f_equal. lia.
Qed.

Lemma search_column_hit table L target m p :
  sorted_by_end table -> (1 <= length table)%nat -> Z.of_nat (length table) <= 2 ^ 31 ->
  (m < length table)%nat -> (p < L)%nat ->
  endpoint (table !!! m) = chain_seed (startpoint (table !!! m)) L ->
  memeq hash_len (hash (chain_seed (startpoint (table !!! m)) p)) target = true ->
  searchTable table (Z.of_nat (length table)) (endpoint (table !!! m)) <> Ret None ->
  ∃ s, search_column table (Z.of_nat (length table)) L target p = Ret (Some s).
Proof.
  intros Hs Hn1 Hn Hm HpL Hvalid Hmatch Hhit. unfold search_column.
  rewrite (column_endpoint_hit (startpoint (table !!! m)) p L target HpL Hmatch), <- Hvalid.
  pose proof (searchTable_spec table (endpoint (table !!! m)) Hs Hn1 Hn) as Hpost.
  destruct (searchTable _ _ _) as [[idx|]| |]; cbn [mbind outcome_bind];
    [| done | done | done].
  destruct Hpost as (k & (Hk & Hkr & Hfirst) & ->).
  assert (k <= m)%nat by (destruct (decide (m < k)%nat); [by apply Hfirst in l | lia]).
  apply (enum_run_reaches _ _ _ _ _ _ m); [lia | | | ].
  - intros j Hj. apply Z.le_antisymm.
    + apply sorted_by_end_lookup; [done | lia].
    + rewrite <- Hkr. apply sorted_by_end_lookup; [done | lia].
  - intros Hnone. unfold regenerateChain in Hnone. unfold chain_seed in Hmatch.
    apply (proj1 (regen_loop_shift target 0 L _)) with (p := p) in Hnone; [| lia].
    by rewrite Hmatch in Hnone.
  - pose proof (mapped_records_ge (length table)). lia.
Qed.

Lemma search_columns_hit table n L target js p :
  p ∈ js -> (∃ s, search_column table n L target p = Ret (Some s)) ->
  search_columns table n L target js <> Ret None.
Proof.
  intros Hp [s Hs]. induction js as [|j js IH]; simpl; [set_solver |].
  apply elem_of_cons in Hp as [-> | Hp].
  - by rewrite Hs.
  - destruct (search_column _ _ _ _ j) as [[s'|]| |]; cbn [mbind outcome_bind]; try done.
    by apply IH.
Qed.

(** The lookup finds a digest on a valid chain of a sorted table
    whenever the binary search locates the chain's endpoint. *)
Lemma search_hit table L target m p :
  sorted_by_end table -> (1 <= length table)%nat -> Z.of_nat (length table) <= 2 ^ 31 ->
  Z.of_nat L <= 2 ^ 31 -> (m < length table)%nat -> (p < L)%nat ->
  endpoint (table !!! m) = chain_seed (startpoint (table !!! m)) L ->
  memeq hash_len (hash (chain_seed (startpoint (table !!! m)) p)) target = true ->
  searchTable table (Z.of_nat (length table)) (endpoint (table !!! m)) <> Ret None ->
  searchHashInMemory table (Z.of_nat (length table)) L target <> Ret None.
Proof.
  intros Hs Hn1 Hn HL Hm HpL Hvalid Hmatch Hhit. unfold searchHashInMemory.
  rewrite columns_small by lia.
  apply search_columns_hit with (p := p); [rewrite list_elem_of_In, <- in_rev, in_seq; lia |].
  by eapply search_column_hit.
Qed.

Lemma search_sound table n L target s :
  searchHashInMemory table n L target = Ret (Some s) ->
  memeq hash_len (hash s) target = true.
Proof.
  intros Hr. apply search_columns_sound in Hr as [st Hst]. unfold regenerateChain in Hst.
  by apply (regen_loop_some target 0 L st s) in Hst as [Hm _].
Qed.

(** The enumeration walks a run of false positives that ends at the
    last record and then reads the record after it. *)
Lemma enum_run_overrun table r L t k (index : nat) :
  (index < length table)%nat -> mapped_records (length table) = length table ->
  (∀ m, (index <= m < length table)%nat -> regenerateChain (startpoint (table !!! m)) L t = None) ->
  (∀ m, (index < m < length table)%nat -> endpoint (table !!! m) = r) ->
  (length table - index <= k)%nat ->
  enum_run table r L t k (Z.of_nat index) = MemFault.
Proof.
  intros Hi Hmap Hreg Hrun. revert index Hi Hreg Hrun.
  induction k as [|k IH]; intros index Hi Hreg Hrun Hk; [lia |].
  cbn [enum_run]. rewrite (mm_read_in table (Z.of_nat index)) by lia. cbn [mbind outcome_bind]. rewrite Nat2Z.id.
  rewrite Hreg by lia.
  destruct (decide (S index = length table)) as [Hl|Hl].
  - unfold mm_read. rewrite Hmap, !decide_False by lia. done.
  - rewrite (mm_read_in table (Z.of_nat index + 1)) by lia. cbn [mbind outcome_bind].
    replace (Z.to_nat (Z.of_nat index + 1)) with (S index) by lia.
    rewrite decide_True by (apply Hrun; lia).
    replace (Z.of_nat index + 1) with (Z.of_nat (S index)) by lia.
    apply IH; [lia | intros m Hm; apply Hreg; lia | intros m Hm; apply Hrun; lia | lia].
Qed.

Lemma search_column_fuel table L target j :
  sorted_by_end table -> (1 <= length table)%nat -> Z.of_nat (length table) <= 2 ^ 31 ->
  search_column table (Z.of_nat (length table)) L target j <> OutOfFuel.
Proof.
  intros Hs Hn1 Hn. unfold search_column.
  pose proof (searchTable_spec table (column_endpoint target L j) Hs Hn1 Hn) as Hpost.
  destruct (searchTable _ _ _) as [[idx|]| |]; cbn [mbind outcome_bind]; [| done | done | done].
  apply enum_run_fuel. lia.
Qed.

(** The columns the loop visits are below [chainLen]. *)
Lemma columns_lt L : Forall (λ j, j < L)%nat (columns L).
Proof.
  unfold columns. apply Forall_rev, Forall_seq. intros j Hj.
  unfold int_of_u32, wrap32, two32 in Hj.
  destruct (Z.ltb_spec ((Z.of_nat L - 1) mod 2 ^ 32) (2 ^ 31)); zlia.
Qed.

(** The iteration bounds never stop the lookup. *)
Lemma search_fuel table L target :
  sorted_by_end table -> (1 <= length table)%nat -> Z.of_nat (length table) <= 2 ^ 31 ->
  searchHashInMemory table (Z.of_nat (length table)) L target <> OutOfFuel.
Proof.
  intros Hs Hn1 Hn. unfold searchHashInMemory. generalize (columns L) as js.
  induction js as [|j js IH]; simpl; [done |].
  pose proof (search_column_fuel table L target j Hs Hn1 Hn).
  destruct (search_column _ _ _ _ j) as [[s|]| |]; cbn [mbind outcome_bind]; done.
Qed.

(** A lookup that is neither "not found" nor stopped by a bound has
    found a preimage or faulted. *)
Lemma search_found_or_fault table L target :
  sorted_by_end table -> (1 <= length table)%nat -> Z.of_nat (length table) <= 2 ^ 31 ->
  searchHashInMemory table (Z.of_nat (length table)) L target <> Ret None ->
  (∃ s, searchHashInMemory table (Z.of_nat (length table)) L target = Ret (Some s) ∧
        memeq hash_len (hash s) target = true) ∨
  searchHashInMemory table (Z.of_nat (length table)) L target = MemFault.
Proof.
  intros Hs Hn1 Hn Hnone. pose proof (search_fuel table L target Hs Hn1 Hn) as Hf.
  destruct (searchHashInMemory _ _ _ _) as [[s|]| |] eqn:E; try done; [left | by right].
  exists s. split; [done |]. by eapply search_sound.
Qed.

(** ** Theorems *)

(** C7: a returned index is one before the first matching record.
    On a sorted table of [1 <= n <= 2^31] records, when [searchTable]
    finds the endpoint it returns [k - 1], where [k] is the first
    index holding it ([0] when [k = 0]): one position before the first
    match, not the first match the comment promises. *)
Theorem searchTable_found table r idx :
  sorted_by_end table -> (1 <= length table)%nat -> Z.of_nat (length table) <= 2 ^ 31 ->
  searchTable table (Z.of_nat (length table)) r = Ret (Some idx) ->
  ∃ k, first_index table r k ∧ idx = Z.of_nat (Nat.pred k).
Proof.
  intros Hs Hn1 Hn Hr. pose proof (searchTable_spec table r Hs Hn1 Hn) as Hpost.
  by rewrite Hr in Hpost.
Qed.

(** C8: [searchTable] can only miss an endpoint held by one record.
    On a sorted table of [1 <= n <= 2^31] records, a miss of
    [searchTable] means at most one record has the endpoint: an
    endpoint shared by two records is always found. *)
Theorem searchTable_miss table r :
  sorted_by_end table -> (1 <= length table)%nat -> Z.of_nat (length table) <= 2 ^ 31 ->
  searchTable table (Z.of_nat (length table)) r = Ret None -> at_most_one table r.
Proof.
  intros Hs Hn1 Hn Hr. pose proof (searchTable_spec table r Hs Hn1 Hn) as Hpost.
  by rewrite Hr in Hpost.
Qed.

(** [searchTable] terminates without a fault.
    On a sorted table of [1 <= n <= 2^31] records, [searchTable] reads
    only records of the table and its loop ends within 33 iterations. *)
Theorem searchTable_total table r :
  sorted_by_end table -> (1 <= length table)%nat -> Z.of_nat (length table) <= 2 ^ 31 ->
  ∃ res, searchTable table (Z.of_nat (length table)) r = Ret res.
Proof.
  intros Hs Hn1 Hn. pose proof (searchTable_spec table r Hs Hn1 Hn) as Hpost.
  destruct (searchTable _ _ _) as [res| |]; [eauto | done | done].
Qed.

(** C1: a seed the lookup returns hashes to the target.
    Whatever the table, when [searchHashInMemory] reports a seed, the
    seed's digest equals the target digest on its first [hashLen]
    bytes: endpoint matches are only candidates, confirmed by
    regenerating the chain. *)
Theorem searchHashInMemory_sound table n L target s :
  searchHashInMemory table n L target = Ret (Some s) ->
  memeq hash_len (hash s) target = true.
Proof. apply search_sound. Qed.

(** C2: the lookup finds a digest of a chain whose endpoint it locates.
    If the target digest is the digest at some position [p < L] of a
    valid chain of a sorted table ([1 <= n <= 2^31] records,
    [1 <= L <= 2^31]), and [searchTable] locates that chain's endpoint,
    then [searchHashInMemory] does not report "not found". *)
Theorem searchHashInMemory_complete table L target m p :
  sorted_by_end table -> (1 <= length table)%nat -> Z.of_nat (length table) <= 2 ^ 31 ->
  Z.of_nat L <= 2 ^ 31 -> (m < length table)%nat -> (p < L)%nat ->
  endpoint (table !!! m) = chain_seed (startpoint (table !!! m)) L ->
  memeq hash_len (hash (chain_seed (startpoint (table !!! m)) p)) target = true ->
  searchTable table (Z.of_nat (length table)) (endpoint (table !!! m)) <> Ret None ->
  searchHashInMemory table (Z.of_nat (length table)) L target <> Ret None.
Proof. apply search_hit. Qed.

(** C10: a digest on a chain with a shared endpoint is found, unless
    the lookup faults.
    If the target digest is the digest at some position [p < L] of a
    valid chain of a sorted table, and another record of the table has
    the same endpoint, [searchHashInMemory] returns a seed whose digest
    is the target, or faults reading past the table (the overrun of the
    enumeration, C15); it never reports "not found" (the enumeration of
    section 4.H covers all the records of a duplicated endpoint). *)
Theorem searchHashInMemory_complete_shared table L target m m' p :
  sorted_by_end table -> (1 <= length table)%nat -> Z.of_nat (length table) <= 2 ^ 31 ->
  Z.of_nat L <= 2 ^ 31 -> (m < length table)%nat -> (m' < length table)%nat -> m' <> m ->
  endpoint (table !!! m') = endpoint (table !!! m) -> (p < L)%nat ->
  endpoint (table !!! m) = chain_seed (startpoint (table !!! m)) L ->
  memeq hash_len (hash (chain_seed (startpoint (table !!! m)) p)) target = true ->
  (∃ s, searchHashInMemory table (Z.of_nat (length table)) L target = Ret (Some s) ∧
        memeq hash_len (hash s) target = true) ∨
  searchHashInMemory table (Z.of_nat (length table)) L target = MemFault.
Proof.
  intros Hs Hn1 Hn HL Hm Hm' Hne Hsame HpL Hvalid Hmatch.
  apply search_found_or_fault; [done.. |].
  apply (search_hit table L target m p); [done.. |].
  intros Hr. pose proof (searchTable_spec table (endpoint (table !!! m)) Hs Hn1 Hn) as Hmiss.
  rewrite Hr in Hmiss. destruct (decide (m < m')%nat).
  - by apply (Hmiss m m'); [lia | |].
  - by apply (Hmiss m' m); [lia | |].
Qed.

(** C17: the lookup terminates.
    On a sorted table of [1 <= n <= 2^31] records, every loop of
    [searchHashInMemory] ends: the lookup returns a seed, reports "not
    found", or faults on a read past the mapping, but never runs past
    its iteration bounds. *)
Theorem searchHashInMemory_terminates table L target :
  sorted_by_end table -> (1 <= length table)%nat -> Z.of_nat (length table) <= 2 ^ 31 ->
  searchHashInMemory table (Z.of_nat (length table)) L target <> OutOfFuel.
Proof. apply search_fuel. Qed.

(** C15: the lookup reads past a table that fills whole pages.
    If, in the first column the loop visits ([j = chainLen - 1]), the
    records from the index [searchTable] returns to the last one all
    fail to regenerate the target, those after it share the column's
    endpoint, and the file fills its last page
    ([mapped_records n = n]), the enumeration's test
    [table[index].endpoint == r] reads the record after the last one,
    outside the mapping: the lookup faults instead of going on. *)
Theorem searchHashInMemory_overrun table L target (index : nat) :
  (1 <= L)%nat -> Z.of_nat L <= 2 ^ 31 ->
  mapped_records (length table) = length table ->
  searchTable table (Z.of_nat (length table)) (column_endpoint target L (L - 1)) = Ret (Some (Z.of_nat index)) ->
  (index < length table)%nat ->
  (∀ m, (index <= m < length table)%nat -> regenerateChain (startpoint (table !!! m)) L target = None) ->
  (∀ m, (index < m < length table)%nat -> endpoint (table !!! m) = column_endpoint target L (L - 1)) ->
  searchHashInMemory table (Z.of_nat (length table)) L target = MemFault.
Proof.
  intros HL1 HL Hmap Hs Hi Hreg Hrun. unfold searchHashInMemory. rewrite columns_small by done.
  destruct L as [|L']; [lia |]. rewrite seq_S, rev_app_distr. cbn [rev app search_columns].
  replace (0 + L')%nat with (S L' - 1)%nat by lia.
  unfold search_column. rewrite Hs. cbn [mbind outcome_bind].
  rewrite enum_run_overrun by (done || lia). done.
Qed.

(** C9: a chain only the last record explains is never found.
    On a sorted table of [1 <= n <= 2^31] records, when no record but
    the last has the endpoint any column [j < chainLen] of the target
    reaches, [searchHashInMemory] reports "not found", even when the
    target is a digest on the last chain: [searchTable] never compares
    the last index its search narrows to ([beg < end] stops at
    [beg = end]).  So the start of the chain with the largest endpoint,
    when no other chain shares it, cannot be recovered, against the
    round trip the spec requires (property 3). *)
Theorem lookup_roundtrip_fails table L target :
  sorted_by_end table -> (1 <= length table)%nat -> Z.of_nat (length table) <= 2 ^ 31 ->
  (∀ j m, (j < L)%nat -> (m < length table - 1)%nat ->
     endpoint (table !!! m) <> column_endpoint target L j) ->
  searchHashInMemory table (Z.of_nat (length table)) L target = Ret None.
Proof.
  intros Hs Hn1 Hn Hno. unfold searchHashInMemory. pose proof (columns_lt L) as Hc.
  induction (columns L) as [|j js IH]; [done |]. apply Forall_cons in Hc as [Hj Hc]. simpl.
  unfold search_column. rewrite searchTable_no_match; [| done.. | intros m Hm; by apply Hno].
  cbn [mbind outcome_bind]. by apply IH.
Qed.

End Lookup.

(** A table with a unique endpoint at its last position. *)
Example searchTable_last : searchTable [mkChain 1 5; mkChain 2 7] 2 7 = Ret None.
Proof. vm_compute. reflexivity. Qed.

(** the three-chain scenario of C9.
    With the digest [seed_hash] (a seed's own four bytes), generating the
    chains of length 3 from the starts 10, 20 and 30 and sorting them
    gives endpoints 9, 23, 29; looking up the digest of the start 30
    reports "not found". *)
Example lookup_roundtrip_scenario :
  let table := quickSortTable
    (map (λ s, mkChain s (@chain_seed seed_hash s 3)) [10; 20; 30]) 0 3 in
  map endpoint table = [9; 23; 29] ∧
  @searchHashInMemory seed_hash table 3 3 (le32_bytes 30) = Ret None.
Proof. vm_compute. split; reflexivity. Qed.

(** ** Witnesses *)

Definition wroundtrip : list chain :=
  quickSortTable (map (λ s, mkChain s (@chain_seed seed_hash s 3)) [10; 20; 30]) 0 3.

Lemma lookup_roundtrip_fails_witness :
  sorted_by_end wroundtrip ∧ @hash seed_hash 30 = le32_bytes 30 ∧
  (∀ j m, (j < 3)%nat -> (m < length wroundtrip - 1)%nat ->
     endpoint (wroundtrip !!! m) <> @column_endpoint seed_hash (le32_bytes 30) 3 j) ∧
  @searchHashInMemory seed_hash wroundtrip (Z.of_nat (length wroundtrip)) 3 (le32_bytes 30) = Ret None.
Proof.
  assert (Hs : sorted_by_end wroundtrip) by (apply (bool_decide_unpack _); vm_compute; reflexivity).
  assert (Hno : ∀ j m, (j < 3)%nat -> (m < length wroundtrip - 1)%nat ->
     endpoint (wroundtrip !!! m) <> @column_endpoint seed_hash (le32_bytes 30) 3 j).
  { intros j m Hj Hm. vm_compute in Hm.
    assert (j = 0%nat ∨ j = 1%nat ∨ j = 2%nat) as [-> | [-> | ->]] by lia;
      (assert (m = 0%nat ∨ m = 1%nat) as [-> | ->] by lia); vm_compute; discriminate. }
  split; [done | split; [reflexivity | split; [done |]]].
  exact (@lookup_roundtrip_fails seed_hash wroundtrip 3 (le32_bytes 30) Hs
           ltac:(simpl; lia) ltac:(simpl; lia) Hno).
Defined.

Definition wtable : list chain := map (mkChain 9) [1; 1; 2; 3].

Lemma wtable_sorted : sorted_by_end wtable.
Proof. repeat constructor; unfold end_le; simpl; lia. Qed.

Lemma searchTable_found_witness :
  ∃ k, first_index wtable 2 k ∧ 1 = Z.of_nat (Nat.pred k).
Proof.
  apply searchTable_found; [apply wtable_sorted | simpl; lia | simpl; lia | ].
  vm_compute. reflexivity.
Defined.

Lemma searchTable_miss_witness : at_most_one wtable 3.
Proof.
  apply searchTable_miss; [apply wtable_sorted | simpl; lia | simpl; lia | ].
  vm_compute. reflexivity.
Defined.

Lemma searchTable_total_witness : ∃ res, searchTable wtable (Z.of_nat (length wtable)) 1 = Ret res.
Proof. apply searchTable_total; [apply wtable_sorted | simpl; lia | simpl; lia]. Defined.

Lemma searchHashInMemory_sound_witness :
  memeq 4 (le32_bytes 10) (le32_bytes 10) = true.
Proof.
  apply (@searchHashInMemory_sound seed_hash
           [mkChain 10 9; mkChain 20 23; mkChain 30 29] 3 3 (le32_bytes 10) 10).
  vm_compute. reflexivity.
Defined.

(** A table of two chains of length 2 from the starts 10 and 20. *)
Definition wchains : list chain := [mkChain 10 11; mkChain 20 21].

Lemma wchains_sorted : sorted_by_end wchains.
Proof. repeat constructor; unfold end_le; simpl; lia. Qed.

Lemma searchHashInMemory_complete_witness :
  @searchHashInMemory seed_hash wchains (Z.of_nat (length wchains)) 2 (le32_bytes 10) <> Ret None.
Proof.
  apply (@searchHashInMemory_complete seed_hash wchains 2 (le32_bytes 10) 0 0);
    [apply wchains_sorted | simpl; lia .. | vm_compute; reflexivity | vm_compute; reflexivity
    | vm_compute; discriminate].
Defined.

Definition wshared : list chain := [mkChain 10 11; mkChain 11 11].

Lemma searchHashInMemory_complete_shared_witness :
  (∃ s, @searchHashInMemory seed_hash wshared (Z.of_nat (length wshared)) 2 (le32_bytes 10) = Ret (Some s) ∧
        memeq 4 (le32_bytes s) (le32_bytes 10) = true) ∨
  @searchHashInMemory seed_hash wshared (Z.of_nat (length wshared)) 2 (le32_bytes 10) = MemFault.
Proof.
  apply (@searchHashInMemory_complete_shared seed_hash wshared 2 (le32_bytes 10) 0 1 0);
    [repeat constructor; unfold end_le; simpl; lia | simpl; lia .. | vm_compute; reflexivity
    | simpl; lia | vm_compute; reflexivity | vm_compute; reflexivity].
Defined.

Lemma searchHashInMemory_terminates_witness :
  @searchHashInMemory seed_hash wchains (Z.of_nat (length wchains)) 2 (le32_bytes 99) <> OutOfFuel.
Proof. apply searchHashInMemory_terminates; [apply wchains_sorted | simpl; lia | simpl; lia]. Defined.

(** A hash whose reduction collides: the digest of [s] is its low and
    high 16-bit halves as two words, which [reduce] XORs together. *)
Definition split_hash : HashFunction :=
  {| hash := λ s, le32_bytes (Z.land s 0xFFFF) ++ le32_bytes (Z.shiftr s 16); hash_len := 8 |}.

(** 512 valid chains of length 1 (one 4096-byte page), sorted: the
    starts 0 .. 509, then 0x1FFFE and 0x2FFFD, whose endpoint 0xFFFF is
    also that of the seed 0xFFFF. *)
Definition overrun_table : list chain :=
  map (λ s, mkChain s s) (seqZ 0 510) ++ [mkChain 0x1FFFE 0xFFFF; mkChain 0x2FFFD 0xFFFF].

Lemma searchHashInMemory_overrun_witness :
  Forall (λ c, endpoint c = @chain_seed split_hash (startpoint c) 1) overrun_table ∧
  sorted_by_end overrun_table ∧
  @searchHashInMemory split_hash overrun_table (Z.of_nat (length overrun_table)) 1
    (@hash split_hash 0xFFFF) = MemFault.
Proof.
  split; [apply (bool_decide_unpack _); vm_compute; reflexivity |].
  split; [apply (bool_decide_unpack _); vm_compute; reflexivity |].
  apply (@searchHashInMemory_overrun split_hash overrun_table 1 (@hash split_hash 0xFFFF) 509);
    [lia | lia | vm_compute; reflexivity | vm_compute; reflexivity | vm_compute; lia | |].
  - intros m Hm. vm_compute in Hm.
    assert (m = 509%nat ∨ m = 510%nat ∨ m = 511%nat) as [-> | [-> | ->]] by lia; vm_compute; reflexivity.
  - intros m Hm. vm_compute in Hm.
    assert (m = 510%nat ∨ m = 511%nat) as [-> | ->] by lia; vm_compute; reflexivity.
Defined.
