(* ===== verification/Cmwc.v ===== *)
(** * The start-point generator: complementary multiply-with-carry

    Models src/snowflake/rand.c, lines 1-77: the static state [Q[4096]],
    the carry [c] (initially 362436), the latch [seeded] and the static
    index [i] of [rand_cmwc] (initially 4095); [srand_cmwc] fills [Q]
    from a seed, [custom_seed] seeds from the wall clock
    ([tv_sec ^ tv_usec], the environment value [clock] of the state),
    [rand_cmwc] advances the generator by one step, and [rand_cmwc_r]
    does so under the generator mutex, that is atomically with respect
    to the other threads; it is the [RandSource] the chain generator
    draws its start points from.  [cmwc_step] is the arithmetic of one
    call, compared with the base [2^32 - 1] multiply-with-carry step
    [cmwc_ref]. *)

From stdpp Require Import base list option.
From S2P Require Import Prelude Chain.

Definition PHI : Z := 0x9e3779b9.
Definition CMWC_A : Z := 18782.
Definition CMWC_R : Z := 0xfffffffe.
Definition QSIZE : nat := 4096.

Record cmwc_state := mkCmwc {
  Q : list Z;        (* static uint32_t Q[4096] *)
  carry : Z;         (* static uint32_t c *)
  idx : Z;           (* static uint32_t i of rand_cmwc *)
  seeded : bool;     (* static uint32_t seeded *)
  clock : Z          (* tv.tv_sec ^ tv.tv_usec when custom_seed runs *)
}.

(** The state before the first call. *)
Definition cmwc_init (clk : Z) : cmwc_state :=
  mkCmwc (replicate QSIZE 0) 362436 4095 false clk.

(** [srand_cmwc(x)]: [Q[0..2]], then [Q[i] = Q[i-3] ^ Q[i-2] ^ PHI ^ i]. *)
Definition srand_cmwc (x : Z) (q : list Z) : list Z :=
  let q := <[0%nat := x]> q in
  let q := <[1%nat := wrap32 (x + PHI)]> q in
  let q := <[2%nat := wrap32 (wrap32 (x + PHI) + PHI)]> q in
  fold_left (λ q i, <[i := q !!! (i - 3)%nat ^^ q !!! (i - 2)%nat ^^ PHI ^^ Z.of_nat i]> q)
    (seq 3 (QSIZE - 3)) q.

Arguments srand_cmwc : simpl never.

(** [custom_seed()]. *)
Definition custom_seed (st : cmwc_state) : cmwc_state :=
  mkCmwc (srand_cmwc (wrap32 (clock st)) (Q st)) (carry st) (idx st) true (clock st).

(** The arithmetic of [rand_cmwc] on the word [q = Q[i]] and the carry
    [c]: [t = a * q + c] in 64 bits, the new carry [t >> 32], the digit
    [x = t + c] in 32 bits, corrected when that sum wraps, and the
    value [r - x] stored back in [Q[i]]; the value and the new carry. *)
Definition cmwc_step (q c : Z) : Z * Z :=
  let t := CMWC_A * q + c in
  let c := Z.shiftr t 32 in
  let x := wrap32 (t + c) in
  let '(x, c) := if decide (x < c) then (wrap32 (x + 1), wrap32 (c + 1)) else (x, c) in
  (wrap32 (CMWC_R - x), c).

(** The reference: one step of Marsaglia's complementary
    multiply-with-carry generator with base [b = 2^32 - 1], the
    generator of the Wikipedia article rand.c cites: with
    [t = a * q + c], the digit is [t mod b], the value [(b - 1)] minus
    it, and the carry [t / b]. *)
Definition CMWC_B : Z := 2 ^ 32 - 1.

Definition cmwc_ref (q c : Z) : Z * Z :=
  let t := CMWC_A * q + c in ((CMWC_B - 1) - t mod CMWC_B, t / CMWC_B).

(** [rand_cmwc()]: the value returned and the next state. *)
Definition rand_cmwc (st : cmwc_state) : Z * cmwc_state :=
  let st := if seeded st then st else custom_seed st in
  let i := Z.land (idx st + 1) 4095 in
  let '(v, c) := cmwc_step (Q st !!! Z.to_nat i) (carry st) in
  (v, mkCmwc (<[Z.to_nat i := v]> (Q st)) c i (seeded st) (clock st)).

(** [rand_cmwc_r()]: the same step under the generator mutex. *)
#[export] Instance rand_cmwc_r : RandSource cmwc_state := rand_cmwc.

(** The generator's state invariant: a full array of 32-bit words, an
    index into it and a 32-bit carry. *)
Definition cmwc_wf (st : cmwc_state) : Prop :=
  length (Q st) = QSIZE ∧ Forall u32 (Q st) ∧ 0 <= idx st < 4096 ∧ u32 (carry st).

(** The states the generator goes through, from the initial state. *)
Inductive cmwc_reachable : cmwc_state -> Prop :=
  | reach_init clk : cmwc_reachable (cmwc_init clk)
  | reach_step st : cmwc_reachable st -> cmwc_reachable (rand_cmwc st).2.

(** ** Lemmas *)

Lemma srand_cmwc_length x q : length (srand_cmwc x q) = length q.
Proof.
  unfold srand_cmwc.
  apply (fold_left_invariant (λ q', length q' = length q)); [by rewrite !length_insert |].
  intros q' i _ Hl. by rewrite length_insert.
Qed.

Lemma srand_cmwc_u32 x q :
  u32 x -> Forall u32 q -> (3 <= length q)%nat -> Forall u32 (srand_cmwc x q).
Proof.
  intros Hx Hq Hl. unfold srand_cmwc.
  apply (fold_left_invariant (λ q', Forall u32 q' ∧ (3 <= length q')%nat)); [split; [auto with snow | by rewrite !length_insert] |].
  intros q' i Hi [Hq' Hl']. apply elem_of_seq in Hi. split; [| by rewrite length_insert].
  apply Forall_u32_insert; [done |].
  repeat apply lxor_u32; try (by apply Forall_u32_lookup); unfold PHI, QSIZE in *; u32_solve.
Qed.

(** The carry after one step is at most the multiplier, whatever the
    32-bit carry before it, and the value is a 32-bit word. *)
Lemma carry_step_bound q c0 :
  u32 q -> u32 c0 ->
  (cmwc_step q c0).2 <= CMWC_A ∧ u32 (cmwc_step q c0).2 ∧ u32 (cmwc_step q c0).1.
Proof.
  intros Hq Hc. unfold cmwc_step. cbv zeta. unfold u32, two32, CMWC_A in *.
  rewrite Z.shiftr_div_pow2 by lia.
  case_decide as Hlt; simpl; (split; [| split; [| apply wrap32_range]]);
    unfold wrap32, two32 in *.
  - assert ((18782 * q + c0) / 2 ^ 32 < 18782) by (revert Hlt; zlia).
    rewrite Z.mod_small; zlia.
  - assert ((18782 * q + c0) / 2 ^ 32 < 18782) by (revert Hlt; zlia).
    rewrite Z.mod_small; zlia.
  - zlia.
  - zlia.
Qed.

Lemma land_4095 z : 0 <= z -> Z.land z 4095 = z mod 4096.
Proof. intros. change 4095 with (Z.ones 12). rewrite Z.land_ones by lia. reflexivity. Qed.

Lemma custom_seed_wf st : cmwc_wf st -> cmwc_wf (custom_seed st).
Proof.
  intros (Hl & Hq & Hi & Hc). unfold custom_seed, cmwc_wf; cbn [Q carry idx seeded clock].
  split_and!; [by rewrite srand_cmwc_length | | lia | lia | done].
  apply srand_cmwc_u32; [apply wrap32_range | done | rewrite Hl; unfold QSIZE; lia].
Qed.

Lemma rand_cmwc_step st :
  cmwc_wf st ->
  cmwc_wf (rand_cmwc st).2 ∧ carry (rand_cmwc st).2 <= CMWC_A ∧
  u32 (rand_cmwc st).1 ∧ seeded (rand_cmwc st).2 = true.
Proof.
  intros Hwf.
  assert (Hwf1 : cmwc_wf (if seeded st then st else custom_seed st))
    by (destruct (seeded st); [done | by apply custom_seed_wf]).
  assert (Hs1 : seeded (if seeded st then st else custom_seed st) = true)
    by (destruct (seeded st) eqn:E; [done | reflexivity]).
  unfold rand_cmwc. revert Hwf1 Hs1. generalize (if seeded st then st else custom_seed st).
  intros [q c0 i0 sd clk] (Hl & Hq & Hi & Hc) Hs; simpl in *.
  rewrite land_4095 by lia.
  assert (Hqi : u32 (q !!! Z.to_nat ((i0 + 1) mod 4096))) by (by apply Forall_u32_lookup).
  pose proof (carry_step_bound _ _ Hqi Hc) as (Hb & Hu & Hv).
  destruct (cmwc_step _ _) as [v c] eqn:E; simpl in *.
  split_and!; try done. unfold cmwc_wf; simpl; split_and!; try done.
  - by rewrite length_insert.
  - by apply Forall_u32_insert.
  - pose proof (Z.mod_pos_bound (i0 + 1) 4096); lia.
  - pose proof (Z.mod_pos_bound (i0 + 1) 4096); lia.
Qed.

(** Every value [rand_cmwc] returns is a 32-bit word, from any state. *)
Lemma rand_cmwc_u32 st : u32 (rand_cmwc st).1.
Proof.
  unfold rand_cmwc, cmwc_step. destruct (seeded st); cbn zeta;
    repeat case_decide; simpl; apply wrap32_range.
Qed.

(** Division by the base from an explicit quotient and remainder. *)
Lemma divmod_B t k r : 0 <= r < CMWC_B -> t = k * CMWC_B + r -> t / CMWC_B = k ∧ t mod CMWC_B = r.
Proof.
  intros Hr ->. unfold CMWC_B in *.
  split; symmetry; [apply Z.div_unique_pos with r | apply Z.mod_unique_pos with k]; lia.
Qed.

(** ** Theorems *)

(** the generator's carry stays below the multiplier.
    Whatever the 32-bit carry before a call of [rand_cmwc] (initially
    362436), the carry after it is at most [a = 18782], and the state
    keeps a full array of 32-bit words, an index into it and a 32-bit
    carry. *)
Theorem rand_cmwc_carry_bound st :
  cmwc_wf st -> cmwc_wf (rand_cmwc st).2 ∧ carry (rand_cmwc st).2 <= CMWC_A.
Proof. intros Hwf. by destruct (rand_cmwc_step st Hwf) as (? & ? & _). Qed.

(** C30: the step is the base [2^32 - 1] multiply-with-carry, but
    for one digit.
    For a 32-bit word [q] and carry [c], let [t = a * q + c]. When the
    two 32-bit halves of [t] do not add up to [b = 2^32 - 1],
    [rand_cmwc]'s arithmetic returns Marsaglia's value [(b - 1) - t mod b]
    and carry [t / b]. When they add up to [b] exactly ([t] a multiple
    of [b]), it keeps the digit [b] instead of [0]: it returns
    [0xffffffff], which the reference never returns, and the carry
    [t / b - 1]. *)
Theorem cmwc_step_ref q c :
  u32 q -> u32 c ->
  let t := CMWC_A * q + c in
  cmwc_step q c =
    if decide (t mod 2 ^ 32 + t / 2 ^ 32 = CMWC_B) then (0xffffffff, t / CMWC_B - 1)
    else cmwc_ref q c.
Proof.
  intros Hq Hc t. unfold cmwc_step, cmwc_ref. fold t. cbv zeta.
  rewrite Z.shiftr_div_pow2 by lia.
  assert (Ht : t = t / 2 ^ 32 * 2 ^ 32 + t mod 2 ^ 32) by (rewrite Z.mul_comm; apply Z.div_mod; lia).
  pose proof (Z.mod_pos_bound t (2 ^ 32) ltac:(lia)).
  assert (Hh : 0 <= t / 2 ^ 32 <= CMWC_A).
  { unfold t, u32, two32, CMWC_A in *. split; [apply Z.div_pos |]; zlia. }
  set (h := t / 2 ^ 32) in *. set (l := t mod 2 ^ 32) in *.
  unfold CMWC_A, CMWC_B, CMWC_R, wrap32, two32 in *.
  assert (Hs : (t + h) mod 2 ^ 32 = if decide (l + h < 2 ^ 32) then l + h else l + h - 2 ^ 32).
  { case_decide; symmetry; [apply Z.mod_unique_pos with h | apply Z.mod_unique_pos with (h + 1)]; lia. }
  rewrite Hs. destruct (decide (l + h < 2 ^ 32)) as [Hn | Hn].
  - destruct (divmod_B t (if decide (l + h = 2 ^ 32 - 1) then h + 1 else h)
                         (if decide (l + h = 2 ^ 32 - 1) then 0 else l + h)) as [Hd Hm];
      [unfold CMWC_B; case_decide; lia | unfold CMWC_B; case_decide; lia |].
    unfold CMWC_B in Hd, Hm. rewrite Hd, Hm.
    destruct (decide (l + h < h)); [lia |].
    destruct (decide (l + h = 2 ^ 32 - 1)) as [E |]; f_equal; try lia.
    + by rewrite E.
    + rewrite Z.mod_small; lia.
  - destruct (divmod_B t (h + 1) (l + h - 2 ^ 32 + 1)) as [Hd Hm]; [unfold CMWC_B; lia | unfold CMWC_B; lia |].
    unfold CMWC_B in Hd, Hm. rewrite Hd, Hm.
    destruct (decide (l + h - 2 ^ 32 < h)); [| lia].
    destruct (decide (l + h = 2 ^ 32 - 1)); [lia |].
    rewrite (Z.mod_small (l + h - 2 ^ 32 + 1)), (Z.mod_small (h + 1)), Z.mod_small by lia.
    f_equal; lia.
Qed.

(** C29: every reachable generator state is well formed.
    Every state reached from the initial state by calls of
    [rand_cmwc] satisfies the invariant, and once the generator has
    been seeded (by its first call) its carry is at most 18782. *)
Theorem cmwc_reachable_inv st :
  cmwc_reachable st -> cmwc_wf st ∧ (seeded st = true -> carry st <= CMWC_A).
Proof.
  induction 1 as [clk | st _ [Hwf _]].
  - split; [| discriminate]. unfold cmwc_wf, cmwc_init; cbn [Q carry idx seeded].
    split_and!; [by rewrite length_replicate | | lia | lia | u32_solve].
    apply Forall_replicate. u32_solve.
  - destruct (rand_cmwc_step st Hwf) as (? & ? & _). auto.
Qed.

(** the first draws of a seeded generator.
    From the initial state with clock value 12345, the first call seeds
    [Q] with [12345, 12345 + PHI, ...] and returns
    [0xfffffffe - (18782 * 12345 + 362436)] = 4062741068. *)
Example rand_cmwc_first : (rand_cmwc (cmwc_init 12345)).1 = 4062741068.
Proof. vm_compute. reflexivity. Qed.

(** The odd digit is reached: seeded by the clock value 2043436662,
    the first draw has [t = 18782 * 2043436662 + 362436], a multiple of
    [b], and [rand_cmwc] returns [0xffffffff] with carry 8935, as the
    compiled C does; the reference generator never returns
    [0xffffffff]. *)
Example rand_cmwc_noncanonical :
  (rand_cmwc (cmwc_init 2043436662)).1 = 0xffffffff ∧
  carry (rand_cmwc (cmwc_init 2043436662)).2 = 8935 ∧
  ∀ q c, 0 <= (cmwc_ref q c).1 <= 0xfffffffe.
Proof.
  split; [vm_compute; reflexivity | split; [vm_compute; reflexivity |]].
  intros q c. unfold cmwc_ref, CMWC_B. cbn [fst].
  pose proof (Z.mod_pos_bound (CMWC_A * q + c) (2 ^ 32 - 1) ltac:(lia)). lia.
Qed.

(** ** Witnesses *)

Lemma rand_cmwc_carry_bound_witness :
  cmwc_wf (rand_cmwc (cmwc_init 7)).2 ∧ carry (rand_cmwc (cmwc_init 7)).2 <= CMWC_A.
Proof.
  apply rand_cmwc_carry_bound. unfold cmwc_wf, cmwc_init; cbn [Q carry idx seeded].
  split_and!; [by rewrite length_replicate | apply Forall_replicate; u32_solve | lia | lia | u32_solve].
Defined.

Lemma cmwc_reachable_inv_witness :
  cmwc_wf (cmwc_init 7) ∧ (seeded (cmwc_init 7) = true -> carry (cmwc_init 7) <= CMWC_A).
Proof. apply cmwc_reachable_inv. constructor. Defined.

Lemma cmwc_step_ref_witness :
  u32 2043436662 ∧ u32 362436 ∧
  cmwc_step 2043436662 362436 =
    (let t := CMWC_A * 2043436662 + 362436 in
     if decide (t mod 2 ^ 32 + t / 2 ^ 32 = CMWC_B) then (0xffffffff, t / CMWC_B - 1)
     else cmwc_ref 2043436662 362436).
Proof.
  assert (H1 : u32 2043436662) by u32_solve. assert (H2 : u32 362436) by u32_solve.
  exact (conj H1 (conj H2 (cmwc_step_ref _ _ H1 H2))).
Defined.
