(* ===== verification/Generator.v ===== *)
(** * The generator pool: workers appending chains under a mutex

    Models [chainGenerationWorker] (main source, lines 197-224) and
    [createRainbowTable] (lines 231-289).  The orchestrator opens the
    table file, starts [threadNum] workers (the number of online
    processors, or 1), gives each the quota [chainNum / threadNum] (the
    last one also the remainder), and joins them, failing when any
    worker failed.  A worker produces its quota in buckets of
    [WORKER_BUFFER_SIZE] chains: it fills its local buffer one chain at
    a time (each chain's start comes from [rand_cmwc_r], which holds the
    generator mutex), then appends the buffer to the shared file under
    the writer mutex with [fwrite], returning -1 on a short write.

    The interleaving is a step relation [pool_step] on a configuration
    made of the shared generator state, the shared file, the writer
    mutex (the worker holding it, if any) and the local state of every
    worker.  Each step is one atomic action of one worker: generating a
    chain (the generator call is under its own mutex and the walk is
    thread-local), [pthread_mutex_lock] (enabled only while no worker
    holds the mutex), an [fwrite] of the whole buffer followed by the
    unlock (or a short [fwrite], the unlock and [return -1]), or the
    worker's return.  The order of the records in the file depends on
    the schedule, as the spec allows. *)

From stdpp Require Import base list option relations list_numbers.
From S2P Require Import Prelude Hash Table Chain Cmwc.

Definition WORKER_BUFFER_SIZE : nat := 8192.

(** The number of iterations of the worker's outer loop, and the size
    [chainsLeft] of its [i]-th bucket. *)
Definition buckets (chainNum : nat) : nat := (chainNum / WORKER_BUFFER_SIZE + 1)%nat.

Definition chainsLeft (chainNum i : nat) : nat :=
  if decide (i < chainNum / WORKER_BUFFER_SIZE)%nat then WORKER_BUFFER_SIZE
  else (chainNum mod WORKER_BUFFER_SIZE)%nat.

(** [threadNum]: [sysconf(_SC_NPROCESSORS_ONLN)] (a [long]) stored in an
    [unsigned int], or 1 when it is not positive. *)
Definition threadNum (conf : Z) : nat := if decide (conf <= 0) then 1%nat else Z.to_nat (wrap32 conf).

(** [args[i].chainNum]. *)
Definition quota (chainNum T i : nat) : nat :=
  if decide (i < T - 1)%nat then (chainNum / T)%nat else (chainNum / T + chainNum mod T)%nat.

(** A worker: its quota ([data->chainNum]), the bucket index [i] of its
    outer loop, the chains [buffer[0..j)] it has produced for the
    current bucket, and where it is: running its loops, holding the
    writer mutex before its [fwrite], or returned (with 0 or -1). *)
Inductive wstatus := Running | Locked | Returned (ret : Z).

#[export] Instance wstatus_eq_dec : EqDecision wstatus.
Proof. solve_decision. Defined.

Record worker := mkWorker {
  w_chainNum : nat;
  w_i : nat;
  w_buffer : list chain;
  w_status : wstatus
}.

(** The shared state: the generator, the table file, the writer mutex
    (the worker that holds it, if any) and the workers. *)
Record pool (St : Type) := mkPool {
  p_rng : St;
  p_file : list chain;
  p_mutex : option nat;
  p_workers : list worker
}.
Arguments mkPool {St}.
Arguments p_rng {St}.
Arguments p_file {St}.
Arguments p_mutex {St}.
Arguments p_workers {St}.

Section Pool.
Context `{HashFunction} {St : Type} `{RandSource St}.
Variable chainLen : nat.

Inductive pool_step : pool St -> pool St -> Prop :=
  (** [buffer[j] = generateChain(...)] for [j < chainsLeft]. *)
  | step_generate rng file mx ws k w c rng' :
      ws !! k = Some w -> w_status w = Running ->
      (w_i w < buckets (w_chainNum w))%nat ->
      (length (w_buffer w) < chainsLeft (w_chainNum w) (w_i w))%nat ->
      generateChain chainLen rng = (c, rng') ->
      pool_step (mkPool rng file mx ws)
        (mkPool rng' file mx (<[k := mkWorker (w_chainNum w) (w_i w) (w_buffer w ++ [c]) Running]> ws))
  (** [pthread_mutex_lock(&mutex)] once the bucket is full: only when no
      worker holds the mutex. *)
  | step_lock rng file ws k w :
      ws !! k = Some w -> w_status w = Running ->
      (w_i w < buckets (w_chainNum w))%nat ->
      length (w_buffer w) = chainsLeft (w_chainNum w) (w_i w) ->
      pool_step (mkPool rng file None ws)
        (mkPool rng file (Some k) (<[k := mkWorker (w_chainNum w) (w_i w) (w_buffer w) Locked]> ws))
  (** [fwrite] of the whole bucket, [pthread_mutex_unlock(&mutex)], then
      the next bucket. *)
  | step_write rng file mx ws k w :
      ws !! k = Some w -> w_status w = Locked ->
      pool_step (mkPool rng file mx ws)
        (mkPool rng (file ++ w_buffer w) None
           (<[k := mkWorker (w_chainNum w) (S (w_i w)) [] Running]> ws))
  (** A short [fwrite]: only [m < chainsLeft] records reach the file;
      the worker unlocks the mutex and returns -1. *)
  | step_write_short rng file mx ws k w m :
      ws !! k = Some w -> w_status w = Locked ->
      (m < length (w_buffer w))%nat ->
      pool_step (mkPool rng file mx ws)
        (mkPool rng (file ++ take m (w_buffer w)) None
           (<[k := mkWorker (w_chainNum w) (w_i w) (w_buffer w) (Returned (-1))]> ws))
  (** The loop is over: [return (void * )0]. *)
  | step_return rng file mx ws k w :
      ws !! k = Some w -> w_status w = Running ->
      w_i w = buckets (w_chainNum w) ->
      pool_step (mkPool rng file mx ws)
        (mkPool rng file mx (<[k := mkWorker (w_chainNum w) (w_i w) (w_buffer w) (Returned 0)]> ws)).

(** The configuration right after the [pthread_create] loop of
    [createRainbowTable]: an empty file ([fopen(tableName, "w")]) and
    [T] workers with their quotas. *)
Definition init_pool (rng : St) (chainNum T : nat) : pool St :=
  mkPool rng [] None (map (λ i, mkWorker (quota chainNum T i) 0 [] Running) (seq 0 T)).

(** A worker that has not returned. *)
Definition running (w : worker) : bool := if w_status w is Returned _ then false else true.

(** All workers have returned: the [pthread_join] loop is over. *)
Definition joined (cfg : pool St) : Prop :=
  Forall (λ w, running w = false) (p_workers cfg).

(** A worker that returned a non-zero value. *)
Definition failed (w : worker) : bool :=
  if w_status w is Returned r then bool_decide (r <> 0) else false.

(** [status |= (int)ret] over the joined workers, then [-1] or [1]. *)
Definition pool_result (cfg : pool St) : Z :=
  if existsb failed (p_workers cfg) then -1 else 1.

(** [createRainbowTable]: the return value and the table file it leaves
    ([None] when [fopen] fails).  A failed [malloc] returns -1 after the
    file has been truncated; otherwise the workers run under some
    schedule until all have been joined. *)
Inductive createRainbowTable (chainNum : nat) (conf : Z) (rng : St)
    : Z -> option (list chain) -> Prop :=
  | create_fopen_fail : createRainbowTable chainNum conf rng (-1) None
  | create_malloc_fail : createRainbowTable chainNum conf rng (-1) (Some [])
  | create_run cfg :
      rtc pool_step (init_pool rng chainNum (threadNum conf)) cfg -> joined cfg ->
      createRainbowTable chainNum conf rng (pool_result cfg) (Some (p_file cfg)).

(** The one action a worker takes next when every [fwrite] succeeds:
    a deterministic scheduler step for worker [k] ([None] when it has
    returned, or waits for the mutex). *)
Definition exec_step (cfg : pool St) (k : nat) : option (pool St) :=
  match p_workers cfg !! k with
  | Some (mkWorker n i buf Running) =>
      if decide (i < buckets n)%nat then
        if decide (length buf < chainsLeft n i)%nat then
          let '(c, rng') := generateChain chainLen (p_rng cfg) in
          Some (mkPool rng' (p_file cfg) (p_mutex cfg) (<[k := mkWorker n i (buf ++ [c]) Running]> (p_workers cfg)))
        else if p_mutex cfg is None then
          Some (mkPool (p_rng cfg) (p_file cfg) (Some k) (<[k := mkWorker n i buf Locked]> (p_workers cfg)))
        else None
      else
        Some (mkPool (p_rng cfg) (p_file cfg) (p_mutex cfg)
                (<[k := mkWorker n i buf (Returned 0)]> (p_workers cfg)))
  | Some (mkWorker n i buf Locked) =>
      Some (mkPool (p_rng cfg) (p_file cfg ++ buf) None (<[k := mkWorker n (S i) [] Running]> (p_workers cfg)))
  | _ => None
  end.

(** A schedule: the workers that take the successive steps. *)
Fixpoint run_schedule (sched : list nat) (cfg : pool St) : option (pool St) :=
  match sched with
  | [] => Some cfg
  | k :: sched' => cfg' ← exec_step cfg k; run_schedule sched' cfg'
  end.

(** ** Invariant and measure *)

(** A record the generator produced: its end is the seed [chainLen]
    rounds after its start. *)
Definition chain_valid (c : chain) : Prop := endpoint c = chain_seed (startpoint c) chainLen.

(** The records a worker has written by the end of bucket [w_i], and the
    most it may have written once a short write made it fail. *)
Definition done_count (w : worker) : nat :=
  sum_list_with (chainsLeft (w_chainNum w)) (seq 0 (w_i w)).

Definition cap_count (w : worker) : nat :=
  (done_count w + if failed w then chainsLeft (w_chainNum w) (w_i w) else 0)%nat.

Definition worker_inv (w : worker) : Prop :=
  (w_i w <= buckets (w_chainNum w))%nat ∧
  (length (w_buffer w) <= chainsLeft (w_chainNum w) (w_i w))%nat ∧
  Forall chain_valid (w_buffer w) ∧
  (w_status w = Returned 0 -> w_i w = buckets (w_chainNum w)) ∧
  (failed w -> w_i w < buckets (w_chainNum w))%nat ∧
  (w_status w = Locked ->
     w_i w < buckets (w_chainNum w) ∧ length (w_buffer w) = chainsLeft (w_chainNum w) (w_i w))%nat.

Definition pool_inv (chainNum : nat) (cfg : pool St) : Prop :=
  Forall worker_inv (p_workers cfg) ∧
  sum_list_with w_chainNum (p_workers cfg) = chainNum ∧
  Forall chain_valid (p_file cfg) ∧
  (sum_list_with done_count (p_workers cfg) <= length (p_file cfg)
     <= sum_list_with cap_count (p_workers cfg))%nat.

(** The mutex is held by exactly the worker that is between its
    [pthread_mutex_lock] and its [fwrite]. *)
Definition mutex_inv (cfg : pool St) : Prop :=
  ∀ k, p_mutex cfg = Some k <-> ∃ w, p_workers cfg !! k = Some w ∧ w_status w = Locked.

(** The steps a worker has left: per bucket one per chain, one
    [pthread_mutex_lock] and one [fwrite]; then the return.  Once it
    holds the mutex, the [fwrite] of its bucket and the later buckets
    are left. *)
Definition work (w : worker) : nat :=
  match w_status w with
  | Running =>
      (sum_list_with (λ b, S (S (chainsLeft (w_chainNum w) b)))
         (seq (w_i w) (buckets (w_chainNum w) - w_i w)) - length (w_buffer w) + 1)%nat
  | Locked =>
      (sum_list_with (λ b, S (S (chainsLeft (w_chainNum w) b)))
         (seq (S (w_i w)) (buckets (w_chainNum w) - S (w_i w))) + 2)%nat
  | Returned _ => 0%nat
  end.

Definition pool_measure (cfg : pool St) : nat := sum_list_with work (p_workers cfg).

End Pool.

(** ** Lemmas *)

Lemma chainsLeft_le n i : (chainsLeft n i <= WORKER_BUFFER_SIZE)%nat.
Proof.
  unfold chainsLeft. case_decide; [lia |].
  pose proof (Nat.mod_upper_bound n WORKER_BUFFER_SIZE ltac:(discriminate)). lia.
Qed.

Lemma done_count_full n : sum_list_with (chainsLeft n) (seq 0 (buckets n)) = n.
Proof.
  unfold buckets. rewrite Nat.add_1_r, sum_list_with_seq_last.
  rewrite (sum_list_with_seq_const _ WORKER_BUFFER_SIZE) by (intros i Hi; unfold chainsLeft; by case_decide).
  unfold chainsLeft. case_decide; [lia |].
  pose proof (Nat.div_mod_eq n WORKER_BUFFER_SIZE). lia.
Qed.

Lemma done_count_le n j :
  (j <= buckets n)%nat -> (sum_list_with (chainsLeft n) (seq 0 j) <= n)%nat.
Proof.
  intros Hj. rewrite <- (done_count_full n) at 2.
  replace (buckets n) with (j + (buckets n - j))%nat by lia.
  rewrite seq_app, sum_list_with_app. lia.
Qed.

Lemma quota_sum n T : (1 <= T)%nat -> sum_list_with (quota n T) (seq 0 T) = n.
Proof.
  intros HT. destruct T as [|T]; [lia |].
  rewrite sum_list_with_seq_last, (sum_list_with_seq_const _ (n / S T)).
  - unfold quota. case_decide; [lia |]. pose proof (Nat.div_mod_eq n (S T)). lia.
  - intros i Hi. unfold quota. case_decide; [done | lia].
Qed.

Lemma sum_list_with_seq_cons (g : nat -> nat) i b :
  (i < b)%nat -> sum_list_with g (seq i (b - i)) = (g i + sum_list_with g (seq (S i) (b - S i)))%nat.
Proof. intros Hi. replace (b - i)%nat with (S (b - S i)) by lia. reflexivity. Qed.

Section PoolProofs.
Context `{HashFunction} {St : Type} `{RandSource St}.
Variable chainLen : nat.

Lemma failed_running w : running w = true -> failed w = false.
Proof. unfold failed, running. by destruct (w_status w). Qed.

(** Which workers hold the mutex after one worker is replaced. *)
Lemma locked_insert (ws : list worker) k w w' k' :
  ws !! k = Some w ->
  (∃ u, <[k := w']> ws !! k' = Some u ∧ w_status u = Locked) <->
  (if decide (k' = k) then w_status w' = Locked else ∃ u, ws !! k' = Some u ∧ w_status u = Locked).
Proof.
  intros Hk. case_decide; subst.
  - rewrite list_lookup_insert_eq by (apply lookup_lt_Some in Hk; lia).
    split; [by intros (u & [= <-] & ?) | eauto].
  - by rewrite list_lookup_insert_ne.
Qed.

Lemma generateChain_valid (rng rng' : St) c :
  generateChain chainLen rng = (c, rng') -> chain_valid chainLen c.
Proof.
  unfold generateChain. destruct (rand_next rng) as [s st']. intros [= <- _]. reflexivity.
Qed.

Lemma done_count_next n i buf st :
  done_count (mkWorker n (S i) buf st) = (done_count (mkWorker n i [] Running) + chainsLeft n i)%nat.
Proof. apply sum_list_with_seq_last. Qed.

(** Replacing one worker keeps the pool invariant when the file grows
    by at least what the worker's count grew by and at most what its
    bound grew by. *)
Lemma pool_inv_replace n (rng rng' : St) file file' mx mx' ws k w w' :
  pool_inv chainLen n (mkPool rng file mx ws) -> ws !! k = Some w ->
  worker_inv chainLen w' -> w_chainNum w' = w_chainNum w -> Forall (chain_valid chainLen) file' ->
  (done_count w' + length file <= done_count w + length file')%nat ->
  (length file' + cap_count w <= length file + cap_count w')%nat ->
  pool_inv chainLen n (mkPool rng' file' mx' (<[k := w']> ws)).
Proof.
  intros (Hw & Hn & _ & Hd & Hc) Hk Hw' Hnum Hf Hle1 Hle2; simpl in *.
  pose proof (sum_list_with_insert w_chainNum ws k w w' Hk).
  pose proof (sum_list_with_insert done_count ws k w w' Hk).
  pose proof (sum_list_with_insert cap_count ws k w w' Hk).
  split_and!; simpl; [by apply Forall_insert | lia | done | lia | lia].
Qed.

Lemma pool_step_inv n cfg cfg' :
  pool_inv chainLen n cfg -> pool_step chainLen cfg cfg' -> pool_inv chainLen n cfg'.
Proof.
  intros Hinv Hstep. pose proof Hinv as (Hw & _ & Hf & _).
  destruct Hstep as [rng file mx ws k w c rng' Hk Hr Hi Hl Hg |rng file ws k w Hk Hr Hi Hl
                    |rng file mx ws k w Hk Hr |rng file mx ws k w m Hk Hr Hm |rng file mx ws k w Hk Hr Hi];
    simpl in Hw, Hf; pose proof (proj1 (Forall_lookup _ _) Hw k w Hk) as (Hwi & Hwl & Hwv & _ & _ & HL);
    assert (Hnf : failed w = false) by (unfold failed; by rewrite Hr);
    destruct w as [n0 i0 buf0 st0]; simpl in *; subst st0.
  - eapply pool_inv_replace; [exact Hinv | exact Hk | | reflexivity | done | unfold done_count; simpl; lia
                               | unfold cap_count, done_count; simpl; lia].
    split_and!; simpl; try done; try lia.
    + rewrite length_app. simpl. lia.
    + apply Forall_app. split; [done |]. constructor; [| done]. by eapply generateChain_valid.
  - eapply pool_inv_replace; [exact Hinv | exact Hk | | reflexivity | done | unfold done_count; simpl; lia
                               | unfold cap_count, done_count; simpl; lia].
    split_and!; simpl; try done; lia.
  - destruct (HL eq_refl) as [Hi Hl].
    eapply pool_inv_replace; [exact Hinv | exact Hk | | reflexivity | by apply Forall_app | |].
    + split_and!; simpl; try done; lia.
    + rewrite done_count_next, length_app. unfold done_count. simpl. lia.
    + rewrite length_app. unfold cap_count, done_count. cbn [w_i w_chainNum w_status].
      rewrite sum_list_with_seq_last. simpl. lia.
  - destruct (HL eq_refl) as [Hi Hl].
    eapply pool_inv_replace; [exact Hinv | exact Hk | | reflexivity | | |].
    + split_and!; simpl; try done; lia.
    + apply Forall_app. split; [done |]. by apply Forall_take.
    + rewrite length_app, length_take. unfold done_count. simpl. lia.
    + rewrite length_app, length_take. unfold cap_count, done_count. simpl. lia.
  - eapply pool_inv_replace; [exact Hinv | exact Hk | | reflexivity | done | unfold done_count; simpl; lia
                               | unfold cap_count, done_count; simpl; lia].
    split_and!; simpl; try done; lia.
Qed.

(** Every step keeps the mutex with the one worker in [Locked]. *)
Lemma mutex_inv_step cfg cfg' : mutex_inv cfg -> pool_step chainLen cfg cfg' -> mutex_inv cfg'.
Proof.
  intros Hm Hs. destruct Hs as [rng file mx ws k w c rng' Hk Hr |rng file ws k w Hk Hr
                               |rng file mx ws k w Hk Hr |rng file mx ws k w m Hk Hr |rng file mx ws k w Hk Hr];
    unfold mutex_inv in *; simpl in *; intros k'; rewrite locked_insert by done;
    pose proof (Hm k) as Hmk; pose proof (Hm k') as Hmk'; case_decide; subst; simpl.
  (* a chain generated: the worker keeps running *)
  - split; [| discriminate]. intros (u & Hu & Hs')%Hmk. simplify_eq. congruence.
  - done.
  (* pthread_mutex_lock: the mutex was free and goes to the worker *)
  - done.
  - split; [congruence |]. intros Hl%Hmk'. discriminate.
  (* fwrite and unlock *)
  - split; discriminate.
  - split; [discriminate |]. intros Hl%Hmk'. rewrite (proj2 Hmk) in Hl by eauto. congruence.
  (* short fwrite, unlock and return -1 *)
  - split; discriminate.
  - split; [discriminate |]. intros Hl%Hmk'. rewrite (proj2 Hmk) in Hl by eauto. congruence.
  (* return 0 *)
  - split; [| discriminate]. intros (u & Hu & Hs')%Hmk. simplify_eq. congruence.
  - done.
Qed.

Lemma pool_rtc_inv n cfg cfg' :
  pool_inv chainLen n cfg -> rtc (pool_step chainLen) cfg cfg' -> pool_inv chainLen n cfg'.
Proof. intros Hinv Hr. induction Hr; eauto using pool_step_inv. Qed.

Lemma mutex_rtc_inv cfg cfg' :
  mutex_inv cfg -> rtc (pool_step chainLen) cfg cfg' -> mutex_inv cfg'.
Proof. intros Hinv Hr. induction Hr; eauto using mutex_inv_step. Qed.

Lemma init_mutex_inv (rng : St) n T : mutex_inv (init_pool rng n T).
Proof.
  intros k. unfold init_pool; simpl. split; [discriminate |]. intros (w & Hw & Hs).
  apply list_elem_of_lookup_2, list_elem_of_In, in_map_iff in Hw as (i & <- & _). discriminate.
Qed.

Lemma init_pool_inv (rng : St) n T : (1 <= T)%nat -> pool_inv chainLen n (init_pool rng n T).
Proof.
  intros HT. unfold init_pool, pool_inv; simpl. split; [| split; [| split; [constructor |]]].
  - apply Forall_map, Forall_forall. intros i _. split_and!; simpl; try done; unfold buckets; lia.
  - rewrite sum_list_with_map. simpl. by apply quota_sum.
  - rewrite sum_list_with_map. unfold done_count. simpl. induction (seq 0 T); simpl; lia.
Qed.

(** Every worker that has not failed has written at most its quota;
    one that returned 0 has written exactly its quota. *)
Lemma cap_count_le w : worker_inv chainLen w -> (cap_count w <= w_chainNum w)%nat.
Proof.
  intros (Hi & _ & _ & _ & Hf & _). unfold cap_count, done_count. destruct (failed w).
  - rewrite <- sum_list_with_seq_last. apply done_count_le. specialize (Hf I). lia.
  - rewrite Nat.add_0_r. by apply done_count_le.
Qed.

Lemma cap_count_joined w :
  worker_inv chainLen w -> running w = false -> failed w = false ->
  done_count w = w_chainNum w ∧ cap_count w = w_chainNum w.
Proof.
  intros (_ & _ & _ & Hr0w & _) Hr Hf. unfold cap_count. rewrite Hf, Nat.add_0_r.
  unfold failed, running in *. destruct (w_status w) as [| |r]; [done | done |].
  case_bool_decide as Hr0; [discriminate |]. subst r.
  unfold done_count. rewrite Hr0w by done. split; apply done_count_full.
Qed.

Lemma exec_step_sound cfg k cfg' :
  Forall (worker_inv chainLen) (p_workers cfg) ->
  exec_step chainLen cfg k = Some cfg' -> pool_step chainLen cfg cfg'.
Proof.
  destruct cfg as [rng file mx ws]. unfold exec_step; simpl. intros Hw.
  destruct (ws !! k) as [[n i buf [| |r]]|] eqn:Hk; try discriminate.
  - pose proof (proj1 (Forall_lookup _ _) Hw k _ Hk) as (Hi & Hl & _). simpl in Hi, Hl.
    case_decide; [case_decide|].
    + destruct (generateChain chainLen rng) as [c rng'] eqn:Hg. intros [= <-].
      by eapply (step_generate _ _ _ _ _ _ (mkWorker n i buf Running)).
    + destruct mx; [discriminate |]. intros [= <-].
      eapply (step_lock _ _ _ _ _ (mkWorker n i buf Running)); simpl; try done; lia.
    + intros [= <-]. eapply (step_return _ _ _ _ _ _ (mkWorker n i buf Running)); simpl; try done; lia.
  - intros [= <-]. by eapply (step_write _ _ _ _ _ _ (mkWorker n i buf Locked)).
Qed.

(** A worker that has not returned can step, or the worker that holds
    the mutex can. *)
Lemma exec_step_running cfg k w :
  mutex_inv cfg -> p_workers cfg !! k = Some w -> running w = true ->
  ∃ k', is_Some (exec_step chainLen cfg k').
Proof.
  intros Hm Hk Hr. destruct w as [n i buf [| |r]]; [| | discriminate].
  - destruct (decide ((i < buckets n)%nat ∧ ¬ (length buf < chainsLeft n i)%nat ∧ is_Some (p_mutex cfg)))
      as [(Hi & Hl & [k' Hmx]) | Hn].
    + destruct (proj1 (Hm k') Hmx) as ([n' i' buf' st'] & Hk' & Hs'). simpl in Hs'. subst st'.
      exists k'. unfold exec_step. rewrite Hk'. eauto.
    + exists k. unfold exec_step. rewrite Hk.
      case_decide; [case_decide |]; [destruct (generateChain _ _); eauto | | eauto].
      destruct (p_mutex cfg) eqn:E; [exfalso; apply Hn; eauto | eauto].
  - exists k. unfold exec_step. rewrite Hk. eauto.
Qed.

(** The worker replaced by a step has fewer steps left. *)
Lemma work_step cfg cfg' :
  pool_step chainLen cfg cfg' ->
  ∃ k w w', p_workers cfg !! k = Some w ∧ p_workers cfg' = <[k := w']> (p_workers cfg) ∧
            (work w' < work w)%nat.
Proof.
  destruct 1 as [rng file mx ws k w c rng' Hk Hr Hi Hl Hg |rng file ws k w Hk Hr Hi Hl
                |rng file mx ws k w Hk Hr |rng file mx ws k w m Hk Hr Hm |rng file mx ws k w Hk Hr Hi];
    do 3 eexists; (split; [exact Hk | split; [reflexivity |]]); unfold work; rewrite Hr; simpl; try lia.
  - rewrite sum_list_with_seq_cons, length_app by done. simpl. lia.
  - rewrite (sum_list_with_seq_cons _ (w_i w)) by done. rewrite Hl. lia.
Qed.

Lemma pool_measure_step cfg cfg' :
  pool_step chainLen cfg cfg' -> (pool_measure cfg' < pool_measure cfg)%nat.
Proof.
  intros (k & w & w' & Hk & Hws & Hlt)%work_step. unfold pool_measure. rewrite Hws.
  pose proof (sum_list_with_insert work _ k w w' Hk). lia.
Qed.

Lemma pool_step_progress cfg :
  mutex_inv cfg -> ¬ joined cfg -> ∃ k cfg', exec_step chainLen cfg k = Some cfg'.
Proof.
  intros Hm Hj. unfold joined in Hj. apply not_Forall_Exists in Hj; [| intros w; apply _].
  apply Exists_exists in Hj as (w & Hin & Hr). apply not_false_is_true in Hr.
  apply list_elem_of_lookup_1 in Hin as (k & Hk).
  destruct (exec_step_running cfg k w Hm Hk Hr) as (k' & cfg' & Hs). eauto.
Qed.

(** The steps of a pool where no [fwrite] fails keep every worker
    clear of failure. *)
Lemma exec_step_no_fail cfg k cfg' :
  Forall (λ w, failed w = false) (p_workers cfg) -> exec_step chainLen cfg k = Some cfg' ->
  Forall (λ w, failed w = false) (p_workers cfg').
Proof.
  destruct cfg as [rng file mx ws]. unfold exec_step; simpl. intros Hw.
  destruct (ws !! k) as [[n i buf [| |r]]|]; try discriminate;
    repeat case_decide; try destruct (generateChain _ _); try destruct mx; try discriminate;
    intros [= <-]; simpl; (apply Forall_insert; [done | reflexivity]).
Qed.

(** From any pool, the workers can run to the join with every write
    succeeding. *)
Lemma pool_completes n cfg :
  pool_inv chainLen n cfg -> mutex_inv cfg -> Forall (λ w, failed w = false) (p_workers cfg) ->
  ∃ cfg', rtc (pool_step chainLen) cfg cfg' ∧ joined cfg' ∧
          Forall (λ w, failed w = false) (p_workers cfg').
Proof.
  induction cfg as [cfg IH] using (well_founded_induction (Wf_nat.well_founded_ltof _ pool_measure)).
  intros Hinv Hm Hnf. destruct (decide (joined cfg)) as [Hj|Hj].
  { exists cfg. split_and!; [apply rtc_refl | done | done]. }
  destruct (pool_step_progress cfg Hm Hj) as (k & cfg1 & Hs).
  assert (Hst : pool_step chainLen cfg cfg1) by (apply (exec_step_sound _ k); [apply Hinv | done]).
  destruct (IH cfg1) as (cfg' & Hr & Hj' & Hnf').
  - unfold Wf_nat.ltof. by apply pool_measure_step.
  - by eapply pool_step_inv.
  - by eapply mutex_inv_step.
  - by eapply exec_step_no_fail.
  - exists cfg'. split_and!; [by eapply rtc_l | done | done].
Qed.

Lemma pool_result_ok (cfg : pool St) : Forall (λ w, failed w = false) (p_workers cfg) -> pool_result cfg = 1.
Proof.
  intros Hnf. unfold pool_result. destruct (existsb failed _) eqn:E; [| done].
  apply existsb_exists in E as (w & Hin & Hw). apply Forall_forall with (x := w) in Hnf; [congruence |].
  by apply list_elem_of_In.
Qed.

Lemma pool_result_fail (cfg : pool St) : pool_result cfg = 1 -> Forall (λ w, failed w = false) (p_workers cfg).
Proof.
  unfold pool_result. destruct (existsb failed _) eqn:E; [discriminate |]. intros _.
  apply Forall_forall. intros w Hin. destruct (failed w) eqn:Hw; [| done].
  exfalso. assert (existsb failed (p_workers cfg) = true) by (apply existsb_exists; exists w;
  split; [by apply list_elem_of_In | done]). congruence.
Qed.

Lemma run_schedule_sound n sched (cfg cfg' : pool St) :
  pool_inv chainLen n cfg -> run_schedule chainLen sched cfg = Some cfg' ->
  rtc (pool_step chainLen) cfg cfg'.
Proof.
  revert cfg. induction sched as [|k sched IH]; intros cfg Hinv; simpl; [intros [= <-]; apply rtc_refl |].
  destruct (exec_step chainLen cfg k) as [cfg1|] eqn:Hs; [simpl | discriminate].
  assert (pool_step chainLen cfg cfg1) by (apply (exec_step_sound _ k); [apply Hinv | done]).
  intros Hr. eapply rtc_l; [done |]. apply IH; [by eapply pool_step_inv | done].
Qed.

Lemma threadNum_pos conf : conf < two32 -> (1 <= threadNum conf)%nat.
Proof. intros Hc. unfold threadNum. case_decide; [lia |]. rewrite wrap32_id; [lia | u32_solve]. Qed.

(** The record count and validity of a joined pool. *)
Lemma pool_joined_table n (cfg : pool St) :
  pool_inv chainLen n cfg -> joined cfg ->
  Forall (chain_valid chainLen) (p_file cfg) ∧ (length (p_file cfg) <= n)%nat ∧
  (pool_result cfg = 1 -> length (p_file cfg) = n).
Proof.
  intros (Hw & Hn & Hf & Hd & Hc) Hj. split_and!; [done | |].
  - rewrite <- Hn. etrans; [exact Hc |]. apply sum_list_with_le.
    eapply Forall_impl; [exact Hw | apply cap_count_le].
  - intros Hr%pool_result_fail.
    assert (Hall : Forall (λ w, done_count w = w_chainNum w ∧ cap_count w = w_chainNum w) (p_workers cfg)).
    { apply Forall_forall. intros w Hin. apply cap_count_joined;
        [by apply (Forall_forall _ _) with (x := w) in Hw | by apply (Forall_forall _ _) with (x := w) in Hj
        | by apply (Forall_forall _ _) with (x := w) in Hr]. }
    rewrite (sum_list_with_eq done_count w_chainNum) in Hd by (eapply Forall_impl; [exact Hall | by intros ? []]).
    rewrite (sum_list_with_eq cap_count w_chainNum) in Hc by (eapply Forall_impl; [exact Hall | by intros ? []]).
    lia.
Qed.

Lemma create_table n conf (rng : St) r file :
  conf < two32 -> createRainbowTable chainLen n conf rng r (Some file) ->
  Forall (chain_valid chainLen) file ∧ (length file <= n)%nat ∧ (r = 1 -> length file = n).
Proof.
  intros Hconf Hc. inversion Hc as [| |cfg Hr Hj]; subst.
  - split_and!; [constructor | simpl; lia | discriminate].
  - apply pool_joined_table; [| done].
    eapply pool_rtc_inv; [apply init_pool_inv, threadNum_pos, Hconf | exact Hr].
Qed.

(** ** Theorems *)

(** C4: a generated table holds exactly the requested chains.
    Whatever the schedule of the workers and whatever [fwrite] does,
    every record [createRainbowTable] leaves in the file is a chain
    whose end is the seed [chainLen] rounds after its start, the file
    never holds more than [chainNum] records, and when the call returns
    1 it holds exactly [chainNum] of them. *)
Theorem createRainbowTable_table n conf (rng : St) r file :
  conf < two32 -> createRainbowTable chainLen n conf rng r (Some file) ->
  Forall (chain_valid chainLen) file ∧ (length file <= n)%nat ∧ (r = 1 -> length file = n).
Proof. apply create_table. Qed.

(** C24: table generation can always succeed.
    For every chain count, processor count and generator state there is
    a schedule of the workers, with every [fwrite] complete, under which
    [createRainbowTable] returns 1 with [chainNum] records. *)
Theorem createRainbowTable_completes n conf (rng : St) :
  conf < two32 ->
  ∃ file, createRainbowTable chainLen n conf rng 1 (Some file) ∧ length file = n.
Proof.
  intros Hconf. pose proof (init_pool_inv rng n (threadNum conf) (threadNum_pos conf Hconf)) as Hinit.
  destruct (pool_completes n _ Hinit (init_mutex_inv rng n _)) as (cfg & Hr & Hj & Hnf).
  { apply Forall_map, Forall_forall. intros. reflexivity. }
  exists (p_file cfg). rewrite <- (pool_result_ok cfg Hnf). split; [by constructor |].
  apply (pool_joined_table n cfg); [by eapply pool_rtc_inv | done | by apply pool_result_ok].
Qed.

(** C26: every schedule of the generator pool is finite.
    There is no infinite sequence of worker steps: each step lowers the
    number of steps the workers have left (chains to generate, writes,
    returns), so every interleaving reaches a configuration where no
    worker can move. *)
Theorem pool_step_wf : well_founded (λ cfg' cfg, pool_step chainLen cfg cfg').
Proof.
  apply (Wf_nat.well_founded_lt_compat _ pool_measure). intros x y. apply pool_measure_step.
Qed.

(** C25: the generator pool never deadlocks.
    In any configuration reachable from the start of the pool, either
    all workers have returned (and are joined) or some worker can step.
    The writer mutex is always held by exactly the worker between its
    [pthread_mutex_lock] and its [fwrite], and every path out of the
    [fwrite] (success or short write) unlocks it, so a worker waiting
    for the mutex always finds it free or its holder able to move. *)
Theorem pool_no_deadlock (rng : St) n T (cfg : pool St) :
  (1 <= T)%nat -> rtc (pool_step chainLen) (init_pool rng n T) cfg ->
  joined cfg ∨ ∃ cfg', pool_step chainLen cfg cfg'.
Proof.
  intros HT Hr. pose proof (pool_rtc_inv n _ _ (init_pool_inv rng n T HT) Hr) as Hinv.
  pose proof (mutex_rtc_inv _ _ (init_mutex_inv rng n T) Hr) as Hm.
  destruct (decide (joined cfg)) as [|Hj]; [by left |]. right.
  destruct (pool_step_progress cfg Hm Hj) as (k & cfg' & Hs).
  exists cfg'. apply (exec_step_sound _ k); [apply Hinv | done].
Qed.

End PoolProofs.

(** C31: the work is split without loss and buffers never overflow.
    With [T >= 1] workers the quotas sum to [chainNum]; a worker's
    buckets ([chainNum / 8192] full ones and the remainder) sum to its
    quota, and no bucket exceeds the 8192 entries of [buffer]. *)
Theorem worker_partition n T :
  (1 <= T)%nat ->
  sum_list_with (quota n T) (seq 0 T) = n ∧
  sum_list_with (chainsLeft n) (seq 0 (buckets n)) = n ∧
  ∀ i, (chainsLeft n i <= WORKER_BUFFER_SIZE)%nat.
Proof. intros HT. split_and!; [by apply quota_sum | apply done_count_full | apply chainsLeft_le]. Qed.

(** ** Witnesses

    Two workers producing one chain each ([chainNum = 2], two online
    processors), with the generator of rand.c seeded by the clock value
    7 and the test hash [seed_hash]. *)

#[local] Existing Instance seed_hash.

Definition wpool : pool cmwc_state := init_pool (cmwc_init 7) 2 (threadNum 2).

(** Both workers generate; worker 0 locks and writes, then worker 1;
    both return. *)
Definition wsched : list nat := [0; 1; 0; 0; 1; 1; 0; 1]%nat.

Definition wrun : pool cmwc_state := default wpool (run_schedule 3 wsched wpool).

Lemma wrun_reach : rtc (pool_step 3) wpool wrun.
Proof.
  apply (run_schedule_sound 3 2 wsched); [apply init_pool_inv; vm_compute; lia |].
  vm_compute. reflexivity.
Qed.

Lemma wrun_joined : joined wrun.
Proof. vm_compute. repeat constructor; discriminate. Qed.

Lemma createRainbowTable_table_witness :
  2 < two32 ∧
  Forall (chain_valid 3) (p_file wrun) ∧ (length (p_file wrun) <= 2)%nat ∧
  (pool_result wrun = 1 -> length (p_file wrun) = 2%nat).
Proof.
  split; [vm_compute; reflexivity |].
  apply (createRainbowTable_table 3 2 2 (cmwc_init 7)); [vm_compute; reflexivity |].
  by apply create_run; [apply wrun_reach | apply wrun_joined].
Defined.

Lemma pool_no_deadlock_witness : joined wrun ∨ ∃ cfg', pool_step 3 wrun cfg'.
Proof. apply (pool_no_deadlock 3 (cmwc_init 7) 2 (threadNum 2)); [vm_compute; lia | apply wrun_reach]. Defined.

Lemma worker_partition_witness :
  sum_list_with (quota 10 3) (seq 0 3) = 10%nat ∧
  sum_list_with (chainsLeft 10) (seq 0 (buckets 10)) = 10%nat ∧
  ∀ i, (chainsLeft 10 i <= WORKER_BUFFER_SIZE)%nat.
Proof. apply worker_partition. lia. Defined.

Lemma createRainbowTable_completes_witness :
  2 < two32 ∧ ∃ file, createRainbowTable 3 2 2 (cmwc_init 7) 1 (Some file) ∧ length file = 2%nat.
Proof.
  split; [vm_compute; reflexivity |].
  apply (createRainbowTable_completes 3 2 2 (cmwc_init 7)). vm_compute. reflexivity.
Defined.
