(* ===== verification/Exhaustive.v ===== *)
(** * The exhaustive searcher: workers scanning the seed space

    Models [seedRecoveryWorker] (main source, lines 582-599) and
    [searchHashOnline] (lines 603-650).  [searchHashOnline] resolves the
    hash function, splits [0, MAX_SEED] into [threads] ranges of
    [MAX_SEED / threads] seeds (the last one reaching [MAX_SEED]) and
    starts one worker per range; every worker walks its range with an
    [unsigned int] counter, and on a match writes the shared [found]
    flag and then the caller's [seed]; it reads [found] after every seed
    and leaves when it is set.  After joining the workers the function
    returns [found].

    The shared [found] and [seed] are written without synchronisation,
    so a worker's iteration is not atomic: the model splits it at each
    access to shared memory.  A worker is a program counter [spc] of
    [seedRecoveryWorker] ([AtCond i]: the loop test and the local
    comparison of the digest of [i]; [WriteFound i]; [WriteSeed i];
    [CheckFound i]: the test of [*found]; [Exited]), and [search_step]
    lets any worker that has not returned take its next step. *)

From stdpp Require Import base list option relations list_numbers strings.
From S2P Require Import Prelude Hash.

Definition MAX_SEED : Z := 0xffffffff.

(** [threads]: [sysconf(_SC_NPROCESSORS_ONLN)] in an [unsigned int], or 1. *)
Definition threads (conf : Z) : Z := if decide (conf <= 0) then 1 else wrap32 conf.

(** [range = MAX_SEED / threads]. *)
Definition range (T : Z) : Z := MAX_SEED / T.

(** The [for (i = 0; i < threads; i ++)] loop that fills [opt[i].start]
    and [opt[i].end] and advances [start += range]; [n] iterations are
    left and [i] is the loop counter. *)
Fixpoint make_options (T range : Z) (i : nat) (start : Z) (n : nat) : list (Z * Z) :=
  match n with
  | O => []
  | S n' =>
      (start, if decide (Z.of_nat i = T - 1) then MAX_SEED else wrap32 (start + range))
        :: make_options T range (S i) (wrap32 (start + range)) n'
  end.

(** The control points of [seedRecoveryWorker]. *)
Inductive spc :=
  | AtCond (i : Z)
  | WriteFound (i : Z)
  | WriteSeed (i : Z)
  | CheckFound (i : Z)
  | Exited.

#[export] Instance spc_eq_dec : EqDecision spc.
Proof. solve_decision. Defined.

(** The shared [found] flag, the caller's [seed], and each worker's
    [opt->end] and control point. *)
Record sstate := mkS {
  found : Z;
  seed : Z;
  sworkers : list (Z * spc)
}.

Section Search.
Context `{HashFunction}.
Variable target : list byte.

(** One step of a worker whose range ends at [e]: the new [found],
    [seed] and control point. *)
Definition worker_step (e found seed : Z) (p : spc) : Z * Z * spc :=
  match p with
  | AtCond i =>
      if decide (i <= e) then
        if memeq hash_len target (hash i) then (found, seed, WriteFound i)
        else (found, seed, CheckFound i)
      else (found, seed, Exited)
  | WriteFound i => (1, seed, WriteSeed i)
  | WriteSeed i => (found, i, CheckFound i)
  | CheckFound i =>
      if decide (found <> 0) then (found, seed, Exited) else (found, seed, AtCond (wrap32 (i + 1)))
  | Exited => (found, seed, Exited)
  end.

Inductive search_step : sstate -> sstate -> Prop :=
  | sstep st k e p f' s' p' :
      sworkers st !! k = Some (e, p) -> p <> Exited ->
      worker_step e (found st) (seed st) p = (f', s', p') ->
      search_step st (mkS f' s' (<[k := (e, p')]> (sworkers st))).

(** The state after the [pthread_create] loop: [found = 0], the caller's
    [seed0], and worker [i] about to test [i <= end] at its [start]. *)
Definition init_search (T seed0 : Z) : sstate :=
  mkS 0 seed0 ((λ '(s, e), (e, AtCond s)) <$> make_options T (range T) 0 0 (Z.to_nat T)).

(** All workers have returned: the [pthread_join] loop is over. *)
Definition sjoined (st : sstate) : Prop := Forall (λ w, w.2 = Exited) (sworkers st).

(** A deterministic step of worker [k], and a schedule of them. *)
Definition search_exec (st : sstate) (k : nat) : option sstate :=
  match sworkers st !! k with
  | Some (e, p) =>
      if decide (p = Exited) then None
      else let '(f', s', p') := worker_step e (found st) (seed st) p in
           Some (mkS f' s' (<[k := (e, p')]> (sworkers st)))
  | None => None
  end.

Fixpoint run_search (sched : list nat) (st : sstate) : option sstate :=
  match sched with
  | [] => Some st
  | k :: sched' => st' ← search_exec st k; run_search sched' st'
  end.

End Search.

(** [searchHashOnline(name, target, &seed)]: its return value and the
    final [seed] (initially [seed0]).  An unknown name returns 0 and
    leaves [seed]; otherwise the workers run under some schedule until
    all have been joined, and the function returns [found]. *)
Inductive searchHashOnline (libs : nat -> option (list hashFuncEntry)) (name : string)
    (target : list byte) (conf seed0 : Z) : Z -> Z -> Prop :=
  | online_unknown :
      resolveHashFunc libs name = None -> searchHashOnline libs name target conf seed0 0 seed0
  | online_run f len st :
      resolveHashFunc libs name = Some (f, len) ->
      rtc (@search_step {| hash := f; hash_len := len |} target) (init_search (threads conf) seed0) st ->
      sjoined st ->
      searchHashOnline libs name target conf seed0 (found st) (seed st).

(** ** The ranges *)

Lemma make_options_length T r i start n : length (make_options T r i start n) = n.
Proof. revert i start. induction n as [|n IH]; intros i start; simpl; [done | by rewrite IH]. Qed.

Lemma make_options_lookup T r i start n j :
  (j < n)%nat -> u32 start ->
  make_options T r i start n !! j =
    Some (wrap32 (start + Z.of_nat j * r),
          if decide (Z.of_nat (i + j) = T - 1) then MAX_SEED else wrap32 (start + (Z.of_nat j + 1) * r)).
Proof.
  revert i start j. induction n as [|n IH]; intros i start j Hj Hs; [lia |].
  destruct j as [|j]; simpl.
  - rewrite Nat.add_0_r, ?Nat2Z.inj_0, ?Z.mul_0_l, ?Z.add_0_r, (wrap32_id start Hs).
    destruct (decide (Z.of_nat i = T - 1)); [done | do 3 f_equal; lia].
  - rewrite IH by (lia || apply wrap32_range). rewrite !wrap32_add_wrap.
    replace (S i + j)%nat with (i + S j)%nat by lia.
    replace (start + r + Z.of_nat j * r) with (start + Z.of_nat (S j) * r) by lia.
    replace (start + r + (Z.of_nat j + 1) * r) with (start + (Z.of_nat (S j) + 1) * r) by lia.
    reflexivity.
Qed.

Lemma range_bounds T : 1 <= T <= MAX_SEED -> 1 <= range T ∧ T * range T <= MAX_SEED.
Proof. unfold range, MAX_SEED. intros. split; [| zlia]. apply Z.div_le_lower_bound; lia. Qed.

(** The ranges [searchHashOnline] hands out: worker [j] scans from
    [j * range] to [(j + 1) * range], the last one to [MAX_SEED]. *)
Lemma options_lookup T j :
  1 <= T <= MAX_SEED -> (j < Z.to_nat T)%nat ->
  make_options T (range T) 0 0 (Z.to_nat T) !! j =
    Some (Z.of_nat j * range T,
          if decide (Z.of_nat j = T - 1) then MAX_SEED else (Z.of_nat j + 1) * range T).
Proof.
  intros HT Hj. pose proof (range_bounds T HT) as [Hr1 Hr2].
  rewrite make_options_lookup by (done || u32_solve). rewrite !Z.add_0_l.
  assert (Z.of_nat j * range T <= MAX_SEED) by nia.
  assert ((Z.of_nat j + 1) * range T <= MAX_SEED) by nia.
  unfold MAX_SEED in *. rewrite !wrap32_id by u32_solve. done.
Qed.

(** ** The interleaving *)

Section SearchProofs.
Context `{HashFunction}.
Variable target : list byte.

Local Abbreviation matches i := (memeq hash_len target (hash i) = true).

(** What a worker's control point says about its counter. *)
Definition pc_ok (p : spc) : Prop :=
  match p with
  | AtCond i | CheckFound i => u32 i
  | WriteFound i | WriteSeed i => u32 i ∧ matches i
  | Exited => True
  end.

(** The invariant of the search: counters are 32-bit and a worker about
    to write is at a match; once [found] is set, [seed] holds a match or
    a worker is about to write one; the worker whose range ends at
    [MAX_SEED] has returned only after [found] was set; and that worker
    exists. *)
Record search_inv (st : sstate) : Prop := {
  si_workers : Forall (λ w, u32 w.1 ∧ pc_ok w.2) (sworkers st);
  si_seed : found st <> 0 ->
            (u32 (seed st) ∧ matches (seed st)) ∨ ∃ k e i, sworkers st !! k = Some (e, WriteSeed i);
  si_last_exit : ∀ k, sworkers st !! k = Some (MAX_SEED, Exited) -> found st <> 0;
  si_last : ∃ k p, sworkers st !! k = Some (MAX_SEED, p)
}.

(** The steps a worker has left once [found] is set. *)
Definition pc_rank (p : spc) : nat :=
  match p with
  | AtCond _ => 4 | WriteFound _ => 3 | WriteSeed _ => 2 | CheckFound _ => 1 | Exited => 0
  end%nat.

Definition search_rank (st : sstate) : nat := sum_list_with (λ w, pc_rank w.2) (sworkers st).

#[local] Instance WriteSeed_dec p : Decision (∃ i, p = WriteSeed i).
Proof. destruct p; try (right; intros [? [=]]; fail). left; eauto. Defined.

Local Ltac step_ok_close :=
  first [done | by left | (intros Hff; exfalso; by apply Hff) | (intros ? [= <-]; done)
         | (intros ? [=]) | (intros _ [=])].

Lemma worker_step_found e f s p :
  (worker_step target e f s p).1.1 = f ∨ (worker_step target e f s p).1.1 = 1.
Proof. destruct p; simpl; repeat case_decide; try case_match; auto. Qed.

Lemma worker_step_ok e f s p :
  u32 e -> pc_ok p -> p <> Exited ->
  let '(f', s', p') := worker_step target e f s p in
  pc_ok p' ∧
  (s' = s ∨ (u32 s' ∧ matches s' ∧ ∃ i, p = WriteSeed i)) ∧
  (f' <> f -> ∃ i, p' = WriteSeed i) ∧
  (e = MAX_SEED -> p' = Exited -> f' <> 0) ∧
  (∀ i, p' = WriteSeed i -> p = WriteFound i).
Proof.
  intros He Hp Hne.
  destruct p as [i|i|i|i|]; simpl in Hp |- *; [| | | | done].
  - case_decide as Hie; [destruct (memeq hash_len target (hash i)) eqn:Hm |]; simpl;
      split_and!; try step_ok_close.
    subst e. unfold MAX_SEED in Hie. u32_solve.
  - destruct Hp. split_and!; try step_ok_close. eauto.
  - destruct Hp. split_and!; try step_ok_close. right. eauto.
  - case_decide; simpl; split_and!; try step_ok_close. apply wrap32_range.
Qed.

Lemma search_step_inv st st' : search_inv st -> search_step target st st' -> search_inv st'.
Proof.
  intros Hinv Hst. destruct Hst as [st0 k e p f' s' p' Hk Hne Hstep].
  destruct Hinv as [Hw Hs Hl Hlast].
  pose proof (proj1 (Forall_lookup _ _) Hw k _ Hk) as [He Hp]; simpl in He, Hp.
  pose proof (worker_step_ok e (found st0) (seed st0) p He Hp Hne) as Hok. rewrite Hstep in Hok.
  destruct Hok as (Hp' & Hseed & Hf & Hmax & Hws).
  split; simpl.
  - apply Forall_insert; [done | by split].
  - intros Hf0. destruct (decide (∃ i, p' = WriteSeed i)) as [[i ->]|Hnw].
    { right. exists k, e, i. apply list_lookup_insert_eq. by eapply lookup_lt_Some. }
    destruct Hseed as [->|(Hu & Hm & _)]; [| by left].
    assert (found st0 <> 0) as Hf1 by (intros E; apply Hnw, Hf; congruence).
    destruct (Hs Hf1) as [|(k' & e' & i' & Hk')]; [by left |].
    destruct (decide (k' = k)) as [->|Hkk].
    + rewrite Hk in Hk'. injection Hk' as <- ->. simpl in Hstep, Hp.
      injection Hstep as _ Hsi _. rewrite <- Hsi. by left.
    + right. exists k', e', i'. by rewrite list_lookup_insert_ne by congruence.
  - intros k' Hk'. destruct (decide (k' = k)) as [->|Hkk].
    + rewrite list_lookup_insert_eq in Hk' by (by eapply lookup_lt_Some). injection Hk' as -> ->. by apply Hmax.
    + rewrite list_lookup_insert_ne in Hk' by congruence.
      destruct (worker_step_found e (found st0) (seed st0) p) as [E|E]; rewrite Hstep in E; simpl in E;
        [subst f'; by apply (Hl k') | lia].
  - destruct Hlast as (k' & p0 & Hk'). destruct (decide (k' = k)) as [->|Hkk].
    + rewrite Hk in Hk'. injection Hk' as -> ->. exists k, p'.
      apply list_lookup_insert_eq. by eapply lookup_lt_Some.
    + exists k', p0. by rewrite list_lookup_insert_ne by congruence.
Qed.

Lemma search_rtc_inv st st' : search_inv st -> rtc (search_step target) st st' -> search_inv st'.
Proof. intros Hi Hr. induction Hr; eauto using search_step_inv. Qed.

Lemma init_search_inv T seed0 : 1 <= T <= MAX_SEED -> search_inv (init_search T seed0).
Proof.
  intros HT. pose proof (range_bounds T HT) as [Hr1 Hr2].
  assert (Hopt : ∀ j w, (make_options T (range T) 0 0 (Z.to_nat T) !! j = Some w) ->
                 u32 w.1 ∧ u32 w.2 ∧ (Z.of_nat j = T - 1 -> w.2 = MAX_SEED)).
  { intros j w Hj. assert (Hlt : (j < Z.to_nat T)%nat)
      by (apply lookup_lt_Some in Hj; by rewrite make_options_length in Hj).
    rewrite options_lookup in Hj by done. injection Hj as <-. simpl.
    assert (Z.of_nat j * range T <= MAX_SEED) by nia.
    assert ((Z.of_nat j + 1) * range T <= MAX_SEED) by nia.
    unfold MAX_SEED in *. split; [ u32_solve | split; [case_decide; u32_solve | intros; case_decide; [done | contradiction]]]. }
  split; simpl.
  - apply Forall_lookup. intros j [e p] Hj. apply list_lookup_fmap_Some in Hj as ([s0 e0] & Hw & Hj).
    injection Hw as -> ->. destruct (Hopt j _ Hj) as (? & ? & _). done.
  - by intros [].
  - intros j Hj. apply list_lookup_fmap_Some in Hj as ([s0 e0] & Hw & _). discriminate.
  - exists (Z.to_nat T - 1)%nat. 
    destruct (make_options T (range T) 0 0 (Z.to_nat T) !! (Z.to_nat T - 1)%nat) as [[s0 e0]|] eqn:Hj.
    + exists (AtCond s0). rewrite list_lookup_fmap, Hj. simpl.
      destruct (Hopt _ _ Hj) as (_ & _ & Hm). simpl in Hm. rewrite Hm by lia. done.
    + apply lookup_ge_None in Hj. rewrite make_options_length in Hj. lia.
Qed.

(** A joined search has set [found], and [seed] is a match. *)
Lemma search_joined st :
  search_inv st -> sjoined st -> found st <> 0 ∧ u32 (seed st) ∧ matches (seed st).
Proof.
  intros [Hw Hs Hl (k & p & Hk)] Hj.
  assert (Hex : ∀ k e p, sworkers st !! k = Some (e, p) -> p = Exited).
  { intros k' e p' Hk'. by apply (proj1 (Forall_lookup _ _) Hj k' (e, p')). }
  assert (Hf : found st <> 0) by (apply (Hl k); by rewrite Hk, (Hex k MAX_SEED p Hk)).
  destruct (Hs Hf) as [[]|(k' & e & i & Hk')]; [done |].
  by apply Hex in Hk'.
Qed.

Lemma search_exec_sound st k st' : search_exec target st k = Some st' -> search_step target st st'.
Proof.
  unfold search_exec. destruct (sworkers st !! k) as [[e p]|] eqn:Hk; [| done].
  case_decide; [done |]. destruct (worker_step target e (found st) (seed st) p) as [[f' s'] p'] eqn:Hs.
  intros [= <-]. by econstructor.
Qed.

Lemma search_progress st : ¬ sjoined st -> ∃ k st', search_exec target st k = Some st'.
Proof.
  intros Hj. unfold sjoined in Hj. apply not_Forall_Exists in Hj; [| intros w; apply _].
  apply Exists_exists in Hj as ([e p] & Hin & Hp). simpl in Hp.
  apply list_elem_of_lookup_1 in Hin as (k & Hk). exists k.
  unfold search_exec. rewrite Hk. case_decide; [done |].
  destruct (worker_step _ _ _ _ _) as [[f' s'] p']. eauto.
Qed.

Lemma run_search_sound sched st st' :
  run_search target sched st = Some st' -> rtc (search_step target) st st'.
Proof.
  revert st. induction sched as [|k sched IH]; intros st; simpl; [intros [= <-]; apply rtc_refl |].
  destruct (search_exec target st k) as [st1|] eqn:Hs; [simpl | discriminate].
  intros Hr. eapply rtc_l; [by apply (search_exec_sound st k) | by apply IH].
Qed.

(** Once [found] is set, every step brings a worker closer to its exit. *)
Lemma search_exec_rank st k st' :
  found st <> 0 -> search_exec target st k = Some st' ->
  found st' <> 0 ∧ (search_rank st' < search_rank st)%nat.
Proof.
  intros Hf. unfold search_exec. destruct (sworkers st !! k) as [[e p]|] eqn:Hk; [| done].
  case_decide as Hp; [done |].
  destruct (worker_step target e (found st) (seed st) p) as [[f' s'] p'] eqn:Hs. intros [= <-].
  assert (f' <> 0 ∧ (pc_rank p' < pc_rank p)%nat) as [Hf' Hr].
  { destruct p; simpl in Hs; repeat case_decide; try destruct (memeq _ _ _);
      injection Hs as <- <- <-; simpl; split; (done || lia). }
  split; [done |]. unfold search_rank; simpl.
  pose proof (sum_list_with_insert (λ w, pc_rank w.2) (sworkers st) k (e, p) (e, p') Hk). simpl in *. lia.
Qed.

Lemma search_drive_exit st :
  found st <> 0 -> ∃ st', rtc (search_step target) st st' ∧ sjoined st'.
Proof.
  induction st as [st IH] using (well_founded_induction (Wf_nat.well_founded_ltof _ search_rank)).
  intros Hf. destruct (decide (sjoined st)) as [|Hj]; [exists st; split; [apply rtc_refl | done] |].
  destruct (search_progress st Hj) as (k & st1 & Hs).
  destruct (search_exec_rank st k st1 Hf Hs) as [Hf1 Hr].
  destruct (IH st1 Hr Hf1) as (st' & Hr' & Hj'). exists st'. split; [| done].
  eapply rtc_l; [by apply (search_exec_sound st k) | done].
Qed.

(** Worker [k] at a matching seed sets [found] in two steps. *)
Lemma search_step_match st k e i :
  sworkers st !! k = Some (e, AtCond i) -> i <= e -> matches i ->
  ∃ st', rtc (search_step target) st st' ∧ found st' <> 0.
Proof.
  intros Hk Hie Hm. eexists. split.
  - eapply rtc_l; [eapply sstep; [exact Hk | discriminate | simpl; rewrite decide_True, Hm by done; reflexivity] |].
    eapply rtc_l; [eapply (sstep _ _ k e (WriteFound i)); [| discriminate | reflexivity] | apply rtc_refl].
    simpl. apply list_lookup_insert_eq. by eapply lookup_lt_Some.
  - simpl. lia.
Qed.

(** Worker [k] at a seed that does not match, while [found] is clear,
    moves on to the next seed in two steps. *)
Lemma search_step_miss st k e i :
  sworkers st !! k = Some (e, AtCond i) -> i <= e -> memeq hash_len target (hash i) = false ->
  found st = 0 ->
  ∃ st', rtc (search_step target) st st' ∧ found st' = 0 ∧
         sworkers st' !! k = Some (e, AtCond (wrap32 (i + 1))).
Proof.
  intros Hk Hie Hm Hf. assert (Hlt : (k < length (sworkers st))%nat) by (by eapply lookup_lt_Some).
  eexists. split_and!.
  - eapply rtc_l; [eapply sstep; [exact Hk | discriminate | simpl; rewrite decide_True, Hm by done; reflexivity] |].
    eapply rtc_l; [eapply (sstep _ _ k e (CheckFound i)); [| discriminate | simpl; rewrite Hf, decide_False by lia; reflexivity]
                  | apply rtc_refl].
    simpl. by apply list_lookup_insert_eq.
  - simpl. done.
  - simpl. apply list_lookup_insert_eq. by rewrite length_insert.
Qed.

(** A worker whose remaining range holds a match makes [found] set. *)
Lemma search_find s n :
  ∀ st k e i, sworkers st !! k = Some (e, AtCond i) -> u32 s -> 0 <= i <= s -> s <= e -> matches s ->
  Z.to_nat (s - i) = n -> ∃ st', rtc (search_step target) st st' ∧ found st' <> 0.
Proof.
  induction n as [|n IH]; intros st k e i Hk Hs Hi He Hm Hn;
    (destruct (decide (found st = 0)) as [Hf0|Hf0]; [| exists st; split; [apply rtc_refl | done]]).
  - assert (s = i) by lia. subst s. apply (search_step_match st k e i); [done | lia | done].
  - destruct (memeq hash_len target (hash i)) eqn:Hmi; [apply (search_step_match st k e i); [done | lia | done] |].
    assert (i <> s) by congruence.
    destruct (search_step_miss st k e i Hk ltac:(lia) Hmi Hf0) as (st1 & Hr1 & _ & Hk1).
    rewrite wrap32_id in Hk1 by u32_solve.
    destruct (IH st1 k e (i + 1) Hk1 Hs ltac:(lia) He Hm ltac:(lia)) as (st' & Hr' & Hf').
    exists st'. split; [by etrans | done].
Qed.

(** Every seed of [0, MAX_SEED] lies in the range of some worker. *)
Lemma options_cover_aux T s :
  1 <= T <= MAX_SEED -> 0 <= s <= MAX_SEED ->
  ∃ j s0 e0, make_options T (range T) 0 0 (Z.to_nat T) !! j = Some (s0, e0) ∧ s0 <= s <= e0.
Proof.
  intros HT Hs. pose proof (range_bounds T HT) as [Hr1 Hr2].
  set (q := Z.min (s / range T) (T - 1)).
  assert (0 <= q <= T - 1) by (unfold q; pose proof (Z.div_pos s (range T)); lia).
  exists (Z.to_nat q). rewrite options_lookup by lia. do 2 eexists. split; [reflexivity |].
  rewrite Z2Nat.id by lia. pose proof (Z.mul_div_le s (range T)). pose proof (Z.mod_pos_bound s (range T)).
  pose proof (Z.div_mod s (range T)). unfold q in *.
  destruct (Z.min_spec (s / range T) (T - 1)) as [[Hq Hm]|[Hq Hm]]; rewrite Hm in *;
    case_decide; unfold MAX_SEED in *; nia.
Qed.

(** ** Theorems *)

(** C19: without a preimage the exhaustive search never returns.
    When no 32-bit seed hashes to the target, no reachable state of the
    workers has them all returned, and some worker can always step: the
    worker whose range ends at [MAX_SEED] tests [i <= 0xffffffff], which
    holds for every [unsigned int], so it wraps around to 0 and scans
    forever instead of exhausting its range. *)
Theorem search_diverges T seed0 st :
  (∀ s, u32 s -> memeq hash_len target (hash s) = false) -> 1 <= T <= MAX_SEED ->
  rtc (search_step target) (init_search T seed0) st ->
  ¬ sjoined st ∧ ∃ st', search_step target st st'.
Proof.
  intros Hno HT Hr. pose proof (search_rtc_inv _ _ (init_search_inv T seed0 HT) Hr) as Hinv.
  assert (Hj : ¬ sjoined st).
  { intros Hj. destruct (search_joined st Hinv Hj) as (_ & Hu & Hm). by rewrite Hno in Hm. }
  split; [done |]. destruct (search_progress st Hj) as (k & st' & Hs).
  exists st'. by apply (search_exec_sound st k).
Qed.

(** C20: with a preimage some schedule finds it.
    When some 32-bit seed hashes to the target, there is a schedule of
    the workers after which all have returned, [found] is set and
    [seed] holds a seed whose digest is the target. *)
Theorem search_completes T seed0 s :
  1 <= T <= MAX_SEED -> u32 s -> memeq hash_len target (hash s) = true ->
  ∃ st, rtc (search_step target) (init_search T seed0) st ∧ sjoined st ∧
        found st <> 0 ∧ u32 (seed st) ∧ memeq hash_len target (hash (seed st)) = true.
Proof.
  intros HT Hs Hm. pose proof (init_search_inv T seed0 HT) as Hinv.
  destruct (options_cover_aux T s HT ltac:(unfold MAX_SEED; u32_solve)) as (j & s0 & e0 & Hj & Hse).
  assert (Hk : sworkers (init_search T seed0) !! j = Some (e0, AtCond s0))
    by (simpl; rewrite list_lookup_fmap, Hj; reflexivity).
  assert (0 <= s0).
  { destruct Hinv as [Hw _ _ _]. apply (Forall_lookup_1 _ _ j _ Hw) in Hk as [_ Hp]. simpl in Hp. u32_solve. }
  destruct (search_find s _ _ j e0 s0 Hk Hs ltac:(lia) ltac:(lia) Hm eq_refl) as (st1 & Hr1 & Hf1).
  destruct (search_drive_exit st1 Hf1) as (st & Hr & Hjn).
  exists st. assert (Hrt : rtc (search_step target) (init_search T seed0) st) by (by etrans).
  split_and!; [done | done |..]; apply search_joined; try done; by eapply search_rtc_inv.
Qed.

End SearchProofs.

Lemma threads_range conf : conf < two32 -> 1 <= threads conf <= MAX_SEED.
Proof. intros. unfold threads, MAX_SEED. case_decide; [lia |]. rewrite wrap32_id; u32_solve. Qed.

(** C21: the workers' ranges cover the seed space and overlap at their ends.
    With [1 <= threads <= MAX_SEED] every seed of [0, MAX_SEED] lies in
    the range [start, end] of some worker (no gaps), and the end of each
    range but the last is the start of the next, so those seeds are
    scanned by two workers; the spec (section 8, property 7) says there
    is no overlap. *)
Theorem options_partition T :
  1 <= T <= MAX_SEED ->
  (∀ s, 0 <= s <= MAX_SEED -> ∃ j s0 e0,
     make_options T (range T) 0 0 (Z.to_nat T) !! j = Some (s0, e0) ∧ s0 <= s <= e0) ∧
  (∀ j, (S j < Z.to_nat T)%nat -> ∃ s0 e s1,
     make_options T (range T) 0 0 (Z.to_nat T) !! j = Some (s0, e) ∧
     make_options T (range T) 0 0 (Z.to_nat T) !! S j = Some (e, s1)).
Proof.
  intros HT. split; [intros s Hs; by apply options_cover_aux |].
  intros j Hj. rewrite !options_lookup by (done || lia). do 3 eexists. split; [reflexivity |].
  destruct (decide (Z.of_nat j = T - 1)); [lia |]. f_equal. f_equal. lia.
Qed.

Lemma online_result libs name target conf seed0 r s :
  conf < two32 -> searchHashOnline libs name target conf seed0 r s ->
  (r = 0 ∧ s = seed0 ∧ resolveHashFunc libs name = None) ∨
  (r <> 0 ∧ ∃ f len, resolveHashFunc libs name = Some (f, len) ∧ u32 s ∧ memeq len target (f s) = true).
Proof.
  intros Hc Hs. destruct Hs as [Hn|f len st Hres Hr Hj]; [by left |]. right.
  pose proof (@search_rtc_inv {| hash := f; hash_len := len |} target _ _
                (init_search_inv _ _ seed0 (threads_range conf Hc)) Hr) as Hinv.
  destruct (search_joined target st Hinv Hj) as (Hf & Hu & Hm). split; [done |]. eauto.
Qed.

(** C18: [searchHashOnline] reports an unknown hash as not found.
    With fewer than [2^32] processors, a run of [searchHashOnline]
    returns 0 exactly when the hash name does not resolve, leaving
    [seed] unchanged; otherwise it returns non-zero with a 32-bit
    [seed] whose digest is the target.  The spec (section 7) asks for an
    [UnknownHash] error, and [main] prints "Seed not found" instead. *)
Theorem searchHashOnline_result libs name target conf seed0 r s :
  conf < two32 -> searchHashOnline libs name target conf seed0 r s ->
  (r = 0 ∧ s = seed0 ∧ resolveHashFunc libs name = None) ∨
  (r <> 0 ∧ ∃ f len, resolveHashFunc libs name = Some (f, len) ∧ u32 s ∧ memeq len target (f s) = true).
Proof. apply online_result. Qed.

(** ** Witnesses

    The test hash [seed_hash] (the four little-endian bytes of the
    seed), and a registry with one library exporting it as "seed". *)

#[local] Existing Instance seed_hash.

Definition wlibs (i : nat) : option (list hashFuncEntry) :=
  if decide (i = 0%nat) then Some [mkEntry "seed" le32_bytes 4] else None.

(** One worker ([conf = 1]) looking for the digest of 2: it misses 0 and
    1, matches 2, writes [found] and [seed], and returns. *)
Definition wsearch : sstate :=
  default (init_search 1 0) (run_search (le32_bytes 2) (replicate 8 0%nat) (init_search (threads 1) 0)).

Lemma search_diverges_witness :
  (∀ s, u32 s -> memeq 4 [] (le32_bytes s) = false) ∧ 1 <= 1 <= MAX_SEED ∧
  ¬ sjoined (init_search 1 0) ∧ ∃ st', search_step [] (init_search 1 0) st'.
Proof.
  assert (Hno : ∀ s, u32 s -> memeq 4 [] (le32_bytes s) = false).
  { intros s _. unfold memeq. by rewrite bool_decide_eq_false. }
  split; [done | split; [unfold MAX_SEED; lia |]].
  apply (@search_diverges seed_hash [] 1 0 (init_search 1 0) Hno); [unfold MAX_SEED; lia | apply rtc_refl].
Defined.

Lemma search_completes_witness :
  1 <= 2 <= MAX_SEED ∧ u32 5 ∧ memeq 4 (le32_bytes 5) (le32_bytes 5) = true ∧
  ∃ st, rtc (search_step (le32_bytes 5)) (init_search 2 0) st ∧ sjoined st ∧
        found st <> 0 ∧ u32 (seed st) ∧ memeq 4 (le32_bytes 5) (le32_bytes (seed st)) = true.
Proof.
  split; [unfold MAX_SEED; lia | split; [ u32_solve | split; [apply memeq_refl |]]].
  apply (@search_completes seed_hash (le32_bytes 5) 2 0 5); [unfold MAX_SEED; lia | u32_solve | apply memeq_refl].
Defined.

Lemma options_partition_witness :
  (∀ s, 0 <= s <= MAX_SEED -> ∃ j s0 e0,
     make_options 4 (range 4) 0 0 (Z.to_nat 4) !! j = Some (s0, e0) ∧ s0 <= s <= e0) ∧
  (∀ j, (S j < Z.to_nat 4)%nat -> ∃ s0 e s1,
     make_options 4 (range 4) 0 0 (Z.to_nat 4) !! j = Some (s0, e) ∧
     make_options 4 (range 4) 0 0 (Z.to_nat 4) !! S j = Some (e, s1)).
Proof. apply options_partition. unfold MAX_SEED. lia. Defined.

Lemma searchHashOnline_result_witness :
  1 < two32 ∧
  ((found wsearch = 0 ∧ seed wsearch = 0 ∧ resolveHashFunc wlibs "seed" = None) ∨
   (found wsearch <> 0 ∧ ∃ f len, resolveHashFunc wlibs "seed" = Some (f, len) ∧ u32 (seed wsearch) ∧
                                  memeq len (le32_bytes 2) (f (seed wsearch)) = true)).
Proof.
  split; [vm_compute; reflexivity |].
  apply (searchHashOnline_result wlibs "seed" (le32_bytes 2) 1 0); [vm_compute; reflexivity |].
  apply (online_run _ _ _ _ _ le32_bytes 4); [reflexivity | | vm_compute; repeat constructor].
  apply (run_search_sound (le32_bytes 2) (replicate 8 0%nat)). vm_compute. reflexivity.
Defined.
