(* ===== verification/Names.v ===== *)
(** * The table name codec

    Models [generateTableName] (main source, lines 110-117) and
    [parseTablename] (lines 486-504).  Names are C strings, lists of
    [ascii] without the terminating NUL.  [generateTableName] prints
    ["%s.%u.%u.%u.rt"] into a 512-byte buffer with [snprintf] (so at
    most 511 characters survive).  [parseTablename] takes the POSIX
    [basename] of a copy of the path, finds the first ['.'] with
    [strchr] (returning -1 when there is none), overwrites it with a
    space and runs [sscanf(base, "%s %u.%u.%u.rt", ...)], whose result
    it ignores; it then returns 1.  [sscanf] is modelled for this format
    as glibc implements it: [%s] reads a maximal run of non-space
    characters, a space in the format skips any white space, [%u] skips
    white space and reads an optional sign and at least one decimal
    digit, saturating at [ULONG_MAX] and storing the value modulo
    [2^32].  An output the scan does not reach is left unassigned
    ([None]). *)

From stdpp Require Import base list option strings.
From Stdlib Require Import Ascii.
From Stdlib Require String.
From S2P Require Import Prelude.

Abbreviation cstr := (list ascii).

#[export] Instance ascii_inhabited : Inhabited ascii := populate "000"%char.

(** A string literal as a C string. *)
Definition str (s : String.string) : cstr := String.list_ascii_of_string s.

Definition DOT : ascii := "."%char.
Definition SLASH : ascii := "/"%char.
Definition SPACE : ascii := " "%char.

(** [isspace] and [isdigit] of the C locale. *)
Definition is_space (c : ascii) : bool :=
  let n := nat_of_ascii c in (n =? 32)%nat || ((9 <=? n)%nat && (n <=? 13)%nat).

Definition is_digit (c : ascii) : bool :=
  let n := nat_of_ascii c in (48 <=? n)%nat && (n <=? 57)%nat.

Definition digit_val (c : ascii) : Z := Z.of_nat (nat_of_ascii c) - 48.

Definition digit_char (d : Z) : ascii := ascii_of_nat (Z.to_nat (48 + d)).

(** [%u] output: the decimal digits of [n], most significant first;
    [fuel] bounds the number of digits (10 for a 32-bit value). *)
Fixpoint dec_digits (fuel : nat) (n : Z) : cstr :=
  match fuel with
  | O => []
  | S f => if decide (n < 10) then [digit_char n] else dec_digits f (n / 10) ++ [digit_char (n mod 10)]
  end.

Definition print_u (n : Z) : cstr := dec_digits 10 n.

Arguments print_u : simpl never.

(** [snprintf(buffer, 512, "%s.%u.%u.%u.rt", ...)] and [strdup]. *)
Definition generateTableName (hashName : cstr) (chainNum chainLen index : Z) : cstr :=
  take 511 (hashName ++ [DOT] ++ print_u chainNum ++ [DOT] ++ print_u chainLen ++ [DOT] ++
            print_u index ++ str ".rt").

(** The longest prefix whose characters satisfy [p], and the rest. *)
Fixpoint span (p : ascii -> bool) (s : cstr) : cstr * cstr :=
  match s with
  | [] => ([], [])
  | c :: s' => if p c then let '(a, b) := span p s' in (c :: a, b) else ([], s)
  end.

(** POSIX [basename] ([libgen.h]): trailing slashes are removed, an
    empty path gives ["."], a path of slashes gives ["/"], otherwise the
    part after the last slash. *)
Definition basename (path : cstr) : cstr :=
  let stripped := rev (span (λ c, bool_decide (c = SLASH)) (rev path)).2 in
  if decide (path = []) then str "."
  else if decide (stripped = []) then [SLASH]
  else rev (span (λ c, bool_decide (c <> SLASH)) (rev stripped)).1.

(** [strchr(s, c)]: the index of the first [c]. *)
Fixpoint strchr (s : cstr) (c : ascii) : option nat :=
  match s with
  | [] => None
  | c' :: s' => if decide (c' = c) then Some 0%nat else S <$> strchr s' c
  end.

Definition skip_ws (s : cstr) : cstr := (span is_space s).2.

Definition digits_value (ds : cstr) : Z := fold_left (λ acc c, acc * 10 + digit_val c) ds 0.

(** [%u]: white space, an optional sign, then at least one digit. *)
Definition scan_u (s : cstr) : option (Z * cstr) :=
  let s := skip_ws s in
  let '(neg, s) :=
    match s with
    | c :: s' => if decide (c = "-"%char) then (true, s')
                 else if decide (c = "+"%char) then (false, s') else (false, s)
    | [] => (false, s)
    end in
  let '(ds, rest) := span is_digit s in
  if decide (ds = []) then None
  else let v := Z.min (digits_value ds) (2 ^ 64 - 1) in
       Some (wrap32 (if neg then - v else v), rest).

(** The outputs [sscanf] assigns: [hashFuncName], [*chainNum] and
    [*chainLen] ([index] is a local of [parseTablename]). *)
Record scanned := mkScanned {
  sc_name : option cstr;
  sc_chainNum : option Z;
  sc_chainLen : option Z
}.

(** [sscanf(s, "%s %u.%u.%u.rt", ...)] up to the directives that assign
    outputs of [parseTablename]. *)
Definition sscanf_table (s : cstr) : scanned :=
  match skip_ws s with
  | [] => mkScanned None None None
  | s1 =>
      let '(name, s2) := span (λ c, negb (is_space c)) s1 in
      match scan_u s2 with
      | None => mkScanned (Some name) None None
      | Some (n, s3) =>
          match s3 with
          | c :: s4 =>
              if decide (c = DOT) then
                match scan_u s4 with
                | None => mkScanned (Some name) (Some n) None
                | Some (l, _) => mkScanned (Some name) (Some n) (Some l)
                end
              else mkScanned (Some name) (Some n) None
          | [] => mkScanned (Some name) (Some n) None
          end
      end
  end.

(** [parseTablename]: its return value and the outputs it assigns. *)
Definition parseTablename (tablename : cstr) : Z * scanned :=
  let base := basename tablename in
  match strchr base DOT with
  | None => (-1, mkScanned None None None)
  | Some k => (1, sscanf_table (<[k := SPACE]> base))
  end.

(** A hash name the codec can carry: non-empty, without ['.'], ['/'] or
    white space. *)
Definition valid_name (h : cstr) : Prop :=
  h <> [] ∧ Forall (λ c, c <> DOT ∧ c <> SLASH ∧ is_space c = false) h.

(** ** Lemmas *)

Lemma digit_char_spec d :
  0 <= d < 10 -> is_digit (digit_char d) = true ∧ digit_val (digit_char d) = d ∧
                 is_space (digit_char d) = false.
Proof.
  intros Hd. unfold is_digit, digit_val, is_space, digit_char.
  rewrite nat_ascii_embedding by lia.
  split_and!; [apply andb_true_intro; split; apply Nat.leb_le; lia | lia |].
  apply orb_false_intro; [apply Nat.eqb_neq; lia |].
  apply andb_false_iff. right. apply Nat.leb_gt. lia.
Qed.

Lemma digits_value_snoc ds c : digits_value (ds ++ [c]) = digits_value ds * 10 + digit_val c.
Proof. unfold digits_value. by rewrite fold_left_app. Qed.

(** The digits [%u] prints read back as the number. *)
Lemma dec_digits_spec fuel n :
  (0 < fuel)%nat -> 0 <= n < 10 ^ Z.of_nat fuel ->
  dec_digits fuel n <> [] ∧ Forall (λ c, is_digit c = true ∧ is_space c = false) (dec_digits fuel n) ∧
  digits_value (dec_digits fuel n) = n ∧ (length (dec_digits fuel n) <= fuel)%nat.
Proof.
  revert n. induction fuel as [|f IH]; intros n Hf0 Hn; [lia |].
  rewrite Nat2Z.inj_succ, Z.pow_succ_r in Hn by lia. simpl. case_decide as H10.
  - destruct (digit_char_spec n ltac:(lia)) as (Hd & Hv & Hs).
    split_and!; [done | by repeat constructor | | simpl; lia].
    unfold digits_value. simpl. lia.
  - assert (f <> 0%nat) by (intros ->; simpl in Hn; lia).
    destruct (IH (n / 10)) as (Hne & Hf & Hv & Hl); [lia | zlia |].
    destruct (digit_char_spec (n mod 10) ltac:(zlia)) as (Hd & Hv' & Hs).
    split_and!.
    + by destruct (dec_digits f (n / 10)).
    + apply Forall_app. split; [done | by repeat constructor].
    + rewrite digits_value_snoc, Hv, Hv'. zlia.
    + rewrite length_app. simpl. lia.
Qed.

Lemma print_u_spec n :
  u32 n ->
  print_u n <> [] ∧ Forall (λ c, is_digit c = true ∧ is_space c = false) (print_u n) ∧
  digits_value (print_u n) = n ∧ (length (print_u n) <= 10)%nat.
Proof. intros Hn. apply dec_digits_spec; [lia |]. unfold u32, two32 in Hn. simpl. lia. Qed.

(** [span] stops exactly at the first character that fails [p]. *)
Lemma span_app p l r :
  Forall (λ c, p c = true) l -> (∀ c r', r = c :: r' -> p c = false) -> span p (l ++ r) = (l, r).
Proof.
  intros Hl Hr. induction Hl as [|c l Hc Hl IH]; simpl.
  - destruct r as [|c r']; [reflexivity |]. simpl. by rewrite (Hr c r' eq_refl).
  - by rewrite Hc, IH.
Qed.

Lemma skip_ws_nonspace c s : is_space c = false -> skip_ws (c :: s) = c :: s.
Proof. intros Hc. unfold skip_ws. simpl. by rewrite Hc. Qed.

Lemma skip_ws_space s : skip_ws (SPACE :: s) = skip_ws s.
Proof. unfold skip_ws. simpl. by destruct (span is_space s). Qed.

(** [%u] reads back what [%u] printed, up to a non-digit. *)
Lemma scan_u_print n r :
  u32 n -> (∀ c r', r = c :: r' -> is_digit c = false) -> scan_u (print_u n ++ r) = Some (n, r).
Proof.
  intros Hn Hr. destruct (print_u_spec n Hn) as (Hne & Hf & Hv & _).
  unfold scan_u. destruct (print_u n) as [|c ds] eqn:Hp; [done |].
  apply Forall_cons in Hf as [[Hcd Hcs] Hf]. simpl app. rewrite skip_ws_nonspace by done.
  assert (c <> "-"%char ∧ c <> "+"%char) as [Hm Hpl] by (split; intros ->; discriminate).
  rewrite decide_False, decide_False by done.
  rewrite app_comm_cons, span_app; [| constructor; [done | by eapply Forall_impl; [exact Hf | intros ? []]] | done].
  rewrite decide_False by done. rewrite Hv, Z.min_l by (unfold u32, two32 in Hn; lia).
  by rewrite wrap32_id.
Qed.

Lemma strchr_app h c r :
  Forall (λ x, x <> c) h -> strchr (h ++ c :: r) c = Some (length h).
Proof.
  induction 1 as [|x h Hx Hh IH]; simpl; [by rewrite decide_True |].
  by rewrite decide_False, IH.
Qed.


Lemma scan_u_space s : scan_u (SPACE :: s) = scan_u s.
Proof. unfold scan_u. by rewrite skip_ws_space. Qed.

Lemma not_slash_bool (l : cstr) :
  Forall (λ c, c <> SLASH) l -> Forall (λ c, bool_decide (c <> SLASH) = true) l.
Proof. intros Hl. eapply Forall_impl; [exact Hl |]. intros c Hc. by apply bool_decide_eq_true_2. Qed.

(** The [basename] of a path ending in a name without slashes, after a
    prefix that is empty or ends in a slash, is that name. *)
Lemma basename_suffix pre name :
  name <> [] -> Forall (λ c, c <> SLASH) name -> (∀ c r', rev pre = c :: r' -> c = SLASH) ->
  basename (pre ++ name) = name.
Proof.
  intros Hne Hs Hpre.
  assert (Hsp : span (λ c, bool_decide (c <> SLASH)) (rev name ++ rev pre) = (rev name, rev pre)).
  { apply span_app; [apply not_slash_bool; by apply Forall_rev |].
    intros c r' Hc. rewrite (Hpre c r' Hc). apply bool_decide_eq_false_2. intros Hn. by apply Hn. }
  assert (Hrs : Forall (λ c, c <> SLASH) (rev name)) by (by apply Forall_rev).
  assert (Hst : span (λ c, bool_decide (c = SLASH)) (rev (pre ++ name)) = ([], rev (pre ++ name))).
  { rewrite rev_app_distr. destruct (rev name) as [|x rn] eqn:Hrn.
    { exfalso. apply Hne. apply (f_equal (@rev ascii)) in Hrn. by rewrite rev_involutive in Hrn. }
    apply Forall_cons in Hrs as [Hx _]. simpl. by rewrite bool_decide_eq_false_2. }
  unfold basename. rewrite Hst. simpl snd. rewrite rev_involutive.
  rewrite !decide_False by (destruct pre, name; simpl; congruence).
  rewrite rev_app_distr, Hsp. simpl. apply rev_involutive.
Qed.

(** A name of at most 475 characters is never truncated by [snprintf]. *)
Lemma generateTableName_shape h n l i :
  (length h <= 475)%nat -> u32 n -> u32 l -> u32 i ->
  generateTableName h n l i =
    h ++ DOT :: print_u n ++ DOT :: print_u l ++ DOT :: print_u i ++ str ".rt".
Proof.
  intros Hh Hn Hl Hi. unfold generateTableName. apply take_ge.
  destruct (print_u_spec n Hn) as (_ & _ & _ & Ln).
  destruct (print_u_spec l Hl) as (_ & _ & _ & Ll).
  destruct (print_u_spec i Hi) as (_ & _ & _ & Li).
  repeat first [rewrite length_app | rewrite length_cons]. simpl. lia.
Qed.

Lemma print_u_no_slash n : u32 n -> Forall (λ c, c <> SLASH ∧ c <> DOT) (print_u n).
Proof.
  intros Hn. destruct (print_u_spec n Hn) as (_ & Hf & _). eapply Forall_impl; [exact Hf |].
  intros c [Hd _]. split; intros ->; discriminate.
Qed.

(** The scan of a generated name whose first dot became a space. *)
Lemma sscanf_table_name h n l rest :
  valid_name h -> u32 n -> u32 l ->
  sscanf_table (h ++ SPACE :: print_u n ++ DOT :: print_u l ++ DOT :: rest) =
    mkScanned (Some h) (Some n) (Some l).
Proof.
  intros [Hne Hh] Hn Hl. unfold sscanf_table.
  destruct h as [|x h']; [done |]. pose proof Hh as Hh'. apply Forall_cons in Hh' as [(_ & _ & Hx) _].
  simpl app. rewrite skip_ws_nonspace by done.
  rewrite app_comm_cons, span_app;
    [| eapply Forall_impl; [exact Hh | intros c (_ & _ & Hc); by rewrite Hc] | by intros ? ? [= <- _]].
  rewrite scan_u_space, scan_u_print by (done || by intros ? ? [= <- _]).
  rewrite decide_True by done.
  by rewrite scan_u_print by (done || by intros ? ? [= <- _]).
Qed.

Lemma parse_generated h n l i pre :
  valid_name h -> (length h <= 475)%nat -> u32 n -> u32 l -> u32 i ->
  (∀ c r', rev pre = c :: r' -> c = SLASH) ->
  parseTablename (pre ++ generateTableName h n l i) = (1, mkScanned (Some h) (Some n) (Some l)).
Proof.
  intros Hv Hlen Hn Hl Hi Hpre. pose proof Hv as [Hne Hh].
  rewrite generateTableName_shape by done. unfold parseTablename.
  rewrite basename_suffix; [| by destruct h | | done].
  2: { apply Forall_app. split; [eapply Forall_impl; [exact Hh | naive_solver] |].
       constructor; [discriminate |]. apply Forall_app. split; [eapply Forall_impl; [by apply print_u_no_slash | naive_solver] |].
       constructor; [discriminate |]. apply Forall_app. split; [eapply Forall_impl; [by apply print_u_no_slash | naive_solver] |].
       constructor; [discriminate |]. apply Forall_app. split; [eapply Forall_impl; [by apply print_u_no_slash | naive_solver] |].
       repeat constructor; discriminate. }
  rewrite strchr_app by (eapply Forall_impl; [exact Hh | naive_solver]).
  rewrite insert_app_r_alt, Nat.sub_diag by lia. simpl.
  by rewrite sscanf_table_name.
Qed.

(** ** Theorems *)

(** C22: table names round-trip and identify their parameters.
    For valid hash names of at most 475 characters and 32-bit
    parameters, [parseTablename] on a name [generateTableName]
    produced, alone or after a directory prefix ending in a slash,
    returns 1 with the hash name, [chainNum] and [chainLen]; so two
    tables with the same name have the same hash name, chain count and
    chain length. *)
Theorem name_roundtrip h n l i h' n' l' i' pre :
  valid_name h -> (length h <= 475)%nat -> u32 n -> u32 l -> u32 i ->
  valid_name h' -> (length h' <= 475)%nat -> u32 n' -> u32 l' -> u32 i' ->
  (∀ c r', rev pre = c :: r' -> c = SLASH) ->
  parseTablename (pre ++ generateTableName h n l i) = (1, mkScanned (Some h) (Some n) (Some l)) ∧
  (generateTableName h n l i = generateTableName h' n' l' i' -> h = h' ∧ n = n' ∧ l = l').
Proof.
  intros Hv Hh Hn Hl Hi Hv' Hh' Hn' Hl' Hi' Hpre.
  split; [by apply parse_generated |].
  intros Heq. assert (Hnil : ∀ c r', rev ([] : cstr) = c :: r' -> c = SLASH) by done.
  pose proof (parse_generated h n l i [] Hv Hh Hn Hl Hi Hnil) as E.
  pose proof (parse_generated h' n' l' i' [] Hv' Hh' Hn' Hl' Hi' Hnil) as E'.
  simpl in E, E'. rewrite Heq, E' in E. by injection E as -> -> ->.
Qed.

(** the naming scenario of the spec.
    [generateTableName("wikihash", 1000, 100, 0)] is
    ["wikihash.1000.100.0.rt"], and parsing that name gives
    [(wikihash, 1000, 100)]. *)
Example name_scenario :
  generateTableName (str "wikihash") 1000 100 0 = str "wikihash.1000.100.0.rt" ∧
  parseTablename (str "wikihash.1000.100.0.rt") =
    (1, mkScanned (Some (str "wikihash")) (Some 1000) (Some 100)).
Proof. split; vm_compute; reflexivity. Qed.

(** C23: a malformed name is accepted.
    Whenever the basename of a table name is a hash name (non-empty,
    without dots, slashes or white space), a dot, and a rest whose
    first field does not scan as [%u], [parseTablename] returns 1 with
    the hash name and leaves [chainNum] and [chainLen] unassigned: it
    only tests for a dot and ignores what [sscanf] matched, where the
    spec expects [BadTableName]. *)
Theorem parse_bad_names name h rest :
  basename name = h ++ DOT :: rest -> valid_name h -> scan_u rest = None ->
  parseTablename name = (1, mkScanned (Some h) None None).
Proof.
  intros Hb [Hne Hh] Hs. unfold parseTablename. rewrite Hb.
  rewrite strchr_app by (eapply Forall_impl; [exact Hh | naive_solver]).
  rewrite insert_app_r_alt, Nat.sub_diag by lia. cbn [insert list_insert]. f_equal.
  unfold sscanf_table. destruct h as [|x h']; [done |].
  pose proof Hh as Hh'. apply Forall_cons in Hh' as [(_ & _ & Hx) _].
  simpl app. rewrite skip_ws_nonspace by done.
  rewrite app_comm_cons, span_app;
    [| eapply Forall_impl; [exact Hh | intros c (_ & _ & Hc); by rewrite Hc] | by intros ? ? [= <- _]].
  by rewrite scan_u_space, Hs.
Qed.

(** the two malformed names of C23.
    [parseTablename("bad.rt")] returns 1 with the hash name ["bad"] and
    no numbers; and a hash name with a space, which the spec allows
    (any bytes but ['.']), comes back cut at the space, again with the
    numbers unassigned. *)
Example parse_bad_scenario :
  parseTablename (str "bad.rt") = (1, mkScanned (Some (str "bad")) None None) ∧
  parseTablename (generateTableName (str "my hash") 1000 100 0) =
    (1, mkScanned (Some (str "my")) None None).
Proof. split; vm_compute; reflexivity. Qed.

(** ** Witnesses *)

Lemma name_roundtrip_witness :
  valid_name (str "wikihash") ∧ valid_name (str "md5") ∧
  (parseTablename (str "tables/" ++ generateTableName (str "wikihash") 1000 100 0) =
     (1, mkScanned (Some (str "wikihash")) (Some 1000) (Some 100)) ∧
   (generateTableName (str "wikihash") 1000 100 0 = generateTableName (str "md5") 7 8 9 ->
    str "wikihash" = str "md5" ∧ 1000 = 7 ∧ 100 = 8)).
Proof.
  assert (Hv : valid_name (str "wikihash")).
  { split; [discriminate |]. repeat constructor; discriminate. }
  assert (Hv' : valid_name (str "md5")).
  { split; [discriminate |]. repeat constructor; discriminate. }
  split; [done | split; [done |]].
  apply name_roundtrip; try done; try (simpl; lia); try u32_solve.
  intros c r' Hc. simpl in Hc. by injection Hc as <-.
Defined.

Lemma parse_bad_names_witness :
  basename (str "bad.rt") = str "bad" ++ DOT :: str "rt" ∧ valid_name (str "bad") ∧
  scan_u (str "rt") = None ∧
  parseTablename (str "bad.rt") = (1, mkScanned (Some (str "bad")) None None).
Proof.
  assert (H1 : basename (str "bad.rt") = str "bad" ++ DOT :: str "rt") by reflexivity.
  assert (H2 : valid_name (str "bad")) by (split; [discriminate | repeat constructor; discriminate]).
  assert (H3 : scan_u (str "rt") = None) by reflexivity.
  exact (conj H1 (conj H2 (conj H3 (parse_bad_names _ _ _ H1 H2 H3)))).
Defined.
