(* ===== verification/Mt.v ===== *)
(** * The Mersenne Twister test program (PHP's [mt_rand])

    Models src/unnamed/part_001, lines 1-156: the generator state
    [MTState] (624 words, the count [left] of words not yet returned and
    the index [next] of the next one), the twist functions [php_twist]
    (PHP's variant, which tests the low bit of [u]) and [mt_twist] (the
    reference one, which tests [v]), [mtInitialize], [mtReload],
    [mt_srand], [mt_rand] with its tempering, [php_mt_rand],
    [php_mt_rand_range] and the test [main].

    [mtReload] walks a pointer [p] through the state in three loops
    and updates it in place; [reload_ref] is the textbook definition,
    one loop over all indices modulo [N], and the equivalence theorem shows they
    agree.  [php_mt_rand_range] uses [double] arithmetic: its one
    inexact step, the product, is rounded to 53 significant bits
    ([round_double]); below [2^22] for [max - min + 1] the result is
    the exact quotient, above it the rounding can add one. *)

From stdpp Require Import base list option.
From S2P Require Import Prelude.

(** The masks of the [hiBit], [loBit], [loBits] and [mixBits] macros. *)
Definition hiBit (u : Z) : Z := Z.land u 0x80000000.
Definition loBit (u : Z) : Z := Z.land u 0x00000001.
Definition loBits (u : Z) : Z := Z.land u 0x7FFFFFFF.
Definition mixBits (u v : Z) : Z := Z.lor (hiBit u) (loBits v).

Definition php_twist (m u v : Z) : Z :=
  m ^^ Z.shiftr (mixBits u v) 1 ^^ Z.land (wrap32 (- loBit u)) 0x9908b0df.

Definition mt_twist (m u v : Z) : Z :=
  m ^^ Z.shiftr (mixBits u v) 1 ^^ Z.land (wrap32 (- loBit v)) 0x9908b0df.

Definition N : nat := 624.
Definition M : nat := 397.

(** [unsigned short int PHPMtRand = 1]: which twist [mtReload] uses. *)
Definition PHPMtRand : Z := 1.

Record MTState := mkMT {
  mt_state : list Z;   (* uint32_t state[N] *)
  mt_left : Z;         (* uint32_t left *)
  mt_next : nat        (* uint32_t *next, as an index into state *)
}.

(** One step of the initialisation loop: the word after [r] at index [i]. *)
Definition init_next (r : Z) (i : nat) : Z :=
  wrap32 (1812433253 * (r ^^ Z.shiftr r 30) + Z.of_nat i).

(** [for( ; i < n; ++i ) { *s++ = init_next( *r, i); r++; }] from index
    [i] with [k] iterations left, [r] the word before. *)
Fixpoint init_loop (r : Z) (i k : nat) : list Z :=
  match k with
  | O => []
  | S k' => let s := init_next r i in s :: init_loop s (S i) k'
  end.

(** [mtInitialize(seed, mtInfo)]: the [N] words of the state. *)
Definition mtInitialize (seed : Z) : list Z :=
  let s0 := Z.land seed 0xffffffff in s0 :: init_loop s0 1 (N - 1).

(** [*p = twist(p[j - i], p[0], p[k - i])] with [p] at index [i]. *)
Definition twist_at (tw : Z -> Z -> Z -> Z) (st : list Z) (i j k : nat) : list Z :=
  <[i := tw (st !!! j) (st !!! i) (st !!! k)]> st.

(** The three loops of [mtReload]. *)
Definition reload_first (tw : Z -> Z -> Z -> Z) (st : list Z) : list Z :=
  fold_left (λ st i, twist_at tw st i (i + M) (i + 1)) (seq 0 (N - M)) st.

Definition reload_second (tw : Z -> Z -> Z -> Z) (st : list Z) : list Z :=
  fold_left (λ st i, twist_at tw st i (i + M - N) (i + 1)) (seq (N - M) (M - 1)) st.

Definition reload_last (tw : Z -> Z -> Z -> Z) (st : list Z) : list Z :=
  twist_at tw st (N - 1) (M - 1) 0.

Definition mtReload (mt : MTState) : MTState :=
  let tw := if decide (PHPMtRand <> 0) then php_twist else mt_twist in
  mkMT (reload_last tw (reload_second tw (reload_first tw (mt_state mt)))) (Z.of_nat N) 0.

Arguments reload_first : simpl never.
Arguments reload_second : simpl never.
Arguments reload_last : simpl never.
Arguments mtInitialize : simpl never.

(** The reference definition of the reload: every word [i] in turn
    becomes [twist(s[i + M mod N], s[i], s[i + 1 mod N])]. *)
Definition reload_ref (tw : Z -> Z -> Z -> Z) (st : list Z) : list Z :=
  fold_left (λ st i, twist_at tw st i ((i + M) mod N) ((i + 1) mod N)) (seq 0 N) st.

(** [mt_srand(seed, mtInfo)]. *)
Definition mt_srand (seed : Z) (mt : MTState) : MTState :=
  mkMT (mtInitialize seed) 0 (mt_next mt).

(** The tempering of [mt_rand]. *)
Definition mt_temper (s1 : Z) : Z :=
  let s1 := s1 ^^ Z.shiftr s1 11 in
  let s1 := s1 ^^ Z.land (wrap32 (Z.shiftl s1 7)) 0x9d2c5680 in
  let s1 := s1 ^^ Z.land (wrap32 (Z.shiftl s1 15)) 0xefc60000 in
  s1 ^^ Z.shiftr s1 18.

(** [mt_rand(mtInfo)]: the value and the next state. *)
Definition mt_rand (mt : MTState) : Z * MTState :=
  let mt := if decide (mt_left mt = 0) then mtReload mt else mt in
  let s1 := mt_state mt !!! mt_next mt in
  (mt_temper s1, mkMT (mt_state mt) (wrap32 (mt_left mt - 1)) (S (mt_next mt))).

Definition php_mt_rand (mt : MTState) : Z * MTState :=
  let '(v, mt') := mt_rand mt in (Z.shiftr v 1, mt').

Definition PHP_MT_RAND_MAX : Z := 0x7FFFFFFF.

(** The [double] nearest to the integer [x] (IEEE 754 binary64, round
    to nearest, ties to even): [x] itself when [|x| < 2^53]; otherwise
    [|x|] rounded to a multiple of [2^e], [e = log2 |x| - 52], keeping
    53 significant bits. *)
Definition round_double (x : Z) : Z :=
  let a := Z.abs x in
  if a <? 2 ^ 53 then x else
  let e := Z.log2 a - 52 in
  let q := a / 2 ^ e in
  let r := a mod 2 ^ e in
  let q' := if r <? 2 ^ (e - 1) then q
            else if 2 ^ (e - 1) <? r then q + 1
            else if Z.even q then q else q + 1 in
  Z.sgn x * (q' * 2 ^ e).

(** The macro [RAND_RANGE(n, min, max, tmax)] at its one use,
    [tmax = PHP_MT_RAND_MAX]: the value
    [min + (long)((double)((double)max - min + 1.0) * (n / (tmax + 1.0)))]
    it assigns to [n].  For [uint32_t] operands [(double)max - min + 1.0]
    is the integer [max - min + 1] and [n / 2^31] is exact; the product
    is the [double] nearest to [(max - min + 1) * n], scaled by [2^-31]
    (exact); [(long)] truncates toward 0. *)
Definition RAND_RANGE (n min max : Z) : Z :=
  min + Z.quot (round_double ((max - min + 1) * n)) (PHP_MT_RAND_MAX + 1).

(** [php_mt_rand_range]: [RAND_RANGE] stores its value back in the
    [uint32_t num]. *)
Definition php_mt_rand_range (mt : MTState) (min max : Z) : Z * MTState :=
  let '(n, mt') := php_mt_rand mt in
  (wrap32 (RAND_RANGE n min max), mt').

(** [n] successive results of [php_mt_rand]. *)
Fixpoint php_mt_rands (n : nat) (mt : MTState) : list Z * MTState :=
  match n with
  | O => ([], mt)
  | S n' => let '(v, mt1) := php_mt_rand mt in
            let '(vs, mt2) := php_mt_rands n' mt1 in (v :: vs, mt2)
  end.

(** The numbers [main] prints: the seed is [atoi(argv[1])] converted to
    [uint32_t], or 1000; then [php_mt_rand_range(&info, 1000, 2000)]
    and ten values of [php_mt_rand].  [info0] is the uninitialised
    [MTState info]. *)
Definition mt_main (arg : option Z) (info0 : MTState) : list Z :=
  let seed := wrap32 (default 1000 arg) in
  let info := mt_srand seed info0 in
  let '(r, info) := php_mt_rand_range info 1000 2000 in
  r :: (php_mt_rands 10 info).1.

(** The well-formed states: [N] 32-bit words, and either a reload is
    due ([left = 0]) or [next + left = N] with words left. *)
Definition mt_wf (mt : MTState) : Prop :=
  length (mt_state mt) = N ∧ Forall u32 (mt_state mt) ∧
  (mt_left mt = 0 ∨ (0 < mt_left mt ∧ Z.of_nat (mt_next mt) + mt_left mt = Z.of_nat N)).

(** The states a program reaches: [mt_srand] on any state, then calls
    of [mt_rand] (through [php_mt_rand] and [php_mt_rand_range]). *)
Inductive mt_reachable : MTState -> Prop :=
  | mt_reach_srand seed mt0 : mt_reachable (mt_srand seed mt0)
  | mt_reach_rand mt : mt_reachable mt -> mt_reachable (mt_rand mt).2.

(** ** Lemmas *)

Lemma php_twist_u32 m u v : u32 m -> u32 u -> u32 v -> u32 (php_twist m u v).
Proof. intros. unfold php_twist, mixBits, hiBit, loBits. u32_bits. Qed.

Lemma mt_twist_u32 m u v : u32 m -> u32 u -> u32 v -> u32 (mt_twist m u v).
Proof. intros. unfold mt_twist, mixBits, hiBit, loBits. u32_bits. Qed.

Lemma mt_temper_u32 s : u32 s -> u32 (mt_temper s).
Proof. intros. unfold mt_temper. u32_bits. Qed.

Lemma init_loop_spec r i k : length (init_loop r i k) = k ∧ Forall u32 (init_loop r i k).
Proof.
  revert r i. induction k as [|k IH]; intros r i; simpl; [done |].
  destruct (IH (init_next r i) (S i)) as [Hl Hf]. split; [by rewrite Hl |].
  constructor; [apply wrap32_range | done].
Qed.

Lemma mtInitialize_wf seed : length (mtInitialize seed) = N ∧ Forall u32 (mtInitialize seed).
Proof.
  unfold mtInitialize. destruct (init_loop_spec (Z.land seed 0xffffffff) 1 (N - 1)) as [Hl Hf].
  split; [cbn [length]; rewrite Hl; reflexivity |]. constructor; [u32_bits | done].
Qed.

(** A reload keeps [N] words of 32 bits, whatever the twist. *)
Section Reload.
Variable tw : Z -> Z -> Z -> Z.
Hypothesis tw_u32 : ∀ m u v, u32 m -> u32 u -> u32 v -> u32 (tw m u v).

Lemma twist_at_wf st i j k :
  length st = N ∧ Forall u32 st -> length (twist_at tw st i j k) = N ∧ Forall u32 (twist_at tw st i j k).
Proof.
  intros [Hl Hf]. unfold twist_at. rewrite length_insert. split; [done |].
  apply Forall_insert; [done |]. apply tw_u32; by apply Forall_u32_lookup.
Qed.

Lemma reload_wf st :
  length st = N ∧ Forall u32 st ->
  let st' := reload_last tw (reload_second tw (reload_first tw st)) in length st' = N ∧ Forall u32 st'.
Proof.
  intros Hst. unfold reload_last, reload_second, reload_first. apply twist_at_wf.
  apply fold_left_invariant; [| intros; by apply twist_at_wf].
  apply fold_left_invariant; [done | intros; by apply twist_at_wf].
Qed.
End Reload.

Lemma mod_sub_once a n : (n <= a < 2 * n)%nat -> (a mod n = a - n)%nat.
Proof.
  intros Ha. replace a with ((a - n) + 1 * n)%nat at 1 by lia.
  rewrite Nat.Div0.mod_add. apply Nat.mod_small. lia.
Qed.

Lemma mtReload_wf mt : length (mt_state mt) = N ∧ Forall u32 (mt_state mt) -> mt_wf (mtReload mt).
Proof.
  intros Hst. unfold mtReload, mt_wf; cbn [mt_state mt_left mt_next].
  destruct (reload_wf (if decide (PHPMtRand <> 0) then php_twist else mt_twist)
              ltac:(case_decide; [apply php_twist_u32 | apply mt_twist_u32]) (mt_state mt) Hst) as [Hl Hf].
  split_and!; [done | done |]. right. unfold N. lia.
Qed.

(** One call of [mt_rand] from a well-formed state reads a word of the
    state and leaves a well-formed state. *)
Lemma mt_rand_step mt :
  mt_wf mt ->
  (mt_next (if decide (mt_left mt = 0%Z) then mtReload mt else mt) < N)%nat ∧
  mt_wf (mt_rand mt).2 ∧ u32 (mt_rand mt).1.
Proof.
  intros Hwf. pose proof Hwf as (Hl & Hf & _).
  assert (Hwf1 : mt_wf (if decide (mt_left mt = 0) then mtReload mt else mt) ∧
                 0 < mt_left (if decide (mt_left mt = 0) then mtReload mt else mt)).
  { case_decide as H0; [split; [by apply mtReload_wf | simpl; unfold N; lia] |].
    split; [done |]. destruct Hwf as (_ & _ & [|[]]); lia. }
  unfold mt_rand. revert Hwf1. generalize (if decide (mt_left mt = 0) then mtReload mt else mt).
  intros [st left next] [(Hl1 & Hf1 & [->|[Hpos Hsum]]) Hpos']; simpl in *; [lia |].
  split; [unfold N in *; lia |]. split; [| apply mt_temper_u32, Forall_u32_lookup, Hf1].
  unfold mt_wf; cbn [mt_state mt_left mt_next]. split; [done | split; [done |]].
  rewrite wrap32_id by (unfold u32, two32, N in *; lia).
  destruct (decide (left = 1)) as [->|]; [by left | right; lia].
Qed.

Lemma seq_split3 n m :
  (0 < m <= n)%nat -> seq 0 n = (seq 0 (n - m) ++ seq (n - m) (m - 1)) ++ [(n - 1)%nat].
Proof.
  intros Hm. replace n with (n - m + S (m - 1))%nat at 1 by lia.
  rewrite seq_app, seq_S, app_assoc. do 3 f_equal; lia.
Qed.

Lemma php_mt_rand_bound mt : mt_wf mt -> 0 <= (php_mt_rand mt).1 < 2 ^ 31.
Proof.
  intros Hwf. destruct (mt_rand_step mt Hwf) as (_ & _ & Hu).
  unfold php_mt_rand. destruct (mt_rand mt) as [v mt'] eqn:E. simpl in *.
  rewrite Z.shiftr_div_pow2 by lia. unfold u32, two32 in Hu. zlia.
Qed.

Lemma mt_reachable_wf mt : mt_reachable mt -> mt_wf mt.
Proof.
  induction 1 as [seed mt0 | mt _ IH].
  - destruct (mtInitialize_wf seed) as [Hl Hf]. split_and!; [done | done | by left].
  - by destruct (mt_rand_step mt IH) as (_ & ? & _).
Qed.

(** Rounding a non-negative integer to a [double] moves it up by at
    most one unit in its 53rd bit, [x / 2^52]. *)
Lemma round_double_le x : 0 <= x -> 0 <= round_double x <= x + x / 2 ^ 52.
Proof.
  intros Hx. unfold round_double. rewrite Z.abs_eq by done.
  destruct (Z.ltb_spec x (2 ^ 53)) as [Hs | Hs].
  { split; [done |]. pose proof (Z.div_pos x (2 ^ 52)). lia. }
  assert (He : 53 <= Z.log2 x) by (apply Z.log2_le_pow2; lia).
  pose proof (Z.log2_spec x ltac:(lia)) as [Hl _].
  set (e := Z.log2 x - 52) in *.
  assert (Hp : 0 < 2 ^ e) by (apply Z.pow_pos_nonneg; lia).
  assert (H2e : 2 ^ e * 2 ^ 52 <= x).
  { rewrite <- Z.pow_add_r by lia. by replace (e + 52) with (Z.log2 x) by lia. }
  assert (Hq : 2 ^ e * (x / 2 ^ e) <= x) by (apply Z.mul_div_le; lia).
  assert (Hq0 : 0 <= x / 2 ^ e) by (apply Z.div_pos; lia).
  assert (Hd : 2 ^ e <= x / 2 ^ 52) by (apply Z.div_le_lower_bound; lia).
  rewrite (Z.sgn_pos x) by lia. rewrite Z.mul_1_l.
  repeat case_match; nia.
Qed.

(** Below [2^53] the product is exact: for [max - min + 1 <= 2^22]
    [RAND_RANGE] is the exact quotient. *)
Lemma RAND_RANGE_exact n min max :
  0 <= n < 2 ^ 31 -> 0 <= max - min + 1 <= 2 ^ 22 ->
  RAND_RANGE n min max = min + (max - min + 1) * n / 2 ^ 31.
Proof.
  intros Hn Hr. unfold RAND_RANGE, round_double, PHP_MT_RAND_MAX.
  rewrite Z.abs_eq by nia.
  rewrite (proj2 (Z.ltb_lt _ _)) by nia.
  rewrite Z.quot_div_nonneg by nia. done.
Qed.

(** ** Theorems *)

(** C14: the pointer-walking reload is the textbook reload.
    The three loops of [mtReload], which walk a pointer through the
    state and read [p[M]], [p[M-N]] and finally [state[0]] of the
    updated array, compute the same state as twisting every index [i]
    in turn with the words at [i + M] and [i + 1] modulo [N], for any
    twist function and any state. *)
Theorem mtReload_ref tw st :
  reload_last tw (reload_second tw (reload_first tw st)) = reload_ref tw st.
Proof.
  unfold reload_ref, reload_last, reload_second, reload_first.
  rewrite (seq_split3 N M), fold_left_last, fold_left_app by (unfold N, M; lia).
  assert (Hl : ((N - 1 + M) mod N = M - 1 ∧ (N - 1 + 1) mod N = 0)%nat).
  { split; [rewrite mod_sub_once by (unfold N, M; lia); unfold N, M; lia |].
    replace (N - 1 + 1)%nat with N by (unfold N; lia). apply Nat.Div0.mod_same. }
  destruct Hl as [-> ->]. apply (f_equal (λ x, twist_at tw x (N - 1) (M - 1) 0)).
  rewrite (fold_left_ext_in (λ st0 i, twist_at tw st0 i ((i + M) mod N) ((i + 1) mod N))
             (λ st0 i, twist_at tw st0 i (i + M) (i + 1)) (seq 0 (N - M))).
  2: { intros x i Hi%elem_of_seq.
       by rewrite (Nat.mod_small (i + M)), (Nat.mod_small (i + 1)) by (unfold N, M in *; lia). }
  rewrite (fold_left_ext_in (λ st0 i, twist_at tw st0 i ((i + M) mod N) ((i + 1) mod N))
             (λ st0 i, twist_at tw st0 i (i + M - N) (i + 1)) (seq (N - M) (M - 1))).
  2: { intros x i Hi%elem_of_seq.
       by rewrite (mod_sub_once (i + M)), (Nat.mod_small (i + 1)) by (unfold N, M in *; lia). }
  reflexivity.
Qed.

(** C35: the generator never reads outside its state.
    In every state reached from [mt_srand] by calls of [mt_rand], the
    state holds [N] 32-bit words and [next + left = N] unless a reload
    is due; the word [mt_rand] reads is at an index below [N]; its
    result is a 32-bit value and [php_mt_rand]'s is below [2^31]. *)
Theorem mt_reachable_safe mt :
  mt_reachable mt ->
  mt_wf mt ∧ (mt_next (if decide (mt_left mt = 0%Z) then mtReload mt else mt) < N)%nat ∧
  u32 (mt_rand mt).1 ∧ 0 <= (php_mt_rand mt).1 < 2 ^ 31.
Proof.
  intros Hr. pose proof (mt_reachable_wf mt Hr) as Hwf.
  destruct (mt_rand_step mt Hwf) as (Hi & _ & Hu).
  split_and!; [done | done | done | |]; apply php_mt_rand_bound; done.
Qed.

(** C36: [php_mt_rand_range] stays in its range.
    From a reachable state, for [min <= max] two [uint32_t] values,
    [php_mt_rand_range(min, max)] returns a value in [[min, max]]: the
    scaled draw [(max - min + 1) * n / 2^31] is below [max - min + 1]
    because [n < 2^31], and rounding the product to a [double] adds
    less than [max - min + 1], the gap that [n < 2^31] leaves. *)
Theorem php_mt_rand_range_bounds mt min max :
  mt_reachable mt -> u32 min -> u32 max -> min <= max ->
  min <= (php_mt_rand_range mt min max).1 <= max.
Proof.
  intros Hr Hmin Hmax Hle. pose proof (php_mt_rand_bound mt (mt_reachable_wf mt Hr)) as Hn.
  unfold php_mt_rand_range. destruct (php_mt_rand mt) as [n mt'] eqn:E. simpl in *.
  pose proof (round_double_le ((max - min + 1) * n) ltac:(nia)) as Hd.
  assert (Hdiv : ((max - min + 1) * n) / 2 ^ 52 * 2 ^ 52 <= (max - min + 1) * n)
    by (rewrite Z.mul_comm; apply Z.mul_div_le; lia).
  assert (Hlt : round_double ((max - min + 1) * n) < (max - min + 1) * 2 ^ 31) by nia.
  assert (0 <= Z.quot (round_double ((max - min + 1) * n)) (PHP_MT_RAND_MAX + 1) <= max - min).
  { unfold PHP_MT_RAND_MAX. rewrite Z.quot_div_nonneg by lia. split; [apply Z.div_pos; lia |].
    apply Z.lt_succ_r, Z.div_lt_upper_bound; lia. }
  unfold RAND_RANGE. rewrite wrap32_id by (unfold u32, two32 in *; lia). lia.
Qed.

Example mt_main_scenario info0 :
  mt_main None info0 =
    [1351; 1694858333; 246975523; 1310787424; 115944203; 2115752409;
     1123256280; 774816128; 283560872; 327653942; 1684423386] ∧
  mt_main (Some 12345) info0 =
    [1075; 247161732; 1463094264; 1878061366; 394962642; 2052924322;
     439289855; 377707977; 1219180210; 995152999; 1278922510].
Proof. split; vm_compute; reflexivity. Qed.

(** The rounding matters: for [min = 0], [max = 3502797396] and the
    draw [n = 2023103812], the exact quotient is 3299919313 but the
    [double] product rounds up to a multiple of [2^31] and the macro
    gives 3299919314, as the compiled C does. *)
Example RAND_RANGE_rounds :
  (3502797396 - 0 + 1) * 2023103812 / 2 ^ 31 = 3299919313 ∧
  RAND_RANGE 2023103812 0 3502797396 = 3299919314.
Proof. split; reflexivity. Qed.

(** ** Witnesses *)

Lemma mt_reachable_safe_witness :
  let mt := mt_srand 1000 (mkMT [] 0 0) in
  mt_wf mt ∧ (mt_next (if decide (mt_left mt = 0%Z) then mtReload mt else mt) < N)%nat ∧
  u32 (mt_rand mt).1 ∧ 0 <= (php_mt_rand mt).1 < 2 ^ 31.
Proof. exact (mt_reachable_safe _ (mt_reach_srand 1000 (mkMT [] 0 0))). Defined.

Lemma php_mt_rand_range_bounds_witness :
  u32 1000 ∧ u32 2000 ∧ 1000 <= 2000 ∧
  1000 <= (php_mt_rand_range (mt_srand 1000 (mkMT [] 0 0)) 1000 2000).1 <= 2000.
Proof.
  split; [u32_solve | split; [u32_solve | split; [lia |]]].
  exact (php_mt_rand_range_bounds _ 1000 2000 (mt_reach_srand 1000 (mkMT [] 0 0))
           ltac:(u32_solve) ltac:(u32_solve) ltac:(lia)).
Defined.
