(* ===== verification/Wikihash.v ===== *)
(** * The wikihash plug-in

    Models the second part of src/snowflake/rand.c (lines 78-194): the
    MediaWiki token generator.  [php_mt_initialize] fills only the first
    [N - 200] words of a Mersenne Twister state; [mediawikiHash] twists
    the words at [OFFSET = 4] and [OFFSET + 1] as PHP's reload would,
    tempers them, shifts them right by one (PHP's [mt_rand() >> 1]),
    prints the two values in hexadecimal with [hexConvert] and returns
    the MD5 digest of that text.  [hashFuncArray] exports it as the hash
    function "wikihash" with 16-byte digests.

    MD5 is an external library: it is the section variable [MD5], a
    function from the bytes hashed to the 16-byte digest.

    The theorems show that the two draws are the 5th and 6th outputs
    of the PHP generator of the test program (Mt.v) seeded with the same
    seed, so the shortened initialisation is enough, and that
    [hexConvert] prints the two values as minimal lower-case hexadecimal
    numbers one after the other. *)

From stdpp Require Import base list option sets strings.
From Stdlib Require Import Ascii.
From S2P Require Import Prelude Hash Names Mt.

Definition MD5_LEN : nat := 16.
Definition OFFSET : nat := 4.

(** The [twist] macro of rand.c (PHP's variant: the low bit of [u]). *)
Definition twist (m u v : Z) : Z :=
  m ^^ Z.shiftr (Z.lor (Z.land u 0x80000000) (Z.land v 0x7FFFFFFF)) 1 ^^
  Z.land (wrap32 (- Z.land u 0x00000001)) 0x9908b0df.

(** The loop of [php_mt_initialize]: [*s++ = (1812433253U * ( *r ^ ( *r >> 30)) + i)],
    from index [i] with [k] iterations left. *)
Fixpoint php_init_loop (r : Z) (i k : nat) : list Z :=
  match k with
  | O => []
  | S k' => let s := wrap32 (1812433253 * (r ^^ Z.shiftr r 30) + Z.of_nat i) in
            s :: php_init_loop s (S i) k'
  end.

(** [php_mt_initialize(seed, state)]: the words [state[0 .. N-201]]. *)
Definition php_mt_initialize (seed : Z) : list Z :=
  let s0 := Z.land seed 0xffffffff in s0 :: php_init_loop s0 1 (N - 200 - 1).

(** [temper(y)]. *)
Definition temper (y : Z) : Z :=
  let y := y ^^ Z.shiftr y 11 in
  let y := y ^^ Z.land (wrap32 (Z.shiftl y 7)) 0x9d2c5680 in
  let y := y ^^ Z.land (wrap32 (Z.shiftl y 15)) 0xefc60000 in
  y ^^ Z.shiftr y 18.

(** [static char digits[] = "0123456789abcdefghijklmnopqrstuvwxyz"]. *)
Definition digits : cstr := str "0123456789abcdefghijklmnopqrstuvwxyz".

(** One [do { *--ptr = digits[value % 16]; value /= 16; len ++; }
    while (ptr > buf && value)] loop: [room] is [ptr - buf]; the result
    is the text from [ptr] on, the room left and the count [len]. *)
Fixpoint hex_do (value : Z) (room : nat) (acc : cstr) (len : Z) : cstr * nat * Z :=
  match room with
  | O => (acc, O, len)
  | S room' =>
      let acc := digits !!! Z.to_nat (value mod 16) :: acc in
      let value := value / 16 in
      if decide (room' <> 0%nat ∧ value <> 0) then hex_do value room' acc (len + 1)
      else (acc, room', len + 1)
  end.

(** [hexConvert(buf, n1, n2)]: the text copied to [buf] and [len]. *)
Definition hexConvert (n1 n2 : Z) : cstr * Z :=
  let '(s, room, len) := hex_do n2 31 [] 0 in
  let '(s, _, len) := hex_do n1 room s len in
  (s, len).

(** [r1] and [r2] of [mediawikiHash]. *)
Definition wiki_draws (seed : Z) : Z * Z :=
  let p := php_mt_initialize seed in
  (Z.shiftr (temper (twist (p !!! (M + OFFSET)%nat) (p !!! (0 + OFFSET)%nat) (p !!! (1 + OFFSET)%nat))) 1,
   Z.shiftr (temper (twist (p !!! (M + OFFSET + 1)%nat) (p !!! (0 + OFFSET + 1)%nat) (p !!! (1 + OFFSET + 1)%nat))) 1).

(** The bytes of a C string, as [MD5_Update] reads them. *)
Definition cstr_bytes (s : cstr) : list byte := map (λ c, byte_of_Z (Z.of_nat (nat_of_ascii c))) s.

Section Plugin.
(** [MD5_Init], [MD5_Update] and [MD5_Final]: the digest of the bytes. *)
Variable MD5 : list byte -> list byte.

(** [mediawikiHash(seed, hash)]: the digest written to [hash]. *)
Definition mediawikiHash (seed : Z) : list byte :=
  let '(r1, r2) := wiki_draws seed in
  let '(buf, len) := hexConvert r1 r2 in
  MD5 (cstr_bytes (take (Z.to_nat len) buf)).

(** [hashFuncArray]: the entries before the terminating zero entry. *)
Definition hashFuncArray : list hashFuncEntry := [mkEntry "wikihash" mediawikiHash MD5_LEN].

End Plugin.

(** The reference hexadecimal text of [n]: no leading zeros, lower case. *)
Fixpoint hex_ref (fuel : nat) (n : Z) : cstr :=
  match fuel with
  | O => []
  | S f => if decide (n < 16) then [digits !!! Z.to_nat n]
           else hex_ref f (n / 16) ++ [digits !!! Z.to_nat (n mod 16)]
  end.

Definition hex (n : Z) : cstr := hex_ref 8 n.

(** The value of a lower-case hexadecimal digit, and of a text. *)
Definition hex_digit_val (c : ascii) : Z :=
  if is_digit c then digit_val c else Z.of_nat (nat_of_ascii c) - 87.

Definition hex_value (s : cstr) : Z := fold_left (λ acc c, acc * 16 + hex_digit_val c) s 0.

(** ** Lemmas *)

Lemma php_init_loop_eq r i k : php_init_loop r i k = init_loop r i k.
Proof. revert r i. induction k as [|k IH]; intros r i; simpl; [done |]. by rewrite IH. Qed.

Lemma take_init_loop r i k n : (k <= n)%nat -> take k (init_loop r i n) = init_loop r i k.
Proof.
  revert r i n. induction k as [|k IH]; intros r i [|n] Hk; simpl; try done; [lia |].
  rewrite IH by lia. done.
Qed.

(** The shortened initialisation is the prefix of the full one. *)
Lemma php_mt_initialize_prefix seed : php_mt_initialize seed = take (N - 200) (mtInitialize seed).
Proof.
  unfold php_mt_initialize, mtInitialize. rewrite php_init_loop_eq.
  replace (N - 200)%nat with (S (N - 200 - 1)) at 2 by (unfold N; lia).
  rewrite firstn_cons, take_init_loop by (unfold N; lia). done.
Qed.

(** Twisting at indices outside [l] leaves a word unchanged. *)
Lemma fold_twist_other tw g h l st k :
  k ∉ l -> fold_left (λ st i, twist_at tw st i (g i) (h i)) l st !!! k = st !!! k.
Proof.
  revert st. induction l as [|i l IH]; intros st Hk; simpl; [done |].
  rewrite IH by set_solver. unfold twist_at. apply list_lookup_total_insert_ne. set_solver.
Qed.

(** The first loop of the reload sets word [k < N - M] from the words
    of the state before the reload. *)
Lemma reload_first_prefix tw st n :
  length st = N -> (n <= N - M)%nat ->
  let acc := fold_left (λ st i, twist_at tw st i (i + M)%nat (i + 1)%nat) (seq 0 n) st in
  length acc = N ∧
  (∀ k, (k < n)%nat -> acc !!! k = tw (st !!! (k + M)%nat) (st !!! k) (st !!! (k + 1)%nat)) ∧
  (∀ k, (n <= k)%nat -> acc !!! k = st !!! k).
Proof.
  intros Hl. induction n as [|n IH]; intros Hn; [simpl; split_and!; [done | lia | done] |].
  destruct IH as (Hl' & Hlt & Hge); [lia |].
  rewrite seq_S, fold_left_last. cbn zeta in *.
  set (acc := fold_left _ (seq 0 n) st) in *. unfold twist_at. simpl Nat.add.
  split_and!; [by rewrite length_insert | |].
  - intros k Hk. destruct (decide (k = n)) as [->|].
    + rewrite list_lookup_total_insert_eq by (unfold N, M in *; lia). rewrite !Hge by lia. done.
    + rewrite list_lookup_total_insert_ne by done. apply Hlt. lia.
  - intros k Hk. rewrite list_lookup_total_insert_ne by lia. apply Hge. lia.
Qed.

(** Word [k < N - M] after a reload. *)
Lemma mtReload_word mt k :
  length (mt_state mt) = N -> (k < N - M)%nat ->
  mt_state (mtReload mt) !!! k =
    php_twist (mt_state mt !!! (k + M)%nat) (mt_state mt !!! k) (mt_state mt !!! (k + 1)%nat).
Proof.
  intros Hl Hk. unfold mtReload. rewrite decide_True by (unfold PHPMtRand; lia). cbn [mt_state].
  unfold reload_last, reload_second. unfold twist_at at 1.
  rewrite list_lookup_total_insert_ne by (unfold N, M in *; lia).
  rewrite fold_twist_other by (rewrite elem_of_seq; lia).
  unfold reload_first. by apply reload_first_prefix.
Qed.

(** After the reload, the calls of [php_mt_rand] return the tempered
    words in order. *)
Lemma php_mt_rands_reloaded R n k :
  (k + n <= N)%nat ->
  (php_mt_rands n (mkMT R (Z.of_nat (N - k)) k)).1 =
    map (λ j, Z.shiftr (mt_temper (R !!! j)) 1) (seq k n).
Proof.
  revert k. induction n as [|n IH]; intros k Hk; [done |].
  cbn [php_mt_rands]. unfold php_mt_rand, mt_rand at 1.
  rewrite decide_False by (cbn [mt_left]; unfold N in *; lia). cbn [mt_state mt_left mt_next].
  replace (wrap32 (Z.of_nat (N - k) - 1)) with (Z.of_nat (N - S k)) by
    (rewrite wrap32_id; [lia | unfold u32, two32, N in *; lia]).
  destruct (php_mt_rands n (mkMT R (Z.of_nat (N - S k)) (S k))) as [vs mt2] eqn:E.
  cbn [fst seq map]. f_equal. specialize (IH (S k) ltac:(lia)). rewrite E in IH. exact IH.
Qed.

Lemma php_mt_rands_srand seed mt0 n :
  (n <= N)%nat ->
  (php_mt_rands n (mt_srand seed mt0)).1 =
    map (λ j, Z.shiftr (mt_temper (mt_state (mtReload (mt_srand seed mt0)) !!! j)) 1) (seq 0 n).
Proof.
  intros Hn. destruct n as [|n]; [done |]. cbn [php_mt_rands].
  unfold php_mt_rand, mt_rand at 1. rewrite decide_True by done.
  assert (HL : mt_left (mtReload (mt_srand seed mt0)) = Z.of_nat N) by (unfold mtReload; done).
  assert (HN : mt_next (mtReload (mt_srand seed mt0)) = 0%nat) by (unfold mtReload; done).
  rewrite HL, HN. set (R := mt_state (mtReload (mt_srand seed mt0))).
  replace (wrap32 (Z.of_nat N - 1)) with (Z.of_nat (N - 1)) by
    (rewrite wrap32_id; [unfold N; lia | unfold u32, two32, N; lia]).
  destruct (php_mt_rands n _) as [vs mt2] eqn:E. cbn [fst seq map]. f_equal.
  pose proof (php_mt_rands_reloaded R n 1 ltac:(lia)) as H1.
  rewrite E in H1. exact H1.
Qed.

Lemma twist_php_twist : twist = php_twist.
Proof. done. Qed.

Lemma temper_mt_temper : temper = mt_temper.
Proof. done. Qed.

Lemma php_mt_initialize_word seed j :
  (j < N - 200)%nat -> php_mt_initialize seed !!! j = mtInitialize seed !!! j.
Proof. intros. rewrite php_mt_initialize_prefix. by apply lookup_total_take_lt. Qed.

(** The draw [k] of the plug-in in terms of the state after [mt_srand]. *)
Lemma php_draw_word seed mt0 k :
  (k + M + 1 < N - 200)%nat ->
  mt_state (mtReload (mt_srand seed mt0)) !!! k =
    twist (php_mt_initialize seed !!! (k + M)%nat) (php_mt_initialize seed !!! k)
          (php_mt_initialize seed !!! (k + 1)%nat).
Proof.
  intros Hk. rewrite !php_mt_initialize_word by lia.
  apply mtReload_word; [apply mtInitialize_wf | unfold N, M in *; lia].
Qed.

(** The two draws of the plug-in are PHP's fifth and sixth values. *)
Lemma wiki_draws_eq seed mt0 :
  wiki_draws seed =
    ((php_mt_rands 6 (mt_srand seed mt0)).1 !!! 4%nat, (php_mt_rands 6 (mt_srand seed mt0)).1 !!! 5%nat).
Proof.
  rewrite php_mt_rands_srand by (unfold N; lia).
  rewrite !lookup_total_map_seq by lia. rewrite !php_draw_word by (unfold N, M; lia).
  unfold wiki_draws, OFFSET. by rewrite temper_mt_temper.
Qed.

Lemma hex_digit_val_digits n : (n < 16)%nat -> hex_digit_val (digits !!! n) = Z.of_nat n.
Proof. intros Hn. do 16 (destruct n as [|n]; [reflexivity |]). lia. Qed.

Lemma hex_ref_length f v : (length (hex_ref f v) <= f)%nat.
Proof.
  revert v. induction f as [|f IH]; intros v; simpl; [lia |].
  case_decide; simpl; [lia |]. rewrite length_app. specialize (IH (v / 16)). simpl. lia.
Qed.

Lemma hex_ref_nonempty f v : (0 < f)%nat -> (1 <= length (hex_ref f v))%nat.
Proof. destruct f; simpl; [lia |]. case_decide; simpl; [lia | rewrite length_app; simpl; lia]. Qed.

Lemma hex_digit_bound f v : 16 <= v < 16 ^ Z.of_nat (S f) -> 0 <= v / 16 < 16 ^ Z.of_nat f.
Proof. intros Hv. rewrite Nat2Z.inj_succ, Z.pow_succ_r in Hv by lia. zlia. Qed.

Lemma hex_ref_pos f v : 16 <= v < 16 ^ Z.of_nat (S f) -> (0 < f)%nat.
Proof. intros Hv. destruct f; [simpl in Hv; lia | lia]. Qed.

(** One [do]-[while] loop writes the hexadecimal text of [v] in front of
    what is already written, when there is room for it. *)
Lemma hex_do_spec f v room acc len :
  (0 < f)%nat -> 0 <= v < 16 ^ Z.of_nat f -> (length (hex_ref f v) <= room)%nat ->
  hex_do v room acc len =
    (hex_ref f v ++ acc, (room - length (hex_ref f v))%nat, len + Z.of_nat (length (hex_ref f v))).
Proof.
  revert v room acc len. induction f as [|f IH]; intros v room acc len Hf Hv Hr; [lia |].
  pose proof (hex_ref_nonempty (S f) v Hf). destruct room as [|room]; [lia |].
  cbn [hex_do]. cbn [hex_ref] in *. case_decide as Hlt.
  - rewrite decide_False by (intros [_ H']; apply H'; zlia). cbn [length app] in *.
    rewrite Z.mod_small by lia. split_pairs; try reflexivity; lia.
  - assert (0 < f)%nat by (apply (hex_ref_pos f v); lia).
    pose proof (hex_ref_nonempty f (v / 16) ltac:(lia)).
    rewrite length_app in *. cbn [length] in *.
    rewrite decide_True by (split; [lia | zlia]).
    rewrite IH; [| lia | apply hex_digit_bound; lia | lia]. rewrite <- app_assoc. split_pairs; try reflexivity; lia.
Qed.

(** The text of [hex_ref] reads back as the number. *)
Lemma hex_ref_value f v : (0 < f)%nat -> 0 <= v < 16 ^ Z.of_nat f -> hex_value (hex_ref f v) = v.
Proof.
  revert v. induction f as [|f IH]; intros v Hf Hv; [lia |]. cbn [hex_ref]. case_decide.
  - unfold hex_value. simpl. rewrite hex_digit_val_digits by lia. lia.
  - assert (0 < f)%nat by (apply (hex_ref_pos f v); lia).
    unfold hex_value in *. rewrite fold_left_app. simpl.
    rewrite IH by (try apply hex_digit_bound; lia).
    rewrite hex_digit_val_digits by zlia. rewrite Z2Nat.id by zlia. zlia.
Qed.

Lemma u32_hex_bound n : u32 n -> 0 <= n < 16 ^ Z.of_nat 8.
Proof. unfold u32, two32. simpl. lia. Qed.

Lemma php_mt_initialize_u32 seed j :
  (j < N - 200)%nat -> u32 (php_mt_initialize seed !!! j).
Proof.
  intros Hj. rewrite php_mt_initialize_word by done. apply Forall_u32_lookup, mtInitialize_wf.
Qed.

Lemma wiki_draws_u32 seed : u32 (wiki_draws seed).1 ∧ u32 (wiki_draws seed).2.
Proof.
  unfold wiki_draws, OFFSET. cbn [fst snd]. rewrite twist_php_twist, temper_mt_temper.
  split; apply shiftr_u32; try lia; apply mt_temper_u32;
    apply php_twist_u32; apply php_mt_initialize_u32; unfold N, M; lia.
Qed.

(** The text [hexConvert] writes and the length it returns. *)
Lemma hexConvert_text n1 n2 :
  u32 n1 -> u32 n2 ->
  hexConvert n1 n2 = (hex n1 ++ hex n2, Z.of_nat (length (hex n1 ++ hex n2))) ∧
  (length (hex n1 ++ hex n2) <= 16)%nat.
Proof.
  intros H1 H2. pose proof (hex_ref_length 8 n1). pose proof (hex_ref_length 8 n2).
  unfold hex in *. rewrite length_app. split; [| lia].
  unfold hexConvert. rewrite (hex_do_spec 8) by (try apply u32_hex_bound; auto; lia).
  rewrite (hex_do_spec 8 n1) by (try apply u32_hex_bound; auto; lia).
  rewrite app_nil_r. split_pairs; lia.
Qed.

(** C13: the wikihash plug-in reproduces MediaWiki's token: for every
    seed, [mediawikiHash] hashes the hexadecimal texts of the fifth and
    sixth values [php_mt_rand] returns after [mt_srand(seed)] (from any
    previous state), although it computes them from 424 words of the
    initialisation and one twist each, without the reload. *)
Theorem mediawikiHash_php MD5 seed mt0 :
  let vs := (php_mt_rands 6 (mt_srand seed mt0)).1 in
  mediawikiHash MD5 seed = MD5 (cstr_bytes (hex (vs !!! 4%nat) ++ hex (vs !!! 5%nat))).
Proof.
  intros vs. pose proof (wiki_draws_eq seed mt0) as E. fold vs in E. clearbody vs.
  pose proof (wiki_draws_u32 seed) as Hu. unfold mediawikiHash.
  destruct (wiki_draws seed) as [r1 r2]. injection E as E1 E2. rewrite <- E1, <- E2.
  destruct Hu as [Hu1 Hu2]. cbn [fst snd] in Hu1, Hu2.
  destruct (hexConvert_text _ _ Hu1 Hu2) as [-> _]. by rewrite Nat2Z.id, take_ge.
Qed.

(** C37: [hexConvert(buf, n1, n2)] writes the hexadecimal text of [n1]
    followed by that of [n2], without leading zeros, and returns its
    length; both numbers read back from their parts, and the text never
    needs more than the 16 of the 32 bytes of [buf]. *)
Theorem hexConvert_spec n1 n2 :
  u32 n1 -> u32 n2 ->
  hexConvert n1 n2 = (hex n1 ++ hex n2, Z.of_nat (length (hex n1 ++ hex n2))) ∧
  hex_value (hex n1) = n1 ∧ hex_value (hex n2) = n2 ∧ (length (hex n1 ++ hex n2) <= 16)%nat.
Proof.
  intros H1 H2. destruct (hexConvert_text n1 n2 H1 H2) as [-> Hl].
  split_and!; [done | apply hex_ref_value; [lia | by apply u32_hex_bound] .. | done].
Qed.

Lemma hexConvert_spec_witness :
  hexConvert 0x6e92b0b 0x7e1bd1d9 = (str "6e92b0b7e1bd1d9", 15) ∧
  hex_value (hex 0x6e92b0b) = 0x6e92b0b ∧ hex_value (hex 0x7e1bd1d9) = 0x7e1bd1d9 ∧
  (length (hex 0x6e92b0b ++ hex 0x7e1bd1d9) <= 16)%nat.
Proof.
  destruct (hexConvert_spec 0x6e92b0b 0x7e1bd1d9 ltac:(u32_solve) ltac:(u32_solve)) as (-> & ? & ? & ?).
  split_and!; [vm_compute; reflexivity | assumption ..].
Defined.
