(* ===== verification/Files.v ===== *)
(** * Files: the table files and the command line

    The operations of snowflake.c that go through the file system, and
    the standalone [main]:
    - the file store is a map from path to contents ([files]); each call
      that can fail ([open], [fstat], [mmap]) has its outcome in a
      [syscalls] record;
    - [sortRainbowTable] maps the file, sorts its records with
      [quickSortTable] and writes them back in place;
    - [generateRainbowTable] resolves the hash function, creates the
      table under its generated name ([createRainbowTable], a relation
      over the schedules of the workers) and sorts it;
    - [searchRainbowTable] parses the name, resolves the hash function,
      maps the file and runs [searchHashInMemory];
    - [bytesFromHash] decodes the hexadecimal target, and [main]
      dispatches the three modes and prints the outcome.
    Values of locals the code leaves unassigned are parameters
    ([uninit], [hexnum0]); undefined behaviour (an overflow of a buffer,
    a read past a string) is [MemFault] or [None]. *)

From stdpp Require Import base list option gmap sets strings.
From Stdlib Require Import Ascii.
From S2P Require Import Prelude Hash Reduce Table Chain Quicksort Lookup Cmwc Generator Exhaustive Names Wikihash.

(** The files by path, and the outcome of the system calls that can fail
    for reasons the store does not show (permissions, resources). *)
Abbreviation files := (gmap cstr (list byte)).

Record syscalls := mkSys { open_ok : bool; fstat_ok : bool; mmap_ok : bool }.

Definition MAX_FUNC_NAME : nat := 64.

(** [sortRainbowTable(tableName, chainNum)]: the return value and the
    files after it.  [open] fails on a missing file, and the mapping
    covers the records of the file; [None] is a sort past the records,
    which the model does not cover. *)
Definition sortRainbowTable (io : syscalls) (fs : files) (tableName : cstr) (chainNum : nat)
    : option (Z * files) :=
  match fs !! tableName with
  | None => Some (-1, fs)
  | Some bs =>
      if negb (open_ok io) then Some (-1, fs)
      else if negb (fstat_ok io) then Some (-1, fs)
      else if negb (mmap_ok io) then Some (1, fs)
      else
        let table := table_of_bytes bs in
        if decide (chainNum <= length table)%nat then
          Some (1, <[tableName := table_bytes (quickSortTable table 0 chainNum) ++
                                  drop (CHAIN_SIZE * length table) bs]> fs)
        else None
  end.

(** The file [fopen(tableName, "w")] and the [fwrite]s leave: none when
    [fopen] fails. *)
Definition store (tableName : cstr) (file : option (list chain)) (fs : files) : files :=
  match file with
  | Some t => <[tableName := table_bytes t]> fs
  | None => fs
  end.

Section Generate.
Variable libs : nat -> option (list hashFuncEntry).
Variable conf : Z.
Variable io : syscalls.

(** [generateRainbowTable(chainNum, chainLen, index, hashName)] from
    the generator state [rng]: its return value and the files after it. *)
Inductive generateRainbowTable (rng : cmwc_state) (fs : files) (chainNum chainLen index : Z)
    (hashName : string) : Z -> files -> Prop :=
  | gen_unknown :
      resolveHashFunc libs hashName = None ->
      generateRainbowTable rng fs chainNum chainLen index hashName (-1) fs
  | gen_create_fail f len r file :
      resolveHashFunc libs hashName = Some (f, len) ->
      @createRainbowTable {| hash := f; hash_len := len |} cmwc_state _ (Z.to_nat chainLen)
        (Z.to_nat chainNum) conf rng r file -> r < 0 ->
      generateRainbowTable rng fs chainNum chainLen index hashName (-1)
        (store (generateTableName (str hashName) chainNum chainLen index) file fs)
  | gen_sorted f len r t r' fs' :
      resolveHashFunc libs hashName = Some (f, len) ->
      @createRainbowTable {| hash := f; hash_len := len |} cmwc_state _ (Z.to_nat chainLen)
        (Z.to_nat chainNum) conf rng r (Some t) -> 0 <= r ->
      sortRainbowTable io (store (generateTableName (str hashName) chainNum chainLen index) (Some t) fs)
        (generateTableName (str hashName) chainNum chainLen index) (Z.to_nat chainNum) = Some (r', fs') ->
      generateRainbowTable rng fs chainNum chainLen index hashName (if decide (r' < 0) then -1 else 1) fs'.

End Generate.

(** The contents of the locals [parseTablename] may leave unassigned:
    [hashFuncName], [chainNum] and [chainLen] of [searchRainbowTable]. *)
Record uninit := mkUninit { u_name : cstr; u_chainNum : Z; u_chainLen : Z }.

(** [searchRainbowTable(tableName, targetHash, &seed)]: the return value
    and the seed it stores. *)
Definition searchRainbowTable (libs : nat -> option (list hashFuncEntry)) (io : syscalls)
    (fs : files) (un : uninit) (tableName : cstr) (target : list byte) : outcome (Z * option Z) :=
  let '(r, sc) := parseTablename tableName in
  if decide (r < 0) then Ret (-1, None)
  else
    let name := default (u_name un) (sc_name sc) in
    if decide (MAX_FUNC_NAME <= length name)%nat then MemFault
    else
      let chainNum := default (u_chainNum un) (sc_chainNum sc) in
      let chainLen := default (u_chainLen un) (sc_chainLen sc) in
      match resolveHashFunc libs (String.string_of_list_ascii name) with
      | None => Ret (-1, None)
      | Some (f, len) =>
          match fs !! tableName with
          | None => Ret (-1, None)
          | Some bs =>
              if negb (open_ok io && fstat_ok io && mmap_ok io) then Ret (-1, None)
              else
                found ← @searchHashInMemory {| hash := f; hash_len := len |}
                          (table_of_bytes bs) chainNum (Z.to_nat chainLen) target;
                Ret (match found with Some s => (1, Some s) | None => (0, None) end)
          end
      end.

(** ** The command line *)

Definition NUL : ascii := "000"%char.

(** [hash[i]]: the characters of the string, then its terminator;
    [None] past it. *)
Definition char_at (s : cstr) (i : nat) : option ascii :=
  if decide (i < length s)%nat then Some (s !!! i)
  else if decide (i = length s) then Some NUL else None.

(** The C string a [char] array holds: up to its first [NUL]. *)
Definition cstring (cs : list ascii) : cstr := (span (λ c, bool_decide (c <> NUL)) cs).1.

Definition is_xdigit (c : ascii) : bool :=
  is_digit c || bool_decide (97 <= nat_of_ascii c <= 102)%nat || bool_decide (65 <= nat_of_ascii c <= 70)%nat.

Definition xdigit_val (c : ascii) : Z :=
  if is_digit c then digit_val c
  else if bool_decide (97 <= nat_of_ascii c)%nat then Z.of_nat (nat_of_ascii c) - 87
  else Z.of_nat (nat_of_ascii c) - 55.

Definition xdigits_value (ds : cstr) : Z := fold_left (λ acc c, acc * 16 + xdigit_val c) ds 0.

(** [sscanf(num, "%x", &hexnum)]: white space, an optional sign, then at
    least one hexadecimal digit; [None] assigns nothing. *)
Definition scan_x (s : cstr) : option Z :=
  let s := skip_ws s in
  let '(neg, s) :=
    match s with
    | c :: s' => if decide (c = "-"%char) then (true, s')
                 else if decide (c = "+"%char) then (false, s') else (false, s)
    | [] => (false, s)
    end in
  let '(ds, _) := span is_xdigit s in
  if decide (ds = []) then None
  else let v := Z.min (xdigits_value ds) (2 ^ 64 - 1) in Some (wrap32 (if neg then - v else v)).

(** One iteration of the loop of [bytesFromHash], for [i = 2 j]:
    [num] holds [hash[i]] and [hash[i + 1]], and [bytes[j]] gets the
    low byte of [hexnum]. *)
Definition bytes_step (hash : cstr) (st : option (list byte * Z)) (j : nat) : option (list byte * Z) :=
  '(bytes, hexnum) ← st;
  c0 ← char_at hash (2 * j);
  c1 ← char_at hash (2 * j + 1);
  let hexnum := default hexnum (scan_x (cstring [c0; c1])) in
  Some (<[j := byte_of_Z hexnum]> bytes, hexnum).

(** [bytesFromHash(bytes, hash)] with [hexnum] initially [hexnum0]: the
    [MAX_HASH_SIZE] bytes, or [None] when it reads past the string. *)
Definition bytesFromHash (hexnum0 : Z) (hash : cstr) : option (list byte) :=
  fst <$> fold_left (bytes_step hash) (seq 0 16) (Some (replicate MAX_HASH_SIZE Byte.x00, hexnum0)).

(** [atoi(s)] converted to [unsigned int]: [(int) strtol(s, NULL, 10)]. *)
Definition atoi (s : cstr) : Z :=
  let s := skip_ws s in
  let '(neg, s) :=
    match s with
    | c :: s' => if decide (c = "-"%char) then (true, s')
                 else if decide (c = "+"%char) then (false, s') else (false, s)
    | [] => (false, s)
    end in
  let v := digits_value (span is_digit s).1 in
  wrap32 (if neg then Z.max (- v) (- 2 ^ 63) else Z.min v (2 ^ 63 - 1)).

(** The mode names [main] compares [argv[1]] with. *)
Definition GENERATE_HASH_TABLES : cstr := str "generate".
Definition SEARCH_HASH_TABLES : cstr := str "search".
Definition CRACK_HASH : cstr := str "crack".

(** The lines [main] prints. *)
Inductive msg := MsgUsage | MsgInvalidMode | MsgInvalidArgs | MsgFound (s : Z) | MsgNotFound | MsgError.

#[export] Instance msg_eq_dec : EqDecision msg.
Proof. solve_decision. Defined.

(** [if (found > 0) ... else if (!found) ... else ...]. *)
Definition report (found : Z) (seed : Z) : list msg :=
  if decide (0 < found) then [MsgFound seed]
  else if decide (found = 0) then [MsgNotFound] else [MsgError].

Section Main.
Variable libs : nat -> option (list hashFuncEntry).
Variable conf : Z.
Variable io : syscalls.
Variable un : uninit.
Variables hexnum0 seed0 : Z.

(** [for (i = 0; i < tnum; i ++) generateRainbowTable(...)], each table
    from the generator state its predecessors left. *)
Inductive gen_tables (chainNum chainLen : Z) (hashName : string) (tnum : Z)
    : Z -> files -> files -> Prop :=
  | gen_done i fs : tnum <= i -> gen_tables chainNum chainLen hashName tnum i fs fs
  | gen_next i fs rng r fs1 fs2 :
      i < tnum -> generateRainbowTable libs conf io rng fs chainNum chainLen i hashName r fs1 ->
      gen_tables chainNum chainLen hashName tnum (i + 1) fs1 fs2 ->
      gen_tables chainNum chainLen hashName tnum i fs fs2.

(** [main(argc, argv)]: the exit code, the lines printed and the files
    after it.  Undefined behaviour has no outcome. *)
Inductive main (argv : list cstr) (fs : files) : Z -> list msg -> files -> Prop :=
  | main_usage : (length argv < 2)%nat -> main argv fs 0 [MsgUsage] fs
  | main_gen_args : (2 <= length argv)%nat -> argv !!! 1%nat = GENERATE_HASH_TABLES -> length argv <> 6%nat ->
      main argv fs 1 [MsgUsage; MsgInvalidArgs] fs
  | main_gen fs' : argv !!! 1%nat = GENERATE_HASH_TABLES -> length argv = 6%nat ->
      gen_tables (atoi (argv !!! 2%nat)) (atoi (argv !!! 3%nat))
        (String.string_of_list_ascii (argv !!! 5%nat)) (atoi (argv !!! 4%nat)) 0 fs fs' ->
      main argv fs 0 [] fs'
  | main_search_args : (2 <= length argv)%nat -> argv !!! 1%nat = SEARCH_HASH_TABLES -> length argv <> 4%nat ->
      main argv fs 1 [MsgUsage; MsgInvalidArgs] fs
  | main_search bytes found seed : argv !!! 1%nat = SEARCH_HASH_TABLES -> length argv = 4%nat ->
      bytesFromHash hexnum0 (argv !!! 3%nat) = Some bytes ->
      searchRainbowTable libs io fs un (argv !!! 2%nat) bytes = Ret (found, seed) ->
      main argv fs 0 (report found (default seed0 seed)) fs
  | main_crack_args : (2 <= length argv)%nat -> argv !!! 1%nat = CRACK_HASH -> length argv <> 4%nat ->
      main argv fs 1 [MsgUsage; MsgInvalidArgs] fs
  | main_crack bytes found seed : argv !!! 1%nat = CRACK_HASH -> length argv = 4%nat ->
      bytesFromHash hexnum0 (argv !!! 3%nat) = Some bytes ->
      searchHashOnline libs (String.string_of_list_ascii (argv !!! 2%nat)) bytes conf seed0 found seed ->
      main argv fs 0 (report found seed) fs
  | main_bad_mode : (2 <= length argv)%nat ->
      argv !!! 1%nat ∉ [GENERATE_HASH_TABLES; SEARCH_HASH_TABLES; CRACK_HASH] ->
      main argv fs 1 [MsgUsage; MsgInvalidMode] fs.

End Main.

(** The argument lists on which [main] runs a mode: [usage] alone when
    there is no mode, otherwise a known mode with its argument count. *)
Definition valid_args (argv : list cstr) : Prop :=
  (length argv < 2)%nat ∨ (argv !!! 1%nat = GENERATE_HASH_TABLES ∧ length argv = 6%nat) ∨
  ((argv !!! 1%nat = SEARCH_HASH_TABLES ∨ argv !!! 1%nat = CRACK_HASH) ∧ length argv = 4%nat).

(** ** The standalone wikihash program (rand.c) *)

(** A lower-case hexadecimal digit, as [%x] prints it. *)
Definition hex_digit (d : Z) : ascii := ascii_of_nat (Z.to_nat (if d <? 10 then 48 + d else 87 + d)).

(** [sprintf(encoded, "%02hhx", *data)] for each byte: two digits. *)
Definition hex_of_bytes (d : list byte) : cstr :=
  d ≫= λ b, [hex_digit (byte_val b / 16); hex_digit (byte_val b mod 16)].

(** [readable(data)]: the 32 digits of the 16 bytes of a digest. *)
Definition readable (data : list byte) : cstr := hex_of_bytes (take 16 data).

(** The [main] of the standalone build: the digest of the seed
    [atoi(argv[1])], printed by [readable]. *)
Definition wiki_main (MD5 : list byte -> list byte) (arg : cstr) : cstr :=
  readable (mediawikiHash MD5 (atoi arg)).

(** ** Lemmas *)

Section PoolWf.
Context `{HashFunction} {St : Type} `{RandSource St}.
Variable chainLen : nat.
Hypothesis rand_u32 : ∀ st : St, u32 (rand_next st).1.

Lemma generateChain_wf (rng rng' : St) c : generateChain chainLen rng = (c, rng') -> chain_wf c.
Proof.
  unfold generateChain. pose proof (rand_u32 rng). destruct (rand_next rng) as [s st'].
  intros [= <- _]. split; [done | by apply walk_u32].
Qed.

(** The records of the file and of the buffers have 32-bit fields. *)
Definition pool_wf (cfg : pool St) : Prop :=
  Forall chain_wf (p_file cfg) ∧ Forall (λ w, Forall chain_wf (w_buffer w)) (p_workers cfg).

Lemma pool_wf_step cfg cfg' : pool_wf cfg -> pool_step chainLen cfg cfg' -> pool_wf cfg'.
Proof.
  intros [Hf Hw] Hs.
  destruct Hs as [? ? ? ws k w c ? Hk ? ? ? Hg|? ? ws k w Hk|? ? ? ws k w Hk|? ? ? ws k w m Hk|? ? ? ws k w Hk];
    pose proof (proj1 (Forall_lookup _ _) Hw k w Hk) as Hb; split; cbn [p_file p_workers w_buffer] in *;
    try (apply Forall_insert; [done |]); cbn [w_buffer]; try done.
  - apply Forall_app; split; [done |]. constructor; [by eapply generateChain_wf | constructor].
  - by apply Forall_app.
  - apply Forall_app; split; [done |]. by apply Forall_take.
Qed.

Lemma pool_wf_rtc cfg cfg' : pool_wf cfg -> rtc (pool_step chainLen) cfg cfg' -> pool_wf cfg'.
Proof. intros Hw Hr. induction Hr; eauto using pool_wf_step. Qed.

(** The records [createRainbowTable] leaves have 32-bit fields. *)
Lemma create_wf n conf (rng : St) r t :
  createRainbowTable chainLen n conf rng r (Some t) -> Forall chain_wf t.
Proof.
  inversion 1 as [| |cfg Hr Hj]; subst; [done |].
  assert (Hi : pool_wf (init_pool rng n (threadNum conf))).
  { split; [constructor | apply Forall_map, Forall_forall; constructor]. }
  exact (proj1 (pool_wf_rtc _ _ Hi Hr)).
Qed.

(** [createRainbowTable] returns -1 or 1. *)
Lemma create_result n conf (rng : St) r file :
  createRainbowTable chainLen n conf rng r file -> r = -1 ∨ r = 1.
Proof. inversion 1; [by left | by left |]. unfold pool_result. case_match; auto. Qed.

End PoolWf.

(** Sorting the table just written: a failed [open] or [fstat] returns
    -1, a failed [mmap] returns 1 and leaves the file as written. *)
Lemma sort_stored io fs name t :
  Forall chain_wf t ->
  sortRainbowTable io (store name (Some t) fs) name (length t) =
    Some (if open_ok io && fstat_ok io then 1 else -1,
          if open_ok io && fstat_ok io && mmap_ok io
          then <[name := table_bytes (quickSortTable t 0 (length t))]> fs
          else <[name := table_bytes t]> fs).
Proof.
  intros Hwf. unfold sortRainbowTable, store. rewrite lookup_insert_eq.
  destruct (open_ok io), (fstat_ok io), (mmap_ok io); try done. cbn.
  rewrite table_of_bytes_bytes, decide_True by done.
  rewrite drop_ge, app_nil_r, insert_insert_eq; [done |].
  rewrite table_bytes_length. unfold CHAIN_SIZE. lia.
Qed.

(** The hash function of a resolved name, as an instance. *)
Lemma generate_sorted_cases libs conf io rng fs chainNum chainLen index name r fs' :
  conf < two32 -> generateRainbowTable libs conf io rng fs chainNum chainLen index name r fs' -> r = 1 ->
  ∃ f len t, resolveHashFunc libs name = Some (f, len) ∧
    @createRainbowTable {| hash := f; hash_len := len |} cmwc_state _ (Z.to_nat chainLen)
      (Z.to_nat chainNum) conf rng 1 (Some t) ∧
    length t = Z.to_nat chainNum ∧ Forall chain_wf t ∧ open_ok io && fstat_ok io = true ∧
    fs' = if mmap_ok io
          then <[generateTableName (str name) chainNum chainLen index :=
                   table_bytes (quickSortTable t 0 (length t))]> fs
          else <[generateTableName (str name) chainNum chainLen index := table_bytes t]> fs.
Proof.
  intros Hconf Hg Hr. destruct Hg as [| | f len r0 t r' fs'' Hres Hc Hr0 Hs]; [lia | lia |].
  pose proof Hc as Hc'. apply create_result in Hc' as [-> | ->]; [lia |].
  pose proof Hc as Hwf. apply create_wf in Hwf; [| exact rand_cmwc_u32].
  pose proof Hc as Hlen. apply create_table in Hlen as (_ & _ & Hlen); [| done]. specialize (Hlen eq_refl).
  rewrite <- Hlen, sort_stored in Hs by done. injection Hs as <- <-.
  exists f, len, t. split_and!; try done.
  - by destruct (open_ok io && fstat_ok io).
  - by destruct (open_ok io), (fstat_ok io), (mmap_ok io).
Qed.

(** The characters of [hex_digit]. *)
Lemma hex_digit_props d :
  0 <= d < 16 ->
  is_space (hex_digit d) = false ∧ hex_digit d <> "-"%char ∧ hex_digit d <> "+"%char ∧
  hex_digit d <> NUL ∧ is_xdigit (hex_digit d) = true ∧ xdigit_val (hex_digit d) = d.
Proof.
  intros Hd. rewrite <- (Z2Nat.id d) by lia. assert (Hn : (Z.to_nat d < 16)%nat) by lia.
  generalize (Z.to_nat d) Hn. clear. intros n Hn.
  do 16 (destruct n as [|n]; [split_and!; try reflexivity; discriminate |]). lia.
Qed.

(** [sscanf(num, "%x", &hexnum)] on two lower-case digits. *)
Lemma scan_x_pair a b :
  0 <= a < 16 -> 0 <= b < 16 -> scan_x (cstring [hex_digit a; hex_digit b]) = Some (16 * a + b).
Proof.
  intros Ha Hb. destruct (hex_digit_props a Ha) as (Sa & Ma & Pa & Na & Xa & Va).
  destruct (hex_digit_props b Hb) as (Sb & Mb & Pb & Nb & Xb & Vb).
  unfold cstring. cbn [span]. rewrite !bool_decide_true by done. cbn [fst].
  unfold scan_x. rewrite skip_ws_nonspace by done. rewrite !decide_False by done.
  cbn [span]. rewrite Xa, Xb. rewrite decide_False by done.
  unfold xdigits_value. cbn [fold_left]. rewrite Va, Vb.
  rewrite Z.min_l by lia. f_equal. rewrite wrap32_id; [lia | u32_solve].
Qed.

Lemma length_hex_of_bytes d : length (hex_of_bytes d) = (2 * length d)%nat.
Proof.
  induction d as [|b d IH]; [done |]. unfold hex_of_bytes in *.
  rewrite bind_cons, length_app, IH. simpl. lia.
Qed.

Lemma hex_of_bytes_lookup d j :
  (j < length d)%nat ->
  hex_of_bytes d !! (2 * j)%nat = Some (hex_digit (byte_val (d !!! j) / 16)) ∧
  hex_of_bytes d !! (2 * j + 1)%nat = Some (hex_digit (byte_val (d !!! j) mod 16)).
Proof.
  revert j. induction d as [|b d IH]; intros j Hj; simpl in Hj; [lia |].
  unfold hex_of_bytes. rewrite bind_cons. fold (hex_of_bytes d).
  destruct j as [|j]; [done |]. replace (2 * S j)%nat with (S (S (2 * j))) by lia.
  replace (S (S (2 * j)) + 1)%nat with (S (S (2 * j + 1))) by lia. apply IH. lia.
Qed.

Lemma char_at_in s i c : s !! i = Some c -> char_at s i = Some c.
Proof.
  intros Hs. unfold char_at. pose proof (lookup_lt_Some _ _ _ Hs).
  rewrite decide_True by done. f_equal. by apply list_lookup_total_correct.
Qed.

(** After [j] iterations on the encoding of [d], the first [j] bytes
    are those of [d]. *)
Lemma bytes_loop hexnum0 d j :
  length d = 16%nat -> (j <= 16)%nat ->
  fold_left (bytes_step (hex_of_bytes d)) (seq 0 j) (Some (replicate MAX_HASH_SIZE Byte.x00, hexnum0)) =
    Some (take j d ++ replicate (MAX_HASH_SIZE - j) Byte.x00,
          match j with O => hexnum0 | S j' => byte_val (d !!! j') end).
Proof.
  intros Hd. induction j as [|j IH]; intros Hj; [done |].
  rewrite seq_S, fold_left_last, IH by lia. cbn [Nat.add].
  destruct (hex_of_bytes_lookup d j ltac:(lia)) as [H0 H1].
  unfold bytes_step. cbn [mbind option_bind]. rewrite (char_at_in _ _ _ H0), (char_at_in _ _ _ H1).
  cbn [mbind option_bind]. pose proof (byte_val_range (d !!! j)).
  rewrite scan_x_pair by zlia.
  rewrite <- Z_div_mod_eq_full. simpl default. rewrite byte_of_val. f_equal. f_equal.
  rewrite insert_app_r_alt by (rewrite length_take; lia). rewrite length_take, Nat.min_l, Nat.sub_diag by lia.
  replace (MAX_HASH_SIZE - j)%nat with (S (MAX_HASH_SIZE - S j)) by (unfold MAX_HASH_SIZE; lia).
  cbn [replicate insert list_insert]. rewrite (take_S_r d j (d !!! j)), <- app_assoc; [done |].
  apply list_lookup_lookup_total_lt. lia.
Qed.

Lemma modes_distinct :
  GENERATE_HASH_TABLES <> SEARCH_HASH_TABLES ∧ GENERATE_HASH_TABLES <> CRACK_HASH ∧ SEARCH_HASH_TABLES <> CRACK_HASH.
Proof. unfold GENERATE_HASH_TABLES, SEARCH_HASH_TABLES, CRACK_HASH. split_and!; discriminate. Qed.

(** What [searchRainbowTable] returns: 1 with a seed, or 0 or -1 without. *)
Lemma searchRainbowTable_ret libs io fs un name target r sd :
  searchRainbowTable libs io fs un name target = Ret (r, sd) ->
  (r = 1 ∧ ∃ s, sd = Some s) ∨ (r <= 0 ∧ sd = None).
Proof.
  unfold searchRainbowTable. destruct (parseTablename name) as [r0 sc].
  case_decide; [intros [= <- <-]; by right |]. case_decide; [done |].
  destruct (resolveHashFunc _ _) as [[f len]|]; [| intros [= <- <-]; by right].
  destruct (fs !! name); [| intros [= <- <-]; by right].
  destruct (negb _); [intros [= <- <-]; by right |].
  destruct (@searchHashInMemory _ _ _ _ _) as [[s|]| |]; cbn; intros [= <- <-];
    [left; eauto | by right].
Qed.

Lemma report_found found seed s : MsgFound s ∈ report found seed -> 0 < found ∧ s = seed.
Proof. unfold report. repeat case_decide; rewrite list_elem_of_singleton; intros [=]; auto. Qed.

(** ** Theorems *)

(** C11: a table [generateRainbowTable] reports as generated holds the
    requested chains, sorted.  When it returns 1, the file named
    [generateTableName(hashName, chainNum, chainLen, index)] holds
    exactly [chainNum] records, each a chain of the resolved hash
    function whose end is the seed [chainLen] rounds after its start;
    they are sorted by endpoint whenever the file could be mapped and
    [chainNum < 2^31] (the range [quickSortTable] can hold in an [int]),
    and no other file changed. *)
Theorem generateRainbowTable_table libs conf io rng fs chainNum chainLen index name r fs' :
  conf < two32 -> generateRainbowTable libs conf io rng fs chainNum chainLen index name r fs' -> r = 1 ->
  (∀ p, p <> generateTableName (str name) chainNum chainLen index -> fs' !! p = fs !! p) ∧
  ∃ f len t, resolveHashFunc libs name = Some (f, len) ∧
    fs' !! generateTableName (str name) chainNum chainLen index = Some (table_bytes t) ∧
    length t = Z.to_nat chainNum ∧
    Forall (@chain_valid {| hash := f; hash_len := len |} (Z.to_nat chainLen)) t ∧
    (mmap_ok io = true -> chainNum < 2 ^ 31 -> table_sorted t).
Proof.
  intros Hconf Hg Hr.
  destruct (generate_sorted_cases _ _ _ _ _ _ _ _ _ _ _ Hconf Hg Hr) as (f & len & t & Hres & Hc & Hlen & Hwf & _ & ->).
  apply create_table in Hc as (Hv & _); [| done].
  pose proof (quickSortTable_perm t Hwf) as Hp.
  split; [intros p Hp'; by destruct (mmap_ok io); rewrite lookup_insert_ne by done |].
  destruct (mmap_ok io); eexists f, len, _; rewrite lookup_insert_eq; (split_and!; [done | done | | | ]).
  - by rewrite (Permutation_length Hp).
  - by rewrite Hp.
  - intros _ Hn. apply quickSortTable_sorts; [lia | done].
  - done.
  - done.
  - discriminate.
Qed.

(** C40: a failed [mmap] in [sortRainbowTable] is reported as success.
    [sortRainbowTable] returns 1 when [mmap] fails, so
    [generateRainbowTable] returns 1 although the file holds the records
    in the order the workers wrote them, unsorted. *)
Theorem generateRainbowTable_mmap_unsorted libs conf rng fs chainNum chainLen index name f len t :
  resolveHashFunc libs name = Some (f, len) ->
  @createRainbowTable {| hash := f; hash_len := len |} cmwc_state _ (Z.to_nat chainLen)
    (Z.to_nat chainNum) conf rng 1 (Some t) ->
  generateRainbowTable libs conf (mkSys true true false) rng fs chainNum chainLen index name 1
    (<[generateTableName (str name) chainNum chainLen index := table_bytes t]> fs).
Proof.
  intros Hres Hc. change 1 with (if decide ((1:Z) < 0) then -1 else 1).
  eapply gen_sorted; [exact Hres | exact Hc | lia |].
  unfold sortRainbowTable, store. by rewrite lookup_insert_eq.
Qed.

(** a seed [searchRainbowTable] reports is a preimage of the target.
    When it returns a seed, it returns 1 and the hash function named by
    the table's file name maps that seed to the target digest on its
    first [hashLen] bytes. *)
Theorem searchRainbowTable_found libs io fs un name target r s :
  searchRainbowTable libs io fs un name target = Ret (r, Some s) ->
  r = 1 ∧ ∃ f len,
    resolveHashFunc libs (String.string_of_list_ascii (default (u_name un) (sc_name (parseTablename name).2)))
      = Some (f, len) ∧ memeq len (f s) target = true.
Proof.
  unfold searchRainbowTable. destruct (parseTablename name) as [r0 sc]. cbn [snd].
  case_decide; [done |]. case_decide; [done |].
  destruct (resolveHashFunc _ _) as [[f len]|]; [| done].
  destruct (fs !! name) as [bs|]; [| done]. destruct (negb _); [done |].
  destruct (@searchHashInMemory _ _ _ _ _) as [[s'|]| |] eqn:E; cbn; intros Hr; try done.
  injection Hr as <- <-. split; [done |]. exists f, len. split; [done |].
  exact (@search_sound {| hash := f; hash_len := len |} _ _ _ _ _ E).
Qed.

(** C38: [bytesFromHash] decodes what [readable] prints.
    For every 16-byte digest, the 32 digits [readable] prints (as the
    standalone wikihash program does) decode with [bytesFromHash] to
    the digest followed by zero bytes up to [MAX_HASH_SIZE], whatever
    [hexnum] held before. *)
Theorem bytesFromHash_readable hexnum0 d :
  length d = 16%nat ->
  bytesFromHash hexnum0 (readable d) = Some (d ++ replicate (MAX_HASH_SIZE - 16) Byte.x00).
Proof.
  intros Hd. unfold bytesFromHash, readable. rewrite take_ge by lia.
  rewrite bytes_loop by lia. simpl. by rewrite take_ge by lia.
Qed.

(** C12: a seed [main] prints is a preimage of the target.
    When [main] prints "Seed found: s" (search or crack mode), the
    hexadecimal target [argv[3]] decodes to bytes, and the hash
    function named by the table's file name (search) or by [argv[2]]
    (crack) maps [s] to those bytes on its first [hashLen] bytes. *)
Theorem main_found_sound libs conf io un hexnum0 seed0 argv fs code msgs fs' s :
  conf < two32 ->
  main libs conf io un hexnum0 seed0 argv fs code msgs fs' -> MsgFound s ∈ msgs ->
  ∃ bytes name f len,
    bytesFromHash hexnum0 (argv !!! 3%nat) = Some bytes ∧
    ((argv !!! 1%nat = SEARCH_HASH_TABLES ∧
      name = String.string_of_list_ascii (default (u_name un) (sc_name (parseTablename (argv !!! 2%nat)).2))) ∨
     (argv !!! 1%nat = CRACK_HASH ∧ name = String.string_of_list_ascii (argv !!! 2%nat))) ∧
    resolveHashFunc libs name = Some (f, len) ∧ memeq len (f s) bytes = true.
Proof.
  intros Hc Hm Hin.
  destruct Hm as [| | | |bytes found seed Hm Hn Hb Hs| |bytes found seed Hm Hn Hb Hs|];
    try (exfalso; revert Hin; rewrite ?elem_of_cons, elem_of_nil;
         intros Hin; repeat destruct Hin as [Hin | Hin]; congruence).
  - apply report_found in Hin as [Hpos ->].
    destruct (searchRainbowTable_ret _ _ _ _ _ _ _ _ Hs) as [[-> [s' ->]] | [? _]]; [| lia].
    destruct (searchRainbowTable_found _ _ _ _ _ _ _ _ Hs) as (_ & f & len & Hres & Hmq).
    exists bytes, (String.string_of_list_ascii (default (u_name un) (sc_name (parseTablename (argv !!! 2%nat)).2))), f, len.
    split_and!; [done | by left | done | done].
  - apply report_found in Hin as [Hpos ->].
    destruct (online_result _ _ _ _ _ _ _ Hc Hs) as [[-> _] | (_ & f & len & Hres & _ & Hmq)]; [lia |].
    exists bytes, (String.string_of_list_ascii (argv !!! 2%nat)), f, len.
    rewrite memeq_comm. split_and!; [done | by right | done | done].
Qed.

(** C39: [main] exits with 0 exactly on valid arguments.
    The exit code is 0 when there is no mode or a known mode has its
    number of arguments, and 1 otherwise, after the usage text; only
    the generate mode changes files, and it prints nothing, whatever
    happened to the tables. *)
Theorem main_exit libs conf io un hexnum0 seed0 argv fs code msgs fs' :
  main libs conf io un hexnum0 seed0 argv fs code msgs fs' ->
  (code = 0 <-> valid_args argv) ∧
  (code <> 0 -> code = 1 ∧ fs' = fs ∧ head msgs = Some MsgUsage) ∧
  (argv !!! 1%nat <> GENERATE_HASH_TABLES -> fs' = fs) ∧
  (argv !!! 1%nat = GENERATE_HASH_TABLES -> length argv = 6%nat -> msgs = [] ∧ code = 0).
Proof.
  destruct modes_distinct as (D1 & D2 & D3). unfold valid_args.
  destruct 1 as [Hl|Hl Hm Hn|fs1 Hm Hn _|Hl Hm Hn|bytes found seed Hm Hn _ _|Hl Hm Hn|bytes found seed Hm Hn _ _|Hl Hm].
  - split_and!; [tauto | lia | done | intros; lia].
  - rewrite Hm. split_and!; [| done | done | done].
    split; [lia | intros [? | [[_ ?] | [[? | ?] _]]]; congruence || lia].
  - rewrite Hm. split_and!; [tauto | lia | done | done].
  - rewrite Hm. split_and!; [| done | done | congruence].
    split; [lia | intros [? | [[? _] | [[_ | ?] ?]]]; congruence || lia].
  - rewrite Hm. split_and!; [tauto | lia | done | congruence].
  - rewrite Hm. split_and!; [| done | done | congruence].
    split; [lia | intros [? | [[? _] | [[? | _] ?]]]; congruence || lia].
  - rewrite Hm. split_and!; [tauto | lia | done | congruence].
  - split_and!; [| done | done | intros Hg; exfalso; apply Hm; rewrite Hg; set_solver].
    split; [lia | intros [? | [[Hg _] | [[Hg | Hg] _]]]; [lia | ..]; exfalso; apply Hm; rewrite Hg; set_solver].
Qed.

(** ** Witnesses

    The two-chain table of [Generator]'s witness run ([wrun]: the test
    hash [seed_hash] registered as ["seed"], chains of length 3), written
    under its generated name ["seed.2.3.0.rt"]. *)

Definition wlibs : nat -> option (list hashFuncEntry) :=
  λ i, if decide (i = 0%nat) then Some [mkEntry "seed" le32_bytes 4] else None.

Definition sys_ok : syscalls := mkSys true true true.

Definition wname : cstr := generateTableName (str "seed") 2 3 0.

Definition wfs : files :=
  <[wname := table_bytes (quickSortTable (p_file wrun) 0 (length (p_file wrun)))]> ∅.

Lemma wlibs_seed : resolveHashFunc wlibs "seed" = Some (le32_bytes, 4%nat).
Proof. reflexivity. Qed.

Lemma wrun_create : @createRainbowTable {| hash := le32_bytes; hash_len := 4 |} cmwc_state _
  (Z.to_nat 3) (Z.to_nat 2) 2 (cmwc_init 7) 1 (Some (p_file wrun)).
Proof.
  replace 1 with (pool_result wrun) by (vm_compute; reflexivity).
  apply create_run; [apply wrun_reach | apply wrun_joined].
Qed.

Lemma wgen : generateRainbowTable wlibs 2 sys_ok (cmwc_init 7) ∅ 2 3 0 "seed" 1 wfs.
Proof.
  change 1 with (if decide ((1:Z) < 0) then -1 else 1).
  eapply gen_sorted; [exact wlibs_seed | exact wrun_create | lia |].
  assert (Hl : length (p_file wrun) = Z.to_nat 2) by (vm_compute; reflexivity).
  rewrite <- Hl, sort_stored; [reflexivity |].
  eapply create_wf; [exact rand_cmwc_u32 | exact wrun_create].
Qed.

Lemma generateRainbowTable_table_witness :
  2 < two32 ∧
  (∀ p, p <> wname -> wfs !! p = (∅ : files) !! p) ∧
  ∃ f len t, resolveHashFunc wlibs "seed" = Some (f, len) ∧ wfs !! wname = Some (table_bytes t) ∧
    length t = Z.to_nat 2 ∧ Forall (@chain_valid {| hash := f; hash_len := len |} (Z.to_nat 3)) t ∧
    (mmap_ok sys_ok = true -> 2 < 2 ^ 31 -> table_sorted t).
Proof.
  split; [vm_compute; reflexivity |].
  exact (generateRainbowTable_table wlibs 2 sys_ok (cmwc_init 7) ∅ 2 3 0 "seed" 1 wfs
           ltac:(vm_compute; reflexivity) wgen eq_refl).
Defined.

Lemma generateRainbowTable_mmap_unsorted_witness :
  generateRainbowTable wlibs 2 (mkSys true true false) (cmwc_init 7) ∅ 2 3 0 "seed" 1
    (<[wname := table_bytes (p_file wrun)]> ∅).
Proof. exact (generateRainbowTable_mmap_unsorted wlibs 2 (cmwc_init 7) ∅ 2 3 0 "seed" _ _ _ wlibs_seed wrun_create). Defined.

Lemma searchRainbowTable_found_witness :
  searchRainbowTable wlibs sys_ok wfs (mkUninit [] 0 0) wname (le32_bytes 367615527) = Ret (1, Some 367615527) ∧
  1 = 1 ∧ ∃ f len,
    resolveHashFunc wlibs (String.string_of_list_ascii
      (default (u_name (mkUninit [] 0 0)) (sc_name (parseTablename wname).2))) = Some (f, len) ∧
    memeq len (f 367615527) (le32_bytes 367615527) = true.
Proof.
  assert (H : searchRainbowTable wlibs sys_ok wfs (mkUninit [] 0 0) wname (le32_bytes 367615527) =
              Ret (1, Some 367615527)) by (vm_compute; reflexivity).
  exact (conj H (searchRainbowTable_found _ _ _ _ _ _ _ _ H)).
Defined.

Lemma bytesFromHash_readable_witness :
  length (map byte_of_Z (seqZ 0 16)) = 16%nat ∧
  bytesFromHash 0 (readable (map byte_of_Z (seqZ 0 16))) =
    Some (map byte_of_Z (seqZ 0 16) ++ replicate (MAX_HASH_SIZE - 16) Byte.x00).
Proof.
  assert (H : length (map byte_of_Z (seqZ 0 16)) = 16%nat) by reflexivity.
  exact (conj H (bytesFromHash_readable 0 _ H)).
Defined.

Lemma main_exit_witness :
  main wlibs 2 sys_ok (mkUninit [] 0 0) 0 0 [str "snowflake"] ∅ 0 [MsgUsage] ∅ ∧
  ((0 = 0 <-> valid_args [str "snowflake"]) ∧
   (0 <> 0 -> 0 = 1 ∧ (∅ : files) = ∅ ∧ head [MsgUsage] = Some MsgUsage) ∧
   ([str "snowflake"] !!! 1%nat <> GENERATE_HASH_TABLES -> (∅ : files) = ∅) ∧
   ([str "snowflake"] !!! 1%nat = GENERATE_HASH_TABLES -> length [str "snowflake"] = 6%nat ->
      [MsgUsage] = [] ∧ 0 = 0)).
Proof.
  assert (H : main wlibs 2 sys_ok (mkUninit [] 0 0) 0 0 [str "snowflake"] ∅ 0 [MsgUsage] ∅)
    by (apply main_usage; simpl; lia).
  exact (conj H (main_exit _ _ _ _ _ _ _ _ _ _ _ H)).
Defined.

(** [snowflake search seed.2.3.0.rt <hex>], the target being the digest
    of the start 367615527 of the generated table. *)
Definition wargv : list cstr :=
  [str "snowflake"; SEARCH_HASH_TABLES; wname; hex_of_bytes (le32_bytes 367615527 ++ replicate 12 Byte.x00)].

Definition wbytes : list byte := le32_bytes 367615527 ++ replicate 60 Byte.x00.

Lemma wmain : main wlibs 2 sys_ok (mkUninit [] 0 0) 0 0 wargv wfs 0 [MsgFound 367615527] wfs.
Proof.
  change [MsgFound 367615527] with (report 1 (default 0 (Some 367615527))).
  apply (main_search _ _ _ _ _ _ _ _ wbytes); [reflexivity | reflexivity | vm_compute; reflexivity |].
  vm_compute. reflexivity.
Qed.

Lemma main_found_sound_witness :
  ∃ bytes name f len,
    bytesFromHash 0 (wargv !!! 3%nat) = Some bytes ∧
    ((wargv !!! 1%nat = SEARCH_HASH_TABLES ∧
      name = String.string_of_list_ascii (default (u_name (mkUninit [] 0 0))
               (sc_name (parseTablename (wargv !!! 2%nat)).2))) ∨
     (wargv !!! 1%nat = CRACK_HASH ∧ name = String.string_of_list_ascii (wargv !!! 2%nat))) ∧
    resolveHashFunc wlibs name = Some (f, len) ∧ memeq len (f 367615527) bytes = true.
Proof.
  exact (main_found_sound wlibs 2 sys_ok (mkUninit [] 0 0) 0 0 wargv wfs 0 [MsgFound 367615527] wfs 367615527
           ltac:(vm_compute; reflexivity) wmain ltac:(left; reflexivity)).
Defined.
